(** * SAGE Flow: execution graph, stream engine, functions and operators

    A shallow embedding of the C++ sources of the SAGE Flow core
    (engine/execution_graph.cpp, engine/stream_engine.cpp,
    function/function.cpp, function/map_function.cpp,
    operator/map_operator.cpp, operator/filter_operator.cpp,
    operator/sink_operator.cpp, operator/terminal_sink_operator.cpp)
    together with the properties the specification states about them.

    Conventions of the embedding:
    - [size_t] identifiers are [N] with the 64-bit wrap-around written out;
    - [std::unordered_map] is a [gmap]; [operator[]] on a missing key
      default-constructs the value, which is written out at each use;
    - a C++ call either returns, throws, or (in the model only) runs out of
      the fuel that bounds the depth-first search; see [outcome];
    - writes to [std::cout] and [std::cerr] are not modelled. *)

From Stdlib Require Import NArith String.
From stdpp Require Import gmap list fin_maps strings.

Local Open Scope N_scope.

(** ** Outcomes of a C++ call *)

(** The text of every [std::runtime_error] the modelled code constructs,
    kept symbolic so that no integer has to be printed. *)
Inductive what_arg : Type :=
| InvalidGraphNull            (* "Invalid execution graph submitted - null graph" *)
| InvalidGraphValidation      (* "Invalid execution graph submitted - validation failed" *)
| GraphIdNotFound (id : N)    (* "Graph ID " + std::to_string(id) + " not found" *)
| GraphPointerNull            (* "Graph pointer is null" *)
| GraphCyclesOrInvalid        (* "Graph contains cycles or is invalid" *)
| DualInputNotImplemented (name : string)
                              (* "Dual-input execute not implemented for function: " + name_ *)
| NoMapFunctionSet            (* "MapOperator: No MapFunction set" *)
| NoFilterFunctionSet         (* "FilterOperator: No FilterFunction set" *)
| NoSinkFunctionSet           (* "SinkOperator: No SinkFunction set" *)
| UserError (code : N).       (* the text of a runtime_error a user callback throws *)

(** What a [throw] can carry: a [std::runtime_error], which a
    [catch (const std::exception&)] block takes, or a value of a type that
    does not derive from [std::exception] (as in [throw 42]), which such a
    block lets through. User callbacks may throw either. *)
Inductive exception : Type :=
| runtime_error (what : what_arg)
| thrown_value (code : N).

(** Whether [catch (const std::exception&)] takes the exception. *)
Definition is_std_exception (e : exception) : bool :=
  match e with
  | runtime_error _ => true
  | thrown_value _ => false
  end.

Inductive outcome (A : Type) : Type :=
| Return (a : A)
| Throw (e : exception)
| OutOfFuel.

Arguments Return {A} a.
Arguments Throw {A} e.
Arguments OutOfFuel {A}.

(** The error monad of the embedding: [do x <- m; k] runs [m] and stops at
    the first throw. *)
Definition bind {A B : Type} (m : outcome A) (k : A → outcome B) : outcome B :=
  match m with
  | Return a => k a
  | Throw e => Throw e
  | OutOfFuel => OutOfFuel
  end.

Notation "'do' x <- m ; k" := (bind m (fun x => k))
  (at level 10, x pattern, m at level 100, k at level 200,
   format "'[v' 'do'  x  <-  m ; '/' k ']'").

(** [size_t] arithmetic: [x++] on a 64-bit unsigned counter. *)
Definition SIZE_MAX_plus_1 : N := 2 ^ 64.

Definition size_t_incr (x : N) : N := (x + 1) mod SIZE_MAX_plus_1.

(** ** ExecutionGraph (engine/execution_graph.h, engine/execution_graph.cpp) *)

Module Graph.

(** [std::shared_ptr<Operator>]: the graph never looks inside an operator,
    so a non-null pointer is an opaque handle and [None] is [nullptr]. *)
Abbreviation OperatorPtr := (option nat) (only parsing).

Record ExecutionGraph : Type := mkGraph {
  operators_ : gmap N OperatorPtr;
  adjacency_list_ : gmap N (list N);
  reverse_adjacency_list_ : gmap N (list N);
  next_operator_id_ : N
}.

(** A default-constructed graph. *)
Definition empty_graph : ExecutionGraph :=
  {| operators_ := ∅; adjacency_list_ := ∅;
     reverse_adjacency_list_ := ∅; next_operator_id_ := 0 |}.

(** [m[k].push_back(x)]: [operator[]] creates an empty vector when [k] is
    missing, then the element is appended. *)
Definition push_back_at (k x : N) (m : gmap N (list N)) : gmap N (list N) :=
  <[k := default [] (m !! k) ++ [x]]> m.

(** [v.erase(std::remove(v.begin(), v.end(), id), v.end())] *)
Definition erase_remove (id : N) (v : list N) : list N :=
  filter (λ x, x ≠ id) v.

Definition addOperator (g : ExecutionGraph) (op : OperatorPtr) : N * ExecutionGraph :=
  let id := next_operator_id_ g in
  (id, {| operators_ := <[id := op]> (operators_ g);
          adjacency_list_ := <[id := []]> (adjacency_list_ g);
          reverse_adjacency_list_ := <[id := []]> (reverse_adjacency_list_ g);
          next_operator_id_ := size_t_incr id |}).

Definition connectOperators (g : ExecutionGraph) (source target : N) : ExecutionGraph :=
  {| operators_ := operators_ g;
     adjacency_list_ := push_back_at source target (adjacency_list_ g);
     reverse_adjacency_list_ := push_back_at target source (reverse_adjacency_list_ g);
     next_operator_id_ := next_operator_id_ g |}.

Definition removeOperator (g : ExecutionGraph) (id : N) : ExecutionGraph :=
  {| operators_ := delete id (operators_ g);
     adjacency_list_ := erase_remove id <$> delete id (adjacency_list_ g);
     reverse_adjacency_list_ := erase_remove id <$> delete id (reverse_adjacency_list_ g);
     next_operator_id_ := next_operator_id_ g |}.

Definition getOperator (g : ExecutionGraph) (id : N) : OperatorPtr :=
  match operators_ g !! id with
  | Some op => op
  | None => None
  end.

Definition getSuccessors (g : ExecutionGraph) (id : N) : list N :=
  match adjacency_list_ g !! id with
  | Some v => v
  | None => []
  end.

Definition getPredecessors (g : ExecutionGraph) (id : N) : list N :=
  match reverse_adjacency_list_ g !! id with
  | Some v => v
  | None => []
  end.

Definition size (g : ExecutionGraph) : nat := base.size (operators_ g).

Definition empty (g : ExecutionGraph) : bool := bool_decide (operators_ g = ∅).

Definition getOperatorCount (g : ExecutionGraph) : nat := size g.

Definition reset (g : ExecutionGraph) : ExecutionGraph := empty_graph.

(** *** Construction histories *)

Inductive call : Type :=
| AddOperator (op : OperatorPtr)
| ConnectOperators (source target : N)
| RemoveOperator (id : N).

Definition run_call (g : ExecutionGraph) (c : call) : ExecutionGraph :=
  match c with
  | AddOperator op => (addOperator g op).2
  | ConnectOperators s t => connectOperators g s t
  | RemoveOperator id => removeOperator g id
  end.

Definition run_calls (g : ExecutionGraph) (cs : list call) : ExecutionGraph :=
  foldl run_call g cs.

(** The number of times [x] occurs in a vector. *)
Definition occurrences (x : N) (v : list N) : nat :=
  length (filter (λ y, y = x) v).

(** The reverse adjacency is the transpose of the forward adjacency,
    multiplicities included. *)
Definition transposed (g : ExecutionGraph) : Prop :=
  ∀ a b, occurrences b (getSuccessors g a) = occurrences a (getPredecessors g b).

(** Every identifier an edge mentions has already been handed out. *)
Definition edges_allocated (g : ExecutionGraph) : Prop :=
  ∀ a b, b ∈ getSuccessors g a → a < next_operator_id_ g ∧ b < next_operator_id_ g.

(** A call that stays within the identifiers handed out so far and does not
    wrap the 64-bit counter. *)
Definition call_allocated (g : ExecutionGraph) (c : call) : Prop :=
  match c with
  | AddOperator _ => next_operator_id_ g + 1 < SIZE_MAX_plus_1
  | ConnectOperators s t => s < next_operator_id_ g ∧ t < next_operator_id_ g
  | RemoveOperator _ => True
  end.

Fixpoint calls_allocated (g : ExecutionGraph) (cs : list call) : Prop :=
  match cs with
  | [] => True
  | c :: cs' => call_allocated g c ∧ calls_allocated (run_call g c) cs'
  end.

(** *** Depth-first traversal *)

(** The two [std::unordered_map<OperatorId, bool>] of the traversal and the
    output vector, which [topologicalSortUtil] receives by reference. *)
Record dfs_state : Type := mkDfs {
  visited : gmap N bool;
  rec_stack : gmap N bool;
  topo_order : list N
}.

(** [m[k]] read as an rvalue: a missing key is inserted with [false], which
    reads back as [false], so the read is a lookup with that default. *)
Definition flag (m : gmap N bool) (k : N) : bool := default false (m !! k).

(** The loop [for (OperatorId successor : it->second)] of
    [topologicalSortUtil], with the recursive call abstracted as [rec]. The
    Boolean is the value a [return] inside the loop hands back ([true]: a
    cycle was found); falling off the end of the loop yields [false]. *)
Fixpoint visit_successors (rec : N → dfs_state → outcome (bool * dfs_state))
    (successors : list N) (st : dfs_state) : outcome (bool * dfs_state) :=
  match successors with
  | [] => Return (false, st)
  | successor :: rest =>
      if negb (flag (visited st) successor) then
        do (cycle, st') <- rec successor st;
        if cycle then Return (true, st') else visit_successors rec rest st'
      else if flag (rec_stack st) successor then Return (true, st)
      else visit_successors rec rest st
  end.

(** [rec_stack[id] = false; topo_order.push_back(id);] *)
Definition finish (id : N) (st : dfs_state) : dfs_state :=
  {| visited := visited st;
     rec_stack := <[id := false]> (rec_stack st);
     topo_order := topo_order st ++ [id] |}.

(** [visited[id] = true; rec_stack[id] = true;] *)
Definition enter (id : N) (st : dfs_state) : dfs_state :=
  {| visited := <[id := true]> (visited st);
     rec_stack := <[id := true]> (rec_stack st);
     topo_order := topo_order st |}.

(** The recursion of the source is bounded here by [fuel], the number of
    nested calls still allowed; [topologicalSortUtil_returns] shows that
    [dfs_fuel] is always enough. *)
Fixpoint topologicalSortUtil (fuel : nat) (g : ExecutionGraph) (id : N)
    (st : dfs_state) : outcome (bool * dfs_state) :=
  match fuel with
  | O => OutOfFuel
  | S fuel' =>
      let st1 := enter id st in
      match adjacency_list_ g !! id with
      | Some successors =>
          do (cycle, st2) <- visit_successors (topologicalSortUtil fuel' g) successors st1;
          if cycle then Return (true, st2) else Return (false, finish id st2)
      | None => Return (false, finish id st1)
      end
  end.

(** Every identifier the traversal can meet: registered operators, keys of
    the forward adjacency and members of its vectors. *)
Definition graph_nodes (g : ExecutionGraph) : gset N :=
  dom (operators_ g) ∪ dom (adjacency_list_ g)
  ∪ ⋃ ((λ kv, list_to_set kv.2) <$> map_to_list (adjacency_list_ g)).

Definition dfs_fuel (g : ExecutionGraph) : nat := base.size (graph_nodes g).

(** [for (const auto& [id, op] : operators_) { visited[id] = false;
    rec_stack[id] = false; }], for one of the two maps. *)
Definition init_flags (ids : list N) : gmap N bool :=
  foldl (λ m id, <[id := false]> m) ∅ ids.

(** The loop over the roots in [getTopologicalOrder]: all calls share one
    output vector. *)
Fixpoint sort_roots (rec : N → dfs_state → outcome (bool * dfs_state))
    (roots : list N) (st : dfs_state) : outcome (bool * dfs_state) :=
  match roots with
  | [] => Return (false, st)
  | id :: rest =>
      if negb (flag (visited st) id) then
        do (cycle, st') <- rec id st;
        if cycle then Return (true, st') else sort_roots rec rest st'
      else sort_roots rec rest st
  end.

(** The loop over the roots in [detectCycles]: each call gets a fresh
    [dummy] vector. *)
Fixpoint detect_roots (rec : N → dfs_state → outcome (bool * dfs_state))
    (roots : list N) (vis stk : gmap N bool) : outcome bool :=
  match roots with
  | [] => Return false
  | id :: rest =>
      if negb (flag vis id) then
        do (cycle, st') <- rec id (mkDfs vis stk []);
        if cycle then Return true
        else detect_roots rec rest (visited st') (rec_stack st')
      else detect_roots rec rest vis stk
  end.

Section traversal.

(** The order in which a range-for visits the keys of [operators_]. The
    standard leaves it unspecified; it is a parameter here, the same for
    every loop over one unchanged map. *)
Variable iteration : gmap N OperatorPtr → list N.

Definition getTopologicalOrder (g : ExecutionGraph) : outcome (list N) :=
  let ids := iteration (operators_ g) in
  let st0 := mkDfs (init_flags ids) (init_flags ids) [] in
  do (cycle, st) <- sort_roots (topologicalSortUtil (dfs_fuel g) g) ids st0;
  if cycle then Return [] else Return (reverse (topo_order st)).

Definition detectCycles (g : ExecutionGraph) : outcome bool :=
  let ids := iteration (operators_ g) in
  detect_roots (topologicalSortUtil (dfs_fuel g) g) ids
    (init_flags ids) (init_flags ids).

Definition isValid (g : ExecutionGraph) : outcome bool :=
  do c <- detectCycles g; Return (negb c).

Definition validate (g : ExecutionGraph) : outcome bool := isValid g.

End traversal.

(** One admissible iteration order, used to evaluate the model on concrete
    graphs. *)
Definition key_order (m : gmap N OperatorPtr) : list N := (map_to_list m).*1.

(** What every iteration order satisfies: each key is visited once. *)
Definition iterates_keys (iteration : gmap N OperatorPtr → list N) : Prop :=
  ∀ m, iteration m ≡ₚ (map_to_list m).*1.

(** *** Notions used to reason about the traversal *)

(** The nodes of [graph_nodes] that the traversal has not entered yet; their
    number bounds the depth of the recursion still to come. *)
Definition unvisited (g : ExecutionGraph) (st : dfs_state) : gset N :=
  filter (λ k, flag (visited st) k = false) (graph_nodes g).

(** The traversal only ever sets [visited] flags. *)
Definition visited_grows (st st' : dfs_state) : Prop :=
  ∀ k, flag (visited st) k = true → flag (visited st') k = true.

(** Two states that differ at most in the output vector. *)
Definition same_marks (st st' : dfs_state) : Prop :=
  visited st = visited st' ∧ rec_stack st = rec_stack st'.

Definition same_result (o o' : outcome (bool * dfs_state)) : Prop :=
  match o, o' with
  | Return (c, st), Return (c', st') => c = c' ∧ same_marks st st'
  | Throw e, Throw e' => e = e'
  | OutOfFuel, OutOfFuel => True
  | _, _ => False
  end.

(** The invariant of the traversal. [P] is any set of nodes closed under
    successors that the roots belong to. The output vector lists, without
    repetition, the nodes that are visited and off the recursion stack, and
    every successor of a listed node is listed before it. *)
Record dfs_inv (g : ExecutionGraph) (P : N → Prop) (st : dfs_state) : Prop := mkInv {
  inv_nodup : NoDup (topo_order st);
  inv_done : ∀ k, k ∈ topo_order st ↔
               flag (visited st) k = true ∧ flag (rec_stack st) k = false;
  inv_post : ∀ l1 a l2, topo_order st = l1 ++ a :: l2 →
               ∀ b, b ∈ getSuccessors g a → b ∈ l1;
  inv_stack : ∀ k, flag (rec_stack st) k = true → flag (visited st) k = true;
  inv_within : ∀ k, flag (visited st) k = true → P k
}.

(** What a cycle-free run of a traversal step establishes. *)
Record dfs_post (g : ExecutionGraph) (P : N → Prop) (st st' : dfs_state) : Prop := mkPost {
  post_inv : dfs_inv g P st';
  post_grows : visited_grows st st';
  post_stack : ∀ k, flag (rec_stack st') k = flag (rec_stack st) k
}.

(** [a] comes before [b] in [l]. *)
Definition precedes (l : list N) (a b : N) : Prop :=
  ∃ l1 l2 l3, l = l1 ++ a :: l2 ++ b :: l3.

(** Both endpoints of every forward edge are registered operators. *)
Definition edges_registered (g : ExecutionGraph) : Prop :=
  map_Forall (λ a successors,
      Forall (λ b, is_Some (operators_ g !! a) ∧ is_Some (operators_ g !! b))
             successors)
    (adjacency_list_ g).

(** A source, a map and a sink in a row, as the fluent builder wires them. *)
Definition pipeline : ExecutionGraph :=
  run_calls empty_graph
    [AddOperator (Some 0%nat); AddOperator (Some 1%nat); ConnectOperators 0 1;
     AddOperator (Some 2%nat); ConnectOperators 1 2].

(** One registered operator and an edge to an identifier that was never
    handed out; [connectOperators] accepts it. *)
Definition dangling : ExecutionGraph :=
  run_calls empty_graph [AddOperator (Some 0%nat); ConnectOperators 0 5].

(** An edge recorded before its source identifier is handed out. *)
Definition early_edge : list call :=
  [ConnectOperators 0 1; AddOperator (Some 0%nat)].

(** *** Paths and cycles of the forward adjacency *)

Definition edge (g : ExecutionGraph) (a b : N) : Prop := b ∈ getSuccessors g a.

(** Some registered operator reaches a node that lies on a cycle. *)
Definition reaches_cycle (g : ExecutionGraph) : Prop :=
  ∃ r a, is_Some (operators_ g !! r) ∧ rtc (edge g) r a ∧ tc (edge g) a a.

(** Every key of [operators_] is a key of both adjacency maps, as
    [addOperator] sets them up. *)
Definition adjacency_keys (g : ExecutionGraph) : Prop :=
  ∀ id, is_Some (operators_ g !! id) →
    is_Some (adjacency_list_ g !! id) ∧ is_Some (reverse_adjacency_list_ g !! id).

(** The loop of [getSourceOperators] and [getSinkOperators] over the keys of
    [operators_]: [m.at(id)] throws [std::out_of_range] on a missing key,
    which is [None] here; [acc] is the vector built so far. *)
Fixpoint collect_empty (m : gmap N (list N)) (ids : list N) (acc : list N)
    : option (list N) :=
  match ids with
  | [] => Some acc
  | id :: rest =>
      match m !! id with
      | None => None
      | Some [] => collect_empty m rest (acc ++ [id])
      | Some (_ :: _) => collect_empty m rest acc
      end
  end.

Definition getSourceOperators (iteration : gmap N OperatorPtr → list N)
    (g : ExecutionGraph) : option (list N) :=
  collect_empty (reverse_adjacency_list_ g) (iteration (operators_ g)) [].

Definition getSinkOperators (iteration : gmap N OperatorPtr → list N)
    (g : ExecutionGraph) : option (list N) :=
  collect_empty (adjacency_list_ g) (iteration (operators_ g)) [].

(** A two-operator loop, as in "a cycle a → b → a introduced by mistake". *)
Definition two_cycle : ExecutionGraph :=
  run_calls empty_graph
    [AddOperator (Some 0%nat); AddOperator (Some 1%nat);
     ConnectOperators 0 1; ConnectOperators 1 0].

End Graph.

(** ** StreamEngine (engine/stream_engine.h, engine/stream_engine.cpp) *)

Module Engine.

Inductive ExecutionMode : Type := SINGLE_THREADED | MULTI_THREADED | ASYNC.

Inductive GraphState : Type :=
| UNKNOWN | SUBMITTED | RUNNING | COMPLETED | STOPPED | ERROR.

(** A [std::shared_ptr<ExecutionGraph>] is [None] when null and otherwise the
    address of a graph object. The engine keeps the pointer, not a copy, so
    the graph objects live in a store that every call reads afresh. *)
Abbreviation GraphPtr := (option nat) (only parsing).

Definition store : Type := nat → Graph.ExecutionGraph.

Record StreamEngine : Type := mkEngine {
  execution_mode_ : ExecutionMode;
  next_graph_id_ : N;
  submitted_graphs_ : gmap N GraphPtr;
  graph_states_ : gmap N GraphState
}.

(** [StreamEngine(ExecutionMode mode)] with the default member initialisers. *)
Definition new_engine (mode : ExecutionMode) : StreamEngine :=
  {| execution_mode_ := mode; next_graph_id_ := 0;
     submitted_graphs_ := ∅; graph_states_ := ∅ |}.

Definition set_state (id : N) (s : GraphState) (e : StreamEngine) : StreamEngine :=
  {| execution_mode_ := execution_mode_ e;
     next_graph_id_ := next_graph_id_ e;
     submitted_graphs_ := submitted_graphs_ e;
     graph_states_ := <[id := s]> (graph_states_ e) |}.

Section engine.

Variable iteration : gmap N Graph.OperatorPtr → list N.

(** Every member function returns its outcome together with the engine as
    the call leaves it, also when it throws. *)
Definition submitGraph (h : store) (graph : GraphPtr) (e : StreamEngine)
    : outcome N * StreamEngine :=
  match graph with
  | None => (Throw (runtime_error InvalidGraphNull), e)
  | Some p =>
      match Graph.validate iteration (h p) with
      | Return true =>
          let id := next_graph_id_ e in
          (Return id,
           {| execution_mode_ := execution_mode_ e;
              next_graph_id_ := size_t_incr id;
              submitted_graphs_ := <[id := graph]> (submitted_graphs_ e);
              graph_states_ := <[id := SUBMITTED]> (graph_states_ e) |})
      | Return false => (Throw (runtime_error InvalidGraphValidation), e)
      | Throw x => (Throw x, e)
      | OutOfFuel => (OutOfFuel, e)
      end
  end.

(** The two loops over [topo_order] only print; [getOperator] has no side
    effect. The [catch] block prints and rethrows. *)
Definition executeGraph (h : store) (graph_id : N) (e : StreamEngine)
    : outcome unit * StreamEngine :=
  match submitted_graphs_ e !! graph_id with
  | None => (Throw (runtime_error (GraphIdNotFound graph_id)), e)
  | Some None => (Throw (runtime_error GraphPointerNull), e)
  | Some (Some p) =>
      let e1 := set_state graph_id RUNNING e in
      match Graph.getTopologicalOrder iteration (h p) with
      | Return [] => (Throw (runtime_error GraphCyclesOrInvalid), e1)
      | Return (_ :: _) => (Return tt, set_state graph_id COMPLETED e1)
      | Throw x => (Throw x, e1)
      | OutOfFuel => (OutOfFuel, e1)
      end
  end.

End engine.

Definition executeGraphAsync (graph_id : N) (e : StreamEngine)
    : outcome unit * StreamEngine :=
  match submitted_graphs_ e !! graph_id with
  | None => (Throw (runtime_error (GraphIdNotFound graph_id)), e)
  | Some _ =>
      (Return tt, set_state graph_id COMPLETED (set_state graph_id RUNNING e))
  end.

Definition stopGraph (graph_id : N) (e : StreamEngine) : StreamEngine :=
  match submitted_graphs_ e !! graph_id with
  | None => e
  | Some _ => set_state graph_id STOPPED e
  end.

Definition getGraphState (e : StreamEngine) (graph_id : N) : GraphState :=
  match graph_states_ e !! graph_id with
  | Some s => s
  | None => UNKNOWN
  end.

Definition isGraphRunning (e : StreamEngine) (graph_id : N) : bool :=
  match getGraphState e graph_id with
  | RUNNING => true
  | _ => false
  end.

Definition removeGraph (graph_id : N) (e : StreamEngine) : StreamEngine :=
  let e1 := stopGraph graph_id e in
  {| execution_mode_ := execution_mode_ e1;
     next_graph_id_ := next_graph_id_ e1;
     submitted_graphs_ := delete graph_id (submitted_graphs_ e1);
     graph_states_ := delete graph_id (graph_states_ e1) |}.

(** *** Histories of calls on one engine *)

(** Each call comes with the store as it is when the call is made: clients
    hold the same pointers and may change the graphs in between. *)
Inductive call : Type :=
| SubmitGraph (h : store) (graph : GraphPtr)
| ExecuteGraph (h : store) (graph_id : N)
| ExecuteGraphAsync (graph_id : N)
| StopGraph (graph_id : N)
| RemoveGraph (graph_id : N).

Definition run_call (iteration : gmap N Graph.OperatorPtr → list N)
    (e : StreamEngine) (c : call) : StreamEngine :=
  match c with
  | SubmitGraph h graph => (submitGraph iteration h graph e).2
  | ExecuteGraph h graph_id => (executeGraph iteration h graph_id e).2
  | ExecuteGraphAsync graph_id => (executeGraphAsync graph_id e).2
  | StopGraph graph_id => stopGraph graph_id e
  | RemoveGraph graph_id => removeGraph graph_id e
  end.

Definition run_calls (iteration : gmap N Graph.OperatorPtr → list N)
    (e : StreamEngine) (cs : list call) : StreamEngine :=
  foldl (run_call iteration) e cs.

(** Every identifier in use was handed out by [submitGraph]. *)
Definition ids_allocated (e : StreamEngine) : Prop :=
  (∀ id, is_Some (submitted_graphs_ e !! id) → id < next_graph_id_ e)
  ∧ (∀ id, is_Some (graph_states_ e !! id) → id < next_graph_id_ e).

(** A store in which every address holds the three-stage pipeline, and one
    in which every address holds a graph without operators. *)
Definition pipeline_store : store := λ _, Graph.pipeline.

Definition empty_store : store := λ _, Graph.empty_graph.

(** An engine whose graph 0 has run to completion. *)
Definition completed_engine : StreamEngine :=
  run_calls Graph.key_order (new_engine SINGLE_THREADED)
    [SubmitGraph pipeline_store (Some 0%nat); ExecuteGraph pipeline_store 0].

(** An engine whose graph 0 was stopped. *)
Definition stopped_engine : StreamEngine :=
  run_calls Graph.key_order (new_engine SINGLE_THREADED)
    [SubmitGraph pipeline_store (Some 0%nat); StopGraph 0].

(** An engine that accepted a graph without operators as graph 0. *)
Definition engine_with_empty_graph : StreamEngine :=
  run_calls Graph.key_order (new_engine SINGLE_THREADED)
    [SubmitGraph empty_store (Some 0%nat)].

(** The two maps of the engine go together: they have the same keys, no
    recorded graph pointer is null, and no recorded state is [UNKNOWN] or
    [ERROR]. *)
Definition consistent (e : StreamEngine) : Prop :=
  (∀ id, is_Some (submitted_graphs_ e !! id) ↔ is_Some (graph_states_ e !! id))
  ∧ (∀ id, submitted_graphs_ e !! id ≠ Some None)
  ∧ (∀ id s, graph_states_ e !! id = Some s → s ≠ UNKNOWN ∧ s ≠ ERROR).

(** A store whose every address holds the two-operator loop. *)
Definition cyclic_store : store := λ _, Graph.two_cycle.

End Engine.

(** ** Function, MapFunction, FilterFunction, SinkFunction
    (function/function.h, function/function.cpp, function/map_function.cpp,
    function/filter_function.cpp, function/sink_function.cpp) *)

Module Function.

Inductive FunctionType : Type :=
| None_ | Source | Map | Filter | Sink | Join | Aggregate | Window
| TopK | ITopK | FlatMap | KeyBy.

(** The members of the base class [Function]. *)
Record FunctionBase : Type := mkBase {
  name_ : string;
  type_ : FunctionType
}.

Section functions.

(** [MultiModalMessage] is opaque to this code. [World] is whatever the
    user callbacks (closures held in [std::function]) can read and change. *)
Context {Message World : Type}.

(** [std::vector<std::unique_ptr<MultiModalMessage>> messages_]; [None] is a
    null pointer. *)
Definition FunctionResponse : Type := list (option Message).

Definition addMessage (r : FunctionResponse) (message : option Message)
    : FunctionResponse := r ++ [message].

Definition clear (r : FunctionResponse) : FunctionResponse := [].

Definition isEmpty (r : FunctionResponse) : bool :=
  match r with [] => true | _ :: _ => false end.

Definition size (r : FunctionResponse) : nat := length r.

(** [std::function<void(std::unique_ptr<MultiModalMessage>&)>]: the callback
    may change the message or reset the pointer ([None]), and may throw. *)
Definition MapFunc : Type := Message → World → outcome (option Message) * World.

(** [std::function<bool(const MultiModalMessage&)>] *)
Definition FilterFunc : Type := Message → World → outcome bool * World.

(** [std::function<void(const MultiModalMessage&)>] *)
Definition SinkFunc : Type := Message → World → outcome unit * World.

(** A single-input [execute] takes its argument by reference: it returns the
    result together with the argument as the call leaves it. When it throws,
    the caller's argument is not used again and is dropped here. *)
Definition execute_type : Type :=
  FunctionResponse → World → outcome (FunctionResponse * FunctionResponse) * World.

(** [Function::execute(FunctionResponse&)]: the default pass-through. *)
Definition Function_execute (response : FunctionResponse)
    : FunctionResponse * FunctionResponse :=
  (foldl addMessage [] response, clear response).

(** [Function::execute(FunctionResponse&, FunctionResponse&)] *)
Definition Function_execute2 (this : FunctionBase)
    (left right : FunctionResponse) : outcome FunctionResponse :=
  Throw (runtime_error (DualInputNotImplemented (name_ this))).

Record MapFunction : Type := mkMapFunction {
  map_base : FunctionBase;
  map_func_ : option MapFunc
}.

(** The loop of [MapFunction::execute]; [result] is the response built so
    far. *)
Fixpoint MapFunction_loop (map_func_ : option MapFunc)
    (messages : list (option Message)) (result : FunctionResponse) (w : World)
    : outcome FunctionResponse * World :=
  match messages with
  | [] => (Return result, w)
  | message :: rest =>
      match map_func_, message with
      | Some f, Some m =>
          match f m w with
          | (Return message', w') =>
              MapFunction_loop map_func_ rest (addMessage result message') w'
          | (Throw e, w') => (Throw e, w')
          | (OutOfFuel, w') => (OutOfFuel, w')
          end
      | _, _ => MapFunction_loop map_func_ rest result w
      end
  end.

Definition MapFunction_execute (this : MapFunction) : execute_type :=
  λ response w,
  match MapFunction_loop (map_func_ this) response [] w with
  | (Return result, w') => (Return (result, clear response), w')
  | (Throw e, w') => (Throw e, w')
  | (OutOfFuel, w') => (OutOfFuel, w')
  end.

Record FilterFunction : Type := mkFilterFunction {
  filter_base : FunctionBase;
  filter_func_ : option FilterFunc
}.

Fixpoint FilterFunction_loop (filter_func_ : option FilterFunc)
    (messages : list (option Message)) (result : FunctionResponse) (w : World)
    : outcome FunctionResponse * World :=
  match messages with
  | [] => (Return result, w)
  | None :: rest => FilterFunction_loop filter_func_ rest result w
  | Some m :: rest =>
      match filter_func_ with
      | None => FilterFunction_loop filter_func_ rest (addMessage result (Some m)) w
      | Some f =>
          match f m w with
          | (Return true, w') =>
              FilterFunction_loop filter_func_ rest (addMessage result (Some m)) w'
          | (Return false, w') => FilterFunction_loop filter_func_ rest result w'
          | (Throw e, w') => (Throw e, w')
          | (OutOfFuel, w') => (OutOfFuel, w')
          end
      end
  end.

Definition FilterFunction_execute (this : FilterFunction) : execute_type :=
  λ response w,
  match FilterFunction_loop (filter_func_ this) response [] w with
  | (Return result, w') => (Return (result, clear response), w')
  | (Throw e, w') => (Throw e, w')
  | (OutOfFuel, w') => (OutOfFuel, w')
  end.

(** [SinkFunction] is abstract ([init] and [close] are pure virtual); a
    concrete subclass may replace [execute], which is then [sink_override]. *)
Record SinkFunction : Type := mkSinkFunction {
  sink_base : FunctionBase;
  sink_func_ : option SinkFunc;
  sink_override : option execute_type
}.

Fixpoint SinkFunction_loop (sink_func_ : option SinkFunc)
    (messages : list (option Message)) (w : World) : outcome unit * World :=
  match messages with
  | [] => (Return tt, w)
  | message :: rest =>
      match message, sink_func_ with
      | Some m, Some f =>
          match f m w with
          | (Return _, w') => SinkFunction_loop sink_func_ rest w'
          | (Throw e, w') => (Throw e, w')
          | (OutOfFuel, w') => (OutOfFuel, w')
          end
      | _, _ => SinkFunction_loop sink_func_ rest w
      end
  end.

Definition SinkFunction_execute (this : SinkFunction) : execute_type :=
  λ response w,
  match SinkFunction_loop (sink_func_ this) response w with
  | (Return _, w') => (Return ([], clear response), w')
  | (Throw e, w') => (Throw e, w')
  | (OutOfFuel, w') => (OutOfFuel, w')
  end.

(** [SourceFunction] is abstract: [execute] and [hasNext] are pure virtual
    and come from the concrete subclass. *)
Record SourceFunction : Type := mkSourceFunction {
  source_base : FunctionBase;
  source_execute : execute_type;
  hasNext : World → bool * World
}.

(** An object of one of the classes that [function.h] and its companions
    declare, seen through a [Function&]. *)
Inductive Function : Type :=
| AFunction (this : FunctionBase)
| ASourceFunction (this : SourceFunction)
| AMapFunction (this : MapFunction)
| AFilterFunction (this : FilterFunction)
| ASinkFunction (this : SinkFunction).

Definition base (f : Function) : FunctionBase :=
  match f with
  | AFunction this => this
  | ASourceFunction this => source_base this
  | AMapFunction this => map_base this
  | AFilterFunction this => filter_base this
  | ASinkFunction this => sink_base this
  end.

Definition getName (f : Function) : string := name_ (base f).

(** The virtual call [f.execute(response)]. *)
Definition execute (f : Function) : execute_type :=
  match f with
  | AFunction _ => λ response w, (Return (Function_execute response), w)
  | ASourceFunction this => source_execute this
  | AMapFunction this => MapFunction_execute this
  | AFilterFunction this => FilterFunction_execute this
  | ASinkFunction this =>
      match sink_override this with
      | Some overrider => overrider
      | None => SinkFunction_execute this
      end
  end.

(** The virtual call [f.execute(left, right)]: none of these classes
    declares the two-input overload, so the call lands in [Function]. *)
Definition execute2 (f : Function) (left right : FunctionResponse)
    : outcome FunctionResponse :=
  match f with
  | AFunction this => Function_execute2 this left right
  | ASourceFunction this => Function_execute2 (source_base this) left right
  | AMapFunction this => Function_execute2 (map_base this) left right
  | AFilterFunction this => Function_execute2 (filter_base this) left right
  | ASinkFunction this => Function_execute2 (sink_base this) left right
  end.

(** The specification's words for [MapFunction::execute], as a second
    definition to compare the code with: every position of the input yields
    an intermediate result (nil for a nil input), and the positions whose
    intermediate result is nil are removed from the output. *)
Fixpoint map_spec (f : MapFunc) (messages : list (option Message)) (w : World)
    : outcome (list (option Message)) * World :=
  match messages with
  | [] => (Return [], w)
  | message :: rest =>
      let intermediate :=
        match message with
        | Some m => f m w
        | None => (Return None, w)
        end in
      match intermediate with
      | (Return message', w') =>
          match map_spec f rest w' with
          | (Return out, w'') =>
              (Return (match message' with
                       | Some _ => message' :: out
                       | None => out
                       end), w'')
          | other => other
          end
      | (Throw e, w') => (Throw e, w')
      | (OutOfFuel, w') => (OutOfFuel, w')
      end
  end.

(** What the loop computes, without the accumulator: the callback's result
    for each non-nil input, in order, nil results included. *)
Fixpoint map_entries (f : MapFunc) (messages : list (option Message)) (w : World)
    : outcome (list (option Message)) * World :=
  match messages with
  | [] => (Return [], w)
  | None :: rest => map_entries f rest w
  | Some m :: rest =>
      match f m w with
      | (Return message', w') =>
          match map_entries f rest w' with
          | (Return out, w'') => (Return (message' :: out), w'')
          | other => other
          end
      | (Throw e, w') => (Throw e, w')
      | (OutOfFuel, w') => (OutOfFuel, w')
      end
  end.

(** The non-nil entries of a response. *)
Definition present (r : list (option Message)) : list Message := omap id r.

End functions.

Arguments FunctionResponse : clear implicits.
Arguments MapFunc : clear implicits.
Arguments FilterFunc : clear implicits.
Arguments SinkFunc : clear implicits.
Arguments execute_type : clear implicits.
Arguments MapFunction : clear implicits.
Arguments FilterFunction : clear implicits.
Arguments SinkFunction : clear implicits.
Arguments SourceFunction : clear implicits.
Arguments Function : clear implicits.

(** Two callbacks on messages that are numbers, in a world without state:
    one resets the pointer it is given, the other doubles the message. *)
Definition reset_pointer : MapFunc nat unit := λ _ w, (Return None, w).

Definition double : MapFunc nat unit := λ m w, (Return (Some (2 * m)%nat), w).

Definition resetting_map : MapFunction nat unit :=
  {| map_base := mkBase "reset" Map; map_func_ := Some reset_pointer |}.

Definition doubling_map : MapFunction nat unit :=
  {| map_base := mkBase "double" Map; map_func_ := Some double |}.

(** [MapFunction(std::string name)]: no callback set. *)
Definition unset_map : MapFunction nat unit :=
  {| map_base := mkBase "unset" Map; map_func_ := None |}.

End Function.

(** ** MapOperator, FilterOperator, SinkOperator, TerminalSinkOperator
    (operator/map_operator.cpp, operator/filter_operator.cpp,
    operator/sink_operator.cpp, operator/terminal_sink_operator.cpp) *)

Module Operator.

Import Function.

Section operators.

Context {Message World : Type}.

(** Modelled from the spec: operator/response.h is not among the sources.
    A [Response] is represented by what the operators observe of it: the
    answers of [hasMessage()], [getMessage()] and [getMessages()]. *)
Record Response : Type := mkResponse {
  hasMessage : bool;
  getMessage : option Message;
  getMessages : list (option Message)
}.

(** Modelled from the spec: operator/base_operator.h is not among the
    sources. The base class keeps the counters, and [emit(slot, record)]
    enqueues the record on the outgoing edge [slot]; the queue of emitted
    messages is [emitted_], oldest first. *)
Record Operator : Type := mkOperator {
  processed_count_ : N;
  output_count_ : N;
  emitted_ : list (Z * Message)
}.

Definition incrementProcessedCount (op : Operator) : Operator :=
  {| processed_count_ := processed_count_ op + 1;
     output_count_ := output_count_ op;
     emitted_ := emitted_ op |}.

Definition incrementOutputCount (op : Operator) : Operator :=
  {| processed_count_ := processed_count_ op;
     output_count_ := output_count_ op + 1;
     emitted_ := emitted_ op |}.

(** [Response output_record(std::move(output_message)); emit(slot, output_record);] *)
Definition emit (slot : Z) (output_message : Message) (op : Operator) : Operator :=
  {| processed_count_ := processed_count_ op;
     output_count_ := output_count_ op;
     emitted_ := emitted_ op ++ [(slot, output_message)] |}.

(** The loop over [output_messages] that [MapOperator::process] and
    [FilterOperator::process] share. *)
Fixpoint emit_outputs (output_messages : list (option Message))
    (has_output : bool) (op : Operator) : bool * Operator :=
  match output_messages with
  | [] => (has_output, op)
  | Some output_message :: rest =>
      emit_outputs rest true (incrementOutputCount (emit 0 output_message op))
  | None :: rest => emit_outputs rest has_output op
  end.

(** A [process] call returns its outcome, the operator's base part and the
    world as the call leaves them. *)
Definition process_result : Type := outcome bool * Operator * World.

Record MapOperator : Type := mkMapOperator {
  map_operator : Operator;
  map_function_ : option (MapFunction Message World)
}.

Definition MapOperator_process (this : MapOperator)
    (input_record : Response) (slot : Z) (w : World) : process_result :=
  match map_function_ this with
  | None => (Throw (runtime_error NoMapFunctionSet), map_operator this, w)
  | Some map_function =>
      if negb (hasMessage input_record) then (Return false, map_operator this, w)
      else
        match getMessage input_record with
        | None => (Return false, map_operator this, w)
        | Some input_message =>
            let function_input := addMessage [] (Some input_message) in
            match MapFunction_execute map_function function_input w with
            | (Return (function_output, _), w') =>
                let '(has_output, op) :=
                  emit_outputs function_output false (map_operator this) in
                (Return has_output, incrementProcessedCount op, w')
            | (Throw e, w') => (Throw e, map_operator this, w')
            | (OutOfFuel, w') => (OutOfFuel, map_operator this, w')
            end
        end
  end.

Record FilterOperator : Type := mkFilterOperator {
  filter_operator : Operator;
  filter_function_ : option (FilterFunction Message World)
}.

Definition FilterOperator_process (this : FilterOperator)
    (input_record : Response) (slot : Z) (w : World) : process_result :=
  match filter_function_ this with
  | None => (Throw (runtime_error NoFilterFunctionSet), filter_operator this, w)
  | Some filter_function =>
      if negb (hasMessage input_record) then (Return false, filter_operator this, w)
      else
        match getMessage input_record with
        | None => (Return false, filter_operator this, w)
        | Some input_message =>
            let op1 := incrementProcessedCount (filter_operator this) in
            let function_input := addMessage [] (Some input_message) in
            match FilterFunction_execute filter_function function_input w with
            | (Return (function_output, _), w') =>
                let '(has_output, op) := emit_outputs function_output false op1 in
                (Return has_output, op, w')
            | (Throw e, w') => (Throw e, op1, w')
            | (OutOfFuel, w') => (OutOfFuel, op1, w')
            end
        end
  end.

Record SinkOperator : Type := mkSinkOperator {
  sink_operator : Operator;
  sink_function_ : option (SinkFunction Message World)
}.

Definition SinkOperator_process (this : SinkOperator)
    (input_record : Response) (slot : Z) (w : World) : process_result :=
  match sink_function_ this with
  | None => (Throw (runtime_error NoSinkFunctionSet), sink_operator this, w)
  | Some sink_function =>
      if negb (hasMessage input_record) then (Return false, sink_operator this, w)
      else
        match getMessage input_record with
        | None => (Return false, sink_operator this, w)
        | Some input_message =>
            let function_input := addMessage [] (Some input_message) in
            match execute (ASinkFunction sink_function) function_input w with
            | (Return _, w') =>
                (Return true, incrementProcessedCount (sink_operator this), w')
            | (Throw e, w') => (Throw e, sink_operator this, w')
            | (OutOfFuel, w') => (OutOfFuel, sink_operator this, w')
            end
        end
  end.

(** [TerminalSinkOperator] holds a plain [std::function]; its constructor
    rejects an empty one. The only handler of [process] is
    [catch (const std::exception&)]: it turns what derives from
    [std::exception] into the result false, and any other thrown value
    leaves [process]. *)
Record TerminalSinkOperator : Type := mkTerminalSinkOperator {
  terminal_operator : Operator;
  terminal_sink_func_ : SinkFunc Message World
}.

Fixpoint terminal_loop (sink_func_ : SinkFunc Message World)
    (messages : list (option Message)) (w : World) : outcome unit * World :=
  match messages with
  | [] => (Return tt, w)
  | None :: rest => terminal_loop sink_func_ rest w
  | Some m :: rest =>
      match sink_func_ m w with
      | (Return _, w') => terminal_loop sink_func_ rest w'
      | (Throw e, w') => (Throw e, w')
      | (OutOfFuel, w') => (OutOfFuel, w')
      end
  end.

Definition TerminalSinkOperator_process (this : TerminalSinkOperator)
    (input_record : Response) (slot : Z) (w : World) : process_result :=
  let op1 := incrementProcessedCount (terminal_operator this) in
  match terminal_loop (terminal_sink_func_ this) (getMessages input_record) w with
  | (Return _, w') => (Return true, incrementOutputCount op1, w')
  | (Throw e, w') =>
      if is_std_exception e then (Return false, op1, w')
      else (Throw e, op1, w')
  | (OutOfFuel, w') => (OutOfFuel, op1, w')
  end.

(** The three operators that delegate to a [Function], behind one
    interface. *)
Inductive composed_operator : Type :=
| AMapOperator (this : MapOperator)
| AFilterOperator (this : FilterOperator)
| ASinkOperator (this : SinkOperator).

Definition base_part (o : composed_operator) : Operator :=
  match o with
  | AMapOperator this => map_operator this
  | AFilterOperator this => filter_operator this
  | ASinkOperator this => sink_operator this
  end.

(** The function slot is empty (a null [std::unique_ptr]). *)
Definition function_is_null (o : composed_operator) : bool :=
  match o with
  | AMapOperator this => bool_decide (map_function_ this = None)
  | AFilterOperator this => bool_decide (filter_function_ this = None)
  | ASinkOperator this => bool_decide (sink_function_ this = None)
  end.

(** The virtual call [op.process(input_record, slot)]. *)
Definition process (o : composed_operator) : Response → Z → World → process_result :=
  match o with
  | AMapOperator this => MapOperator_process this
  | AFilterOperator this => FilterOperator_process this
  | ASinkOperator this => SinkOperator_process this
  end.

(** Every operator class above, behind the virtual call
    [op.process(input_record, slot)]: the three that delegate to a
    [Function], and the terminal sink. *)
Inductive operator_object : Type :=
| Composed (o : composed_operator)
| ATerminalSinkOperator (this : TerminalSinkOperator).

Definition object_base (o : operator_object) : Operator :=
  match o with
  | Composed o => base_part o
  | ATerminalSinkOperator this => terminal_operator this
  end.

Definition virtual_process (o : operator_object)
    : Response → Z → World → process_result :=
  match o with
  | Composed o => process o
  | ATerminalSinkOperator this => TerminalSinkOperator_process this
  end.

(** The messages a call put on the outgoing edges, oldest first: the queue
    after the call is the queue before it, followed by them. *)
Definition emitted_during (before after : Operator)
    (new : list (Z * Message)) : Prop :=
  emitted_ after = emitted_ before ++ new.

End operators.

Arguments Response : clear implicits.
Arguments Operator : clear implicits.
Arguments process_result : clear implicits.
Arguments MapOperator : clear implicits.
Arguments FilterOperator : clear implicits.
Arguments SinkOperator : clear implicits.
Arguments TerminalSinkOperator : clear implicits.
Arguments composed_operator : clear implicits.
Arguments operator_object : clear implicits.

(** The error each operator throws when its function slot is empty. *)
Definition no_function_error {Message World : Type}
    (o : composed_operator Message World) : what_arg :=
  match o with
  | AMapOperator _ => NoMapFunctionSet
  | AFilterOperator _ => NoFilterFunctionSet
  | ASinkOperator _ => NoSinkFunctionSet
  end.

(** Operators and records on messages that are numbers, in a world without
    state. *)
Definition new_operator : Operator nat :=
  {| processed_count_ := 0; output_count_ := 0; emitted_ := [] |}.

(** [MapOperator(std::string name)]: the function slot is left null. *)
Definition map_without_function : composed_operator nat unit :=
  AMapOperator {| map_operator := new_operator; map_function_ := None |}.

Definition doubling_operator : composed_operator nat unit :=
  AMapOperator {| map_operator := new_operator; map_function_ := Some doubling_map |}.

(** A sink whose function keeps [SinkFunction::execute] and has no callback. *)
Definition plain_sink : composed_operator nat unit :=
  ASinkOperator
    {| sink_operator := new_operator;
       sink_function_ :=
         Some {| sink_base := mkBase "sink" Sink; sink_func_ := None;
                 sink_override := None |} |}.

Definition terminal_sink : TerminalSinkOperator nat unit :=
  {| terminal_operator := new_operator;
     terminal_sink_func_ := λ _ w, (Return tt, w) |}.

(** A record that carries the message 7. *)
Definition record_7 : Response nat :=
  {| hasMessage := true; getMessage := Some 7%nat; getMessages := [Some 7%nat] |}.

(** A filter function whose predicate accepts every message, and an operator
    that holds it. *)
Definition accept_all : FilterFunction nat unit :=
  {| filter_base := mkBase "all" Filter;
     filter_func_ := Some (λ _ w, (Return true, w)) |}.

Definition accepting_filter : FilterOperator nat unit :=
  {| filter_operator := new_operator; filter_function_ := Some accept_all |}.

Definition doubling_map_operator : MapOperator nat unit :=
  {| map_operator := new_operator; map_function_ := Some doubling_map |}.

End Operator.

(** ** DataStream (api/datastream.h, api/datastream.cpp) *)

Module DataStream.

Import Graph Engine.

(** [static_cast<ExecutionGraph::OperatorId>(-1)], the value of
    [last_operator_id_] that stands for "no operator yet". *)
Definition no_operator : N := SIZE_MAX_plus_1 - 1.

(** A [DataStream] holds shared pointers to its engine and to its graph.
    The graph lives in the store, at the address [graph_]; there is one
    engine, which the calls receive and return. *)
Record DataStream : Type := mkStream {
  graph_ : nat;
  last_operator_id_ : N;
  graph_id_ : option N;
  is_finalized_ : bool
}.

(** [DataStream(engine, graph)] with the default [last_operator_id]. *)
Definition new_stream (graph : nat) : DataStream :=
  {| graph_ := graph; last_operator_id_ := no_operator;
     graph_id_ := None; is_finalized_ := false |}.

(** A write through the graph pointer. *)
Definition store_set (h : store) (p : nat) (g : ExecutionGraph) : store :=
  λ q, if decide (q = p) then g else h q.

(** What a call of the builder can throw: an exception of the engine, or one
    of the builder's own runtime errors. *)
Inductive failure : Type :=
| EngineError (e : exception)
| InvalidDAG      (* "Invalid DAG: Graph contains cycles or invalid connections" *)
| FuelExhausted.

Inductive result (A : Type) : Type :=
| Done (a : A)
| Failed (f : failure).

Arguments Done {A} a.
Arguments Failed {A} f.

Definition set_last (id : N) (ds : DataStream) : DataStream :=
  {| graph_ := graph_ ds; last_operator_id_ := id;
     graph_id_ := graph_id_ ds; is_finalized_ := is_finalized_ ds |}.

Definition set_finalized (ds : DataStream) : DataStream :=
  {| graph_ := graph_ ds; last_operator_id_ := last_operator_id_ ds;
     graph_id_ := graph_id_ ds; is_finalized_ := true |}.

Definition set_graph_id (id : N) (ds : DataStream) : DataStream :=
  {| graph_ := graph_ ds; last_operator_id_ := last_operator_id_ ds;
     graph_id_ := Some id; is_finalized_ := is_finalized_ ds |}.

Definition connectToLastOperator (ds : DataStream) (new_operator_id : N)
    (h : store) : store :=
  if decide (last_operator_id_ ds ≠ no_operator) then
    store_set h (graph_ ds)
      (connectOperators (h (graph_ ds)) (last_operator_id_ ds) new_operator_id)
  else h.

(** [from_source]: the operator object the call builds is opaque to the
    graph; [op] is its handle. *)
Definition from_source (op : nat) (ds : DataStream) (h : store)
    : DataStream * store :=
  let '(op_id, g) := addOperator (h (graph_ ds)) (Some op) in
  (set_last op_id ds, store_set h (graph_ ds) g).

(** [map] and [filter] differ only in the operator object they build. *)
Definition append_operator (op : nat) (ds : DataStream) (h : store)
    : DataStream * store :=
  let '(op_id, g) := addOperator (h (graph_ ds)) (Some op) in
  let h1 := store_set h (graph_ ds) g in
  (set_last op_id ds, connectToLastOperator ds op_id h1).

Definition map (op : nat) : DataStream → store → DataStream * store :=
  append_operator op.

Definition filter (op : nat) : DataStream → store → DataStream * store :=
  append_operator op.

Section stream.

Variable iteration : gmap N OperatorPtr → list N.

Definition finalizeGraph (ds : DataStream) (h : store) : result DataStream :=
  if is_finalized_ ds then Done ds
  else
    match validate iteration (h (graph_ ds)) with
    | Return true => Done (set_finalized ds)
    | Return false => Failed InvalidDAG
    | Throw e => Failed (EngineError e)
    | OutOfFuel => Failed FuelExhausted
    end.

(** [sink] does not update [last_operator_id_]. When [finalizeGraph]
    throws, the operator stays in the graph and the stream is as before. *)
Definition sink (op : nat) (ds : DataStream) (h : store)
    : result DataStream * store :=
  let '(sink_id, g) := addOperator (h (graph_ ds)) (Some op) in
  let h1 := store_set h (graph_ ds) g in
  let h2 := connectToLastOperator ds sink_id h1 in
  (finalizeGraph ds h2, h2).

(** [execute] returns the stream and the engine as the call leaves them,
    also when it throws. *)
Definition execute (ds : DataStream) (h : store) (e : StreamEngine)
    : result unit * DataStream * StreamEngine :=
  match finalizeGraph ds h with
  | Failed f => (Failed f, ds, e)
  | Done ds1 =>
      let submitted :=
        match graph_id_ ds1 with
        | Some id => (Return id, e)
        | None => submitGraph iteration h (Some (graph_ ds1)) e
        end in
      match submitted with
      | (Return id, e1) =>
          let ds2 := set_graph_id id ds1 in
          match executeGraph iteration h id e1 with
          | (Return _, e2) => (Done tt, ds2, e2)
          | (Throw x, e2) => (Failed (EngineError x), ds2, e2)
          | (OutOfFuel, e2) => (Failed FuelExhausted, ds2, e2)
          end
      | (Throw x, e1) => (Failed (EngineError x), ds1, e1)
      | (OutOfFuel, e1) => (Failed FuelExhausted, ds1, e1)
      end
  end.

Definition executeAsync (ds : DataStream) (h : store) (e : StreamEngine)
    : result unit * DataStream * StreamEngine :=
  match finalizeGraph ds h with
  | Failed f => (Failed f, ds, e)
  | Done ds1 =>
      let submitted :=
        match graph_id_ ds1 with
        | Some id => (Return id, e)
        | None => submitGraph iteration h (Some (graph_ ds1)) e
        end in
      match submitted with
      | (Return id, e1) =>
          let ds2 := set_graph_id id ds1 in
          match executeGraphAsync id e1 with
          | (Return _, e2) => (Done tt, ds2, e2)
          | (Throw x, e2) => (Failed (EngineError x), ds2, e2)
          | (OutOfFuel, e2) => (Failed FuelExhausted, ds2, e2)
          end
      | (Throw x, e1) => (Failed (EngineError x), ds1, e1)
      | (OutOfFuel, e1) => (Failed FuelExhausted, ds1, e1)
      end
  end.

End stream.

Definition stop (ds : DataStream) (e : StreamEngine) : StreamEngine :=
  match graph_id_ ds with
  | Some id => stopGraph id e
  | None => e
  end.

Definition getOperatorCount (ds : DataStream) (h : store) : nat :=
  Graph.getOperatorCount (h (graph_ ds)).

(** *** Chains of builder calls *)

Inductive stage : Type :=
| FromSource (op : nat)
| Map (op : nat)
| Filter (op : nat).

Definition run_stage (s : DataStream * store) (c : stage) : DataStream * store :=
  match c with
  | FromSource op => from_source op s.1 s.2
  | Map op => map op s.1 s.2
  | Filter op => filter op s.1 s.2
  end.

Definition run_stages (s : DataStream * store) (cs : list stage)
    : DataStream * store :=
  foldl run_stage s cs.

(** What the builder keeps true of its graph: identifiers are handed out in
    sequence and none is removed, every edge goes from a registered operator
    to a registered operator with a larger identifier, and the last operator
    is unset or registered. *)
Record chained (count : nat) (ds : DataStream) (g : ExecutionGraph) : Prop := mkChained {
  chained_next : next_operator_id_ g = N.of_nat count;
  chained_registered : ∀ id, is_Some (operators_ g !! id) ↔ id < N.of_nat count;
  chained_edges : ∀ a b, edge g a b → a < b ∧ b < N.of_nat count;
  chained_last : last_operator_id_ ds = no_operator
                 ∨ last_operator_id_ ds < N.of_nat count
}.

(** A store whose only graph of interest, at address 0, is new. *)
Definition fresh_store : store := λ _, empty_graph.

(** [from_source(...).map(...).filter(...)] on a new stream. *)
Definition three_stages : list stage :=
  [FromSource 0%nat; Map 1%nat; Filter 2%nat].

End DataStream.

(** * Properties *)

#[local] Set Warnings "-clear-no-such-hyp".

(** ** The depth-first traversal *)

Module GraphFacts.

Import Graph.

Lemma flag_insert (m : gmap N bool) (k k' : N) (v : bool) :
  flag (<[k := v]> m) k' = if decide (k = k') then v else flag m k'.
Proof.
  unfold flag. rewrite lookup_insert. by case_decide.
Qed.

Lemma flag_init_flags (ids : list N) (k : N) : flag (init_flags ids) k = false.
Proof.
  unfold init_flags.
  assert (H : ∀ m : gmap N bool, flag m k = false →
              flag (foldl (λ m id, <[id := false]> m) m ids) k = false).
  { induction ids as [|id ids IH]; intros m Hm; simpl; [done|].
    apply IH. rewrite flag_insert. by case_decide. }
  apply H. done.
Qed.

(** One unfolding of the recursion, with the missing-key case folded into
    an empty successor list. *)
Lemma topologicalSortUtil_step (fuel : nat) (g : ExecutionGraph) (id : N) (st : dfs_state) :
  topologicalSortUtil (S fuel) g id st =
  (do (cycle, st2) <- visit_successors (topologicalSortUtil fuel g)
                        (getSuccessors g id) (enter id st);
   if cycle then Return (true, st2) else Return (false, finish id st2)).
Proof.
  simpl. unfold getSuccessors. by destruct (adjacency_list_ g !! id).
Qed.

Lemma elem_of_graph_nodes_successor (g : ExecutionGraph) (a b : N) :
  b ∈ getSuccessors g a → b ∈ graph_nodes g.
Proof.
  unfold getSuccessors, graph_nodes. intros Hb.
  destruct (adjacency_list_ g !! a) as [v|] eqn:Ha; [|by apply elem_of_nil in Hb].
  apply elem_of_union_r, elem_of_union_list.
  exists (list_to_set v). split; [|by apply elem_of_list_to_set].
  apply list_elem_of_fmap. exists (a, v). split; [done|].
  by apply elem_of_map_to_list.
Qed.

Lemma elem_of_graph_nodes_operator (g : ExecutionGraph) (a : N) :
  is_Some (operators_ g !! a) → a ∈ graph_nodes g.
Proof.
  intros Ha. unfold graph_nodes.
  apply elem_of_union_l, elem_of_union_l. by apply elem_of_dom.
Qed.

Section traversal_of_a_graph.

Local Open Scope nat_scope.

Variable g : ExecutionGraph.

Lemma visited_grows_refl (st : dfs_state) : visited_grows st st.
Proof. by intros k. Qed.

Lemma visited_grows_trans (st1 st2 st3 : dfs_state) :
  visited_grows st1 st2 → visited_grows st2 st3 → visited_grows st1 st3.
Proof. intros H12 H23 k Hk. by apply H23, H12. Qed.

Lemma visited_grows_enter (id : N) (st : dfs_state) :
  visited_grows st (enter id st).
Proof.
  intros k Hk. simpl. rewrite flag_insert. by case_decide.
Qed.

Lemma unvisited_grows (st st' : dfs_state) :
  visited_grows st st' →
  base.size (unvisited g st') ≤ base.size (unvisited g st).
Proof.
  intros Hgrow. apply subseteq_size. intros k.
  unfold unvisited. rewrite !elem_of_filter. intros [Hk Hin]. split; [|done].
  destruct (flag (visited st) k) eqn:E; [|done].
  apply Hgrow in E. congruence.
Qed.

Lemma unvisited_enter (id : N) (st : dfs_state) :
  id ∈ graph_nodes g → flag (visited st) id = false →
  base.size (unvisited g (enter id st)) < base.size (unvisited g st).
Proof.
  intros Hin Hid. apply subset_size. split.
  - intros k. unfold unvisited. rewrite !elem_of_filter. simpl.
    rewrite flag_insert. destruct (decide (id = k)); naive_solver.
  - intros Hsub. specialize (Hsub id).
    unfold unvisited in Hsub. rewrite !elem_of_filter in Hsub. simpl in Hsub.
    rewrite flag_insert in Hsub. destruct (decide (id = id)); naive_solver.
Qed.

(** The loop over the successors returns when every recursive call it can
    make does. *)
Lemma visit_successors_returns (fuel : nat)
    (rec : N → dfs_state → outcome (bool * dfs_state)) :
  (∀ id st, id ∈ graph_nodes g → flag (visited st) id = false →
     base.size (unvisited g st) ≤ fuel →
     ∃ c st', rec id st = Return (c, st') ∧ visited_grows st st') →
  ∀ successors st,
    (∀ s, s ∈ successors → s ∈ graph_nodes g) →
    base.size (unvisited g st) ≤ fuel →
    ∃ c st', visit_successors rec successors st = Return (c, st')
             ∧ visited_grows st st'.
Proof.
  intros Hrec successors.
  induction successors as [|s rest IH]; intros st Hin Hsize; simpl.
  - exists false, st. split; [done|apply visited_grows_refl].
  - destruct (flag (visited st) s) eqn:Hs; simpl.
    + destruct (flag (rec_stack st) s).
      * exists true, st. split; [done|apply visited_grows_refl].
      * apply IH; [|done]. intros s' Hs'. apply Hin. by right.
    + destruct (Hrec s st) as (c & st1 & -> & Hgrow); [apply Hin; by left|done..|].
      simpl. destruct c.
      * by exists true, st1.
      * destruct (IH st1) as (c' & st' & -> & Hgrow').
        { intros s' Hs'. apply Hin. by right. }
        { pose proof (unvisited_grows _ _ Hgrow). lia. }
        exists c', st'. split; [done|]. by eapply visited_grows_trans.
Qed.

(** The recursion returns whenever the fuel covers the nodes not yet
    entered: each nested call enters a new one. *)
Lemma topologicalSortUtil_returns (fuel : nat) :
  ∀ id st, id ∈ graph_nodes g → flag (visited st) id = false →
    base.size (unvisited g st) ≤ fuel →
    ∃ c st', topologicalSortUtil fuel g id st = Return (c, st')
             ∧ visited_grows st st'.
Proof.
  induction fuel as [|fuel IH]; intros id st Hin Hid Hsize.
  - assert (id ∈ unvisited g st) as Hmem.
    { unfold unvisited. by apply elem_of_filter. }
    assert (base.size (unvisited g st) ≠ 0) as Hne.
    { apply size_non_empty_iff. intros Hempty. by rewrite Hempty in Hmem. }
    lia.
  - rewrite topologicalSortUtil_step.
    pose proof (unvisited_enter id st Hin Hid) as Hlt.
    destruct (visit_successors_returns fuel (topologicalSortUtil fuel g) IH
                (getSuccessors g id) (enter id st)) as (c & st2 & -> & Hgrow).
    { intros s Hs. by eapply elem_of_graph_nodes_successor. }
    { lia. }
    simpl. destruct c.
    + exists true, st2. split; [done|].
      eapply visited_grows_trans; [apply visited_grows_enter|done].
    + exists false, (finish id st2). split; [done|].
      eapply visited_grows_trans; [apply visited_grows_enter|done].
Qed.

(** The marks never depend on the output vector. *)
Lemma same_marks_refl (st : dfs_state) : same_marks st st.
Proof. by split. Qed.

Lemma visit_successors_marks (rec : N → dfs_state → outcome (bool * dfs_state)) :
  (∀ id st1 st2, same_marks st1 st2 → same_result (rec id st1) (rec id st2)) →
  ∀ successors st1 st2, same_marks st1 st2 →
    same_result (visit_successors rec successors st1)
                (visit_successors rec successors st2).
Proof.
  intros Hrec successors.
  induction successors as [|s rest IH]; intros st1 st2 Hm; simpl; [done|].
  pose proof Hm as [Hv Hr]. rewrite <- Hv, <- Hr.
  destruct (flag (visited st1) s); simpl.
  - destruct (flag (rec_stack st1) s); [done|by apply IH].
  - specialize (Hrec s st1 st2 Hm).
    destruct (rec s st1) as [[c1 st1']| |], (rec s st2) as [[c2 st2']| |];
      simpl in *; try done.
    destruct Hrec as [-> Hm']. destruct c2; [done|by apply IH].
Qed.

Lemma topologicalSortUtil_marks (fuel : nat) :
  ∀ id st1 st2, same_marks st1 st2 →
    same_result (topologicalSortUtil fuel g id st1)
                (topologicalSortUtil fuel g id st2).
Proof.
  induction fuel as [|fuel IH]; intros id st1 st2 Hm; [done|].
  rewrite !topologicalSortUtil_step.
  assert (same_marks (enter id st1) (enter id st2)) as Hm1.
  { destruct Hm as [Hv Hr]. split; simpl; congruence. }
  pose proof (visit_successors_marks _ IH (getSuccessors g id) _ _ Hm1) as Hsame.
  destruct (visit_successors _ _ (enter id st1)) as [[c1 st1']| |],
           (visit_successors _ _ (enter id st2)) as [[c2 st2']| |];
    simpl in *; try done.
  destruct Hsame as [-> [Hv Hr]]. destruct c2; simpl; [done|].
  split; [done|]. split; simpl; congruence.
Qed.

Section invariant.

Variable P : N → Prop.

Hypothesis P_closed : ∀ a b, P a → b ∈ getSuccessors g a → P b.

Lemma dfs_inv_topo_grows (st st' : dfs_state) (k : N) :
  dfs_inv g P st → dfs_post g P st st' →
  k ∈ topo_order st → k ∈ topo_order st'.
Proof.
  intros Hinv [Hinv' Hgrow Hstack] Hk.
  apply (inv_done _ _ _ Hinv) in Hk as [Hv Hr].
  apply (inv_done _ _ _ Hinv'). split; [by apply Hgrow|].
  by rewrite Hstack.
Qed.

Lemma dfs_post_refl (st : dfs_state) : dfs_inv g P st → dfs_post g P st st.
Proof. intros Hinv. split; [done|apply visited_grows_refl|done]. Qed.

Lemma dfs_post_trans (st1 st2 st3 : dfs_state) :
  dfs_post g P st1 st2 → dfs_post g P st2 st3 → dfs_post g P st1 st3.
Proof.
  intros [_ Hg12 Hs12] [Hinv Hg23 Hs23]. split; [done| |].
  - by eapply visited_grows_trans.
  - intros k. by rewrite Hs23.
Qed.

Lemma dfs_inv_enter (id : N) (st : dfs_state) :
  dfs_inv g P st → flag (visited st) id = false → P id →
  dfs_inv g P (enter id st).
Proof.
  intros [Hnd Hdone Hpost Hstack Hwithin] Hid HP.
  split; simpl; [done| |done| |].
  - intros k. rewrite Hdone, !flag_insert.
    destruct (decide (id = k)) as [->|]; [|done].
    rewrite Hid. naive_solver.
  - intros k. rewrite !flag_insert. destruct (decide (id = k)); [done|apply Hstack].
  - intros k. rewrite flag_insert.
    destruct (decide (id = k)) as [->|]; [done|apply Hwithin].
Qed.

Lemma app_singleton_split (l l1 l2 : list N) (x a : N) :
  l ++ [x] = l1 ++ a :: l2 →
  (l1 = l ∧ a = x ∧ l2 = []) ∨ (∃ l2', l2 = l2' ++ [x] ∧ l = l1 ++ a :: l2').
Proof.
  intros Heq.
  destruct l2 as [|y l2 _] using rev_ind.
  - left. apply app_inj_tail in Heq. naive_solver.
  - right. exists l2.
    replace (l1 ++ a :: l2 ++ [y]) with ((l1 ++ a :: l2) ++ [y]) in Heq
      by (by rewrite <- app_assoc).
    apply app_inj_tail in Heq. naive_solver.
Qed.

Lemma dfs_inv_finish (id : N) (st : dfs_state) :
  dfs_inv g P st →
  flag (visited st) id = true → flag (rec_stack st) id = true →
  (∀ b, b ∈ getSuccessors g id → b ∈ topo_order st) →
  dfs_inv g P (finish id st).
Proof.
  intros [Hnd Hdone Hpost Hstack Hwithin] Hv Hr Hsucc.
  assert (id ∉ topo_order st) as Hnotin.
  { rewrite Hdone. rewrite Hr. naive_solver. }
  split; simpl; [| | | |done].
  - apply NoDup_app. split; [done|]. split; [|apply NoDup_singleton].
    intros x Hx Hx'. apply list_elem_of_singleton in Hx'. by subst.
  - intros k. rewrite elem_of_app, list_elem_of_singleton, Hdone, flag_insert.
    destruct (decide (id = k)) as [->|]; naive_solver.
  - intros l1 a l2 Heq b Hb.
    apply app_singleton_split in Heq as [(-> & -> & ->)|(l2' & -> & Heq)].
    + by apply Hsucc.
    + by eapply Hpost.
  - intros k. rewrite flag_insert. destruct (decide (id = k)); [done|apply Hstack].
Qed.

(** The loop over the successors keeps the invariant and leaves every
    successor in the output vector. *)
Lemma visit_successors_inv (rec : N → dfs_state → outcome (bool * dfs_state)) :
  (∀ id st st', dfs_inv g P st → flag (visited st) id = false → P id →
     rec id st = Return (false, st') →
     dfs_post g P st st' ∧ id ∈ topo_order st') →
  ∀ successors st st',
    dfs_inv g P st → (∀ s, s ∈ successors → P s) →
    visit_successors rec successors st = Return (false, st') →
    dfs_post g P st st' ∧ ∀ s, s ∈ successors → s ∈ topo_order st'.
Proof.
  intros Hrec successors.
  induction successors as [|s rest IH]; intros st st' Hinv HP Hrun; simpl in Hrun.
  - simplify_eq. split; [by apply dfs_post_refl|]. by intros s Hs%elem_of_nil.
  - assert (∀ s', s' ∈ rest → P s') as HPrest by (intros; apply HP; by right).
    destruct (flag (visited st) s) eqn:Hs; simpl in Hrun.
    + destruct (flag (rec_stack st) s) eqn:Hr; [done|].
      destruct (IH _ _ Hinv HPrest Hrun) as [Hpost Hall]. split; [done|].
      intros s' [->|Hs']%elem_of_cons; [|by apply Hall].
      eapply dfs_inv_topo_grows; [done..|]. by apply (inv_done _ _ _ Hinv).
    + destruct (rec s st) as [[c st1]| |] eqn:Hcall; simpl in Hrun; try done.
      destruct c; [done|].
      destruct (Hrec s st st1) as [Hpost1 Hin1]; [done|done|apply HP; by left|done|].
      destruct (IH _ _ (post_inv _ _ _ _ Hpost1) HPrest Hrun) as [Hpost Hall].
      split; [by eapply dfs_post_trans|].
      intros s' [->|Hs']%elem_of_cons; [|by apply Hall].
      eapply dfs_inv_topo_grows; [apply (post_inv _ _ _ _ Hpost1)|done..].
Qed.

(** A call that finds no cycle keeps the invariant, restores the recursion
    stack and appends its node to the output vector. *)
Lemma topologicalSortUtil_inv (fuel : nat) :
  ∀ id st st', dfs_inv g P st → flag (visited st) id = false → P id →
    topologicalSortUtil fuel g id st = Return (false, st') →
    dfs_post g P st st' ∧ id ∈ topo_order st'.
Proof.
  induction fuel as [|fuel IH]; intros id st st' Hinv Hid HP Hrun; [done|].
  rewrite topologicalSortUtil_step in Hrun.
  destruct (visit_successors _ _ (enter id st)) as [[c st2]| |] eqn:Hloop;
    simpl in Hrun; try done.
  destruct c; [done|]. simplify_eq.
  destruct (visit_successors_inv _ IH _ _ _ (dfs_inv_enter id st Hinv Hid HP)
              (λ s Hs, P_closed id s HP Hs) Hloop) as [[Hinv2 Hgrow2 Hstack2] Hall].
  assert (flag (visited st2) id = true) as Hv2.
  { apply Hgrow2. simpl. rewrite flag_insert. by rewrite decide_True. }
  assert (flag (rec_stack st2) id = true) as Hr2.
  { rewrite Hstack2. simpl. rewrite flag_insert. by rewrite decide_True. }
  split; [split|].
  - by apply dfs_inv_finish.
  - intros k Hk. simpl. apply Hgrow2. by apply visited_grows_enter.
  - intros k. simpl. rewrite flag_insert.
    destruct (decide (id = k)) as [<-|Hne].
    + destruct (flag (rec_stack st) id) eqn:E; [|done].
      apply (inv_stack _ _ _ Hinv) in E. congruence.
    + rewrite Hstack2. simpl. rewrite flag_insert. by rewrite decide_False.
  - simpl. apply elem_of_app. right. by apply list_elem_of_singleton.
Qed.

(** The loop over the roots, started with an empty recursion stack, leaves
    every root in the output vector. *)
Lemma sort_roots_inv (fuel : nat) :
  ∀ roots st st',
    dfs_inv g P st → (∀ r, r ∈ roots → P r) →
    (∀ k, flag (rec_stack st) k = false) →
    sort_roots (topologicalSortUtil fuel g) roots st = Return (false, st') →
    dfs_post g P st st' ∧ ∀ r, r ∈ roots → r ∈ topo_order st'.
Proof.
  intros roots.
  induction roots as [|r rest IH]; intros st st' Hinv HP Hempty Hrun; simpl in Hrun.
  - simplify_eq. split; [by apply dfs_post_refl|]. by intros s Hs%elem_of_nil.
  - assert (∀ r', r' ∈ rest → P r') as HPrest by (intros; apply HP; by right).
    destruct (flag (visited st) r) eqn:Hr; simpl in Hrun.
    + destruct (IH _ _ Hinv HPrest Hempty Hrun) as [Hpost Hall]. split; [done|].
      intros r' [->|Hr']%elem_of_cons; [|by apply Hall].
      eapply dfs_inv_topo_grows; [done..|]. by apply (inv_done _ _ _ Hinv).
    + destruct (topologicalSortUtil fuel g r st) as [[c st1]| |] eqn:Hcall;
        simpl in Hrun; try done.
      destruct c; [done|].
      destruct (topologicalSortUtil_inv fuel r st st1) as [Hpost1 Hin1];
        [done|done|apply HP; by left|done|].
      destruct (IH st1 st') as [Hpost Hall];
        [apply (post_inv _ _ _ _ Hpost1)|done| |done|].
      { intros k. by rewrite (post_stack _ _ _ _ Hpost1). }
      split; [by eapply dfs_post_trans|].
      intros r' [->|Hr']%elem_of_cons; [|by apply Hall].
      eapply dfs_inv_topo_grows; [apply (post_inv _ _ _ _ Hpost1)|done..].
Qed.

End invariant.

Lemma dfs_inv_initial (P : N → Prop) (ids : list N) :
  dfs_inv g P (mkDfs (init_flags ids) (init_flags ids) []).
Proof.
  split; simpl.
  - apply NoDup_nil_2.
  - intros k. rewrite flag_init_flags. split; [by intros ?%elem_of_nil|naive_solver].
  - intros l1 a l2 Heq. by destruct l1.
  - intros k. by rewrite flag_init_flags.
  - intros k. by rewrite flag_init_flags.
Qed.

Lemma unvisited_fuel (st : dfs_state) : base.size (unvisited g st) ≤ dfs_fuel g.
Proof.
  unfold dfs_fuel, unvisited. apply subseteq_size.
  intros k. rewrite elem_of_filter. tauto.
Qed.

Lemma sort_roots_returns :
  ∀ roots st, (∀ r, r ∈ roots → r ∈ graph_nodes g) →
    ∃ c st', sort_roots (topologicalSortUtil (dfs_fuel g) g) roots st = Return (c, st').
Proof.
  intros roots.
  induction roots as [|r rest IH]; intros st Hin; simpl; [by eauto|].
  assert (∀ r', r' ∈ rest → r' ∈ graph_nodes g) as Hrest by (intros; apply Hin; by right).
  destruct (flag (visited st) r) eqn:Hr; simpl; [by apply IH|].
  destruct (topologicalSortUtil_returns (dfs_fuel g) r st) as (c & st1 & -> & _);
    [apply Hin; by left|done|apply unvisited_fuel|].
  simpl. destruct c; [by eauto|by apply IH].
Qed.

(** [detectCycles] and [getTopologicalOrder] run the same traversal: the
    fresh [dummy] vector of the former changes nothing but the output. *)
Lemma detect_roots_sort_roots (fuel : nat) :
  ∀ roots st,
    detect_roots (topologicalSortUtil fuel g) roots (visited st) (rec_stack st) =
    (do (cycle, _) <- sort_roots (topologicalSortUtil fuel g) roots st; Return cycle).
Proof.
  intros roots.
  induction roots as [|r rest IH]; intros st; simpl; [done|].
  destruct (flag (visited st) r); simpl; [apply IH|].
  pose proof (topologicalSortUtil_marks fuel r
                (mkDfs (visited st) (rec_stack st) []) st (same_marks_refl _)) as Hsame.
  destruct (topologicalSortUtil fuel g r (mkDfs _ _ [])) as [[c1 st1]| |],
           (topologicalSortUtil fuel g r st) as [[c2 st2]| |];
    simpl in *; try done; [|by simplify_eq].
  destruct Hsame as [-> [-> ->]]. destruct c2; [done|apply IH].
Qed.

End traversal_of_a_graph.

Section iteration_order.

Variable iteration : gmap N OperatorPtr → list N.

Hypothesis iteration_keys : iterates_keys iteration.

Lemma elem_of_iteration (g : ExecutionGraph) (k : N) :
  k ∈ iteration (operators_ g) ↔ is_Some (operators_ g !! k).
Proof.
  rewrite (iteration_keys (operators_ g)), list_elem_of_fmap. split.
  - intros [[k' op] [-> Hin]]. apply elem_of_map_to_list in Hin. by exists op.
  - intros [op Hop]. exists (k, op). split; [done|]. by apply elem_of_map_to_list.
Qed.

Lemma iteration_nil (g : ExecutionGraph) :
  iteration (operators_ g) = [] ↔ operators_ g = ∅.
Proof.
  split.
  - intros Hnil. apply map_empty. intros k.
    destruct (operators_ g !! k) eqn:E; [|done].
    assert (k ∈ iteration (operators_ g)) as Hin by (by apply elem_of_iteration).
    rewrite Hnil in Hin. by apply elem_of_nil in Hin.
  - intros Hempty. apply Permutation_nil_r.
    rewrite (iteration_keys (operators_ g)), Hempty. by rewrite map_to_list_empty.
Qed.

(** Both top-level functions return, and they agree on whether there is a
    cycle. *)
Lemma traversal_outcome (g : ExecutionGraph) :
  ∃ c st,
    sort_roots (topologicalSortUtil (dfs_fuel g) g) (iteration (operators_ g))
      (mkDfs (init_flags (iteration (operators_ g)))
             (init_flags (iteration (operators_ g))) []) = Return (c, st)
    ∧ detectCycles iteration g = Return c
    ∧ getTopologicalOrder iteration g
      = Return (if c then [] else reverse (topo_order st)).
Proof.
  destruct (sort_roots_returns g (iteration (operators_ g))
              (mkDfs (init_flags (iteration (operators_ g)))
                     (init_flags (iteration (operators_ g))) []))
    as (c & st & Hrun).
  { intros r Hr. by apply elem_of_graph_nodes_operator, elem_of_iteration. }
  exists c, st. split; [done|]. split.
  - unfold detectCycles.
    pose proof (detect_roots_sort_roots g (dfs_fuel g) (iteration (operators_ g))
                  (mkDfs (init_flags (iteration (operators_ g)))
                         (init_flags (iteration (operators_ g))) [])) as Hd.
    simpl in Hd. rewrite Hd, Hrun. done.
  - unfold getTopologicalOrder. simpl. rewrite Hrun. simpl. by destruct c.
Qed.

End iteration_order.

(** C4. For every graph, [validate()] and [getTopologicalOrder()] both
    return, and [validate()] is true exactly when the topological order is
    non-empty or the graph has no operators: the cycle detection behind
    [validate] agrees with the non-emptiness criterion. *)
Theorem validate_iff_order_nonempty
    (iteration : gmap N OperatorPtr → list N) (g : ExecutionGraph) :
  iterates_keys iteration →
  ∃ b order,
    validate iteration g = Return b
    ∧ getTopologicalOrder iteration g = Return order
    ∧ (b = true ↔ order ≠ [] ∨ operators_ g = ∅).
Proof.
  intros Hiter.
  destruct (traversal_outcome iteration Hiter g) as (c & st & Hrun & Hdet & Hord).
  exists (negb c), (if c then [] else reverse (topo_order st)).
  split; [unfold validate, isValid; by rewrite Hdet|]. split; [done|].
  destruct c; simpl.
  - split; [done|]. intros [?|Hempty]; [done|].
    apply (iteration_nil iteration Hiter) in Hempty. rewrite Hempty in Hrun.
    simpl in Hrun. by simplify_eq.
  - split; [|done]. intros _.
    destruct (iteration (operators_ g)) as [|r rest] eqn:Hids.
    + right. by apply (iteration_nil iteration Hiter).
    + left.
      destruct (sort_roots_inv g (λ _, True) (λ _ _ _ _, I) (dfs_fuel g)
                  (r :: rest) _ st (dfs_inv_initial g _ (r :: rest)))
        as [_ Hall]; [done|intros k; apply flag_init_flags|done|].
      intros Hnil. apply (f_equal reverse) in Hnil.
      rewrite reverse_involutive in Hnil.
      specialize (Hall r (list_elem_of_here _ _)). rewrite Hnil in Hall.
      by apply elem_of_nil in Hall.
Qed.

Lemma edges_registered_successor (g : ExecutionGraph) (a b : N) :
  edges_registered g → b ∈ getSuccessors g a →
  is_Some (operators_ g !! a) ∧ is_Some (operators_ g !! b).
Proof.
  intros Hreg Hb. unfold getSuccessors in Hb.
  destruct (adjacency_list_ g !! a) as [v|] eqn:Ha; [|by apply elem_of_nil in Hb].
  specialize (Hreg a v Ha). simpl in Hreg.
  rewrite Forall_forall in Hreg. by apply Hreg.
Qed.

Lemma precedes_reverse (l1 l2 l3 : list N) (a b : N) :
  precedes (reverse (l1 ++ b :: l2 ++ a :: l3)) a b.
Proof.
  exists (reverse l3), (reverse l2), (reverse l1).
  rewrite reverse_app, reverse_cons, reverse_app, reverse_cons.
  by rewrite <- !app_assoc.
Qed.

(** C5, as amended. On a graph whose forward edges all join registered
    operators and on which [validate()] is true, [getTopologicalOrder()]
    returns a permutation of the registered operator identifiers in which,
    for every forward edge (a, b), a comes before b. *)
Theorem topological_order_sound
    (iteration : gmap N OperatorPtr → list N) (g : ExecutionGraph) :
  iterates_keys iteration →
  edges_registered g →
  validate iteration g = Return true →
  ∃ order,
    getTopologicalOrder iteration g = Return order
    ∧ order ≡ₚ elements (dom (operators_ g))
    ∧ ∀ a b, b ∈ getSuccessors g a → precedes order a b.
Proof.
  intros Hiter Hreg Hvalid.
  destruct (traversal_outcome iteration Hiter g) as (c & st & Hrun & Hdet & Hord).
  unfold validate, isValid in Hvalid. rewrite Hdet in Hvalid. simpl in Hvalid.
  destruct c; [done|]. clear Hvalid.
  exists (reverse (topo_order st)). split; [done|].
  destruct (sort_roots_inv g (λ k, is_Some (operators_ g !! k))
              (λ a b _ Hb, proj2 (edges_registered_successor g a b Hreg Hb))
              (dfs_fuel g) (iteration (operators_ g)) _ st
              (dfs_inv_initial g _ (iteration (operators_ g))))
    as [[Hinv _ _] Hall]; [|intros k; apply flag_init_flags|done|].
  { intros r Hr. by apply (elem_of_iteration iteration Hiter). }
  split.
  - rewrite reverse_Permutation.
    apply NoDup_Permutation; [apply (inv_nodup _ _ _ Hinv)|apply NoDup_elements|].
    intros k. rewrite elem_of_elements, elem_of_dom. split.
    + intros Hk. apply (inv_within _ _ _ Hinv).
      by apply (inv_done _ _ _ Hinv) in Hk as [? _].
    + intros Hk. by apply Hall, (elem_of_iteration iteration Hiter).
  - intros a b Hb.
    destruct (edges_registered_successor g a b Hreg Hb) as [Ha _].
    apply (elem_of_iteration iteration Hiter), Hall in Ha.
    apply list_elem_of_split in Ha as (l1 & l3 & Heq).
    pose proof (inv_post _ _ _ Hinv l1 a l3 Heq b Hb) as Hbl1.
    apply list_elem_of_split in Hbl1 as (l0 & l2 & ->).
    rewrite Heq, <- app_assoc. simpl. apply precedes_reverse.
Qed.

Lemma topological_order_sound_witness :
  iterates_keys key_order ∧ edges_registered pipeline
  ∧ validate key_order pipeline = Return true
  ∧ ∃ order,
      getTopologicalOrder key_order pipeline = Return order
      ∧ order ≡ₚ elements (dom (operators_ pipeline))
      ∧ ∀ a b, b ∈ getSuccessors pipeline a → precedes order a b.
Proof.
  assert (iterates_keys key_order) as H1 by (intros m; reflexivity).
  assert (edges_registered pipeline) as H2
    by (unfold edges_registered; apply (bool_decide_unpack _); vm_compute; exact I).
  assert (validate key_order pipeline = Return true) as H3 by (vm_compute; reflexivity).
  split; [exact H1|]. split; [exact H2|]. split; [exact H3|].
  exact (topological_order_sound key_order pipeline H1 H2 H3).
Defined.

(** C5, as stated, fails on a graph with a dangling edge: [validate()] is
    true, yet the order returned contains the identifier 5, which no
    operator is registered under. *)
Lemma topological_order_dangling_edge :
  validate key_order dangling = Return true
  ∧ getTopologicalOrder key_order dangling = Return [0; 5]
  ∧ elements (dom (operators_ dangling)) = [0]
  ∧ ¬ [0; 5] ≡ₚ elements (dom (operators_ dangling)).
Proof.
  split; [by vm_compute|]. split; [by vm_compute|]. split; [by vm_compute|].
  intros Hperm. apply Permutation_length in Hperm. by vm_compute in Hperm.
Qed.

Lemma validate_iff_order_nonempty_witness :
  iterates_keys key_order ∧
  ∃ b order,
    validate key_order empty_graph = Return b
    ∧ getTopologicalOrder key_order empty_graph = Return order
    ∧ (b = true ↔ order ≠ [] ∨ operators_ empty_graph = ∅).
Proof.
  assert (iterates_keys key_order) as H by (intros m; reflexivity).
  split; [exact H|].
  exact (validate_iff_order_nonempty key_order empty_graph H).
Defined.

(** ** The adjacency maps *)

Section adjacency.

Local Open Scope nat_scope.

Lemma occurrences_nil (x : N) : occurrences x [] = 0.
Proof. done. Qed.

Lemma occurrences_cons (x y : N) (v : list N) :
  occurrences x (y :: v) = (if decide (y = x) then 1 else 0) + occurrences x v.
Proof.
  unfold occurrences. rewrite filter_cons. by destruct (decide (y = x)).
Qed.

Lemma occurrences_push_back (x y : N) (v : list N) :
  occurrences x (v ++ [y]) = occurrences x v + (if decide (y = x) then 1 else 0).
Proof.
  induction v as [|z v IH]; simpl.
  - rewrite occurrences_cons, occurrences_nil. lia.
  - rewrite !occurrences_cons, IH. lia.
Qed.

Lemma occurrences_erase_remove (x id : N) (v : list N) :
  occurrences x (erase_remove id v) = if decide (x = id) then 0 else occurrences x v.
Proof.
  unfold erase_remove.
  induction v as [|z v IH]; simpl; [by destruct (decide (x = id))|].
  rewrite filter_cons, occurrences_cons.
  destruct (decide (z ≠ id)) as [Hz|Hz].
  - rewrite occurrences_cons, IH.
    destruct (decide (x = id)), (decide (z = x)); simpl; congruence || lia.
  - rewrite IH. destruct (decide (x = id)), (decide (z = x)); simpl; lia.
Qed.

Lemma occurrences_elem_of (x : N) (v : list N) :
  x ∈ v ↔ occurrences x v ≠ 0.
Proof.
  induction v as [|z v IH].
  - rewrite occurrences_nil. split; [by intros ?%elem_of_nil|done].
  - rewrite elem_of_cons, occurrences_cons, IH.
    destruct (decide (z = x)); [naive_solver lia|]. split; [|naive_solver].
    intros [?|?]; [congruence|done].
Qed.

Lemma getSuccessors_addOperator (g : ExecutionGraph) (op : OperatorPtr) (a : N) :
  getSuccessors (addOperator g op).2 a =
  if decide (next_operator_id_ g = a) then [] else getSuccessors g a.
Proof.
  unfold getSuccessors. simpl. rewrite lookup_insert. by case_decide.
Qed.

Lemma getPredecessors_addOperator (g : ExecutionGraph) (op : OperatorPtr) (b : N) :
  getPredecessors (addOperator g op).2 b =
  if decide (next_operator_id_ g = b) then [] else getPredecessors g b.
Proof.
  unfold getPredecessors. simpl. rewrite lookup_insert. by case_decide.
Qed.

Lemma getSuccessors_connectOperators (g : ExecutionGraph) (s t a : N) :
  getSuccessors (connectOperators g s t) a =
  if decide (s = a) then getSuccessors g a ++ [t] else getSuccessors g a.
Proof.
  unfold getSuccessors, connectOperators, push_back_at. simpl.
  rewrite lookup_insert. case_decide; [|done]. subst.
  by destruct (adjacency_list_ g !! a).
Qed.

Lemma getPredecessors_connectOperators (g : ExecutionGraph) (s t b : N) :
  getPredecessors (connectOperators g s t) b =
  if decide (t = b) then getPredecessors g b ++ [s] else getPredecessors g b.
Proof.
  unfold getPredecessors, connectOperators, push_back_at. simpl.
  rewrite lookup_insert. case_decide; [|done]. subst.
  by destruct (reverse_adjacency_list_ g !! b).
Qed.

Lemma getSuccessors_removeOperator (g : ExecutionGraph) (id a : N) :
  getSuccessors (removeOperator g id) a =
  if decide (id = a) then [] else erase_remove id (getSuccessors g a).
Proof.
  unfold getSuccessors, removeOperator. simpl.
  rewrite lookup_fmap, lookup_delete. case_decide; [done|].
  by destruct (adjacency_list_ g !! a).
Qed.

Lemma getPredecessors_removeOperator (g : ExecutionGraph) (id b : N) :
  getPredecessors (removeOperator g id) b =
  if decide (id = b) then [] else erase_remove id (getPredecessors g b).
Proof.
  unfold getPredecessors, removeOperator. simpl.
  rewrite lookup_fmap, lookup_delete. case_decide; [done|].
  by destruct (reverse_adjacency_list_ g !! b).
Qed.

Lemma size_t_incr_small (x : N) :
  (x + 1 < SIZE_MAX_plus_1)%N → size_t_incr x = (x + 1)%N.
Proof. intros Hx. unfold size_t_incr. by apply N.mod_small. Qed.

(** A freshly handed-out identifier occurs in no adjacency vector. *)
Lemma fresh_id_unused (g : ExecutionGraph) (a b : N) :
  transposed g → edges_allocated g →
  a = next_operator_id_ g ∨ b = next_operator_id_ g →
  occurrences b (getSuccessors g a) = 0.
Proof.
  intros Htr Halloc Hfresh.
  destruct (occurrences b (getSuccessors g a)) eqn:E; [done|].
  assert (b ∈ getSuccessors g a) as Hb by (apply occurrences_elem_of; lia).
  apply Halloc in Hb. destruct Hfresh; subst; lia.
Qed.

Lemma transposed_addOperator (g : ExecutionGraph) (op : OperatorPtr) :
  transposed g → edges_allocated g → transposed (addOperator g op).2.
Proof.
  intros Htr Halloc a b.
  rewrite getSuccessors_addOperator, getPredecessors_addOperator.
  destruct (decide (next_operator_id_ g = a)) as [Ha|Ha],
           (decide (next_operator_id_ g = b)) as [Hb|Hb];
    rewrite ?occurrences_nil; try done.
  - rewrite <- Htr. symmetry. apply fresh_id_unused; auto.
  - apply fresh_id_unused; auto.
Qed.

Lemma edges_allocated_addOperator (g : ExecutionGraph) (op : OperatorPtr) :
  (next_operator_id_ g + 1 < SIZE_MAX_plus_1)%N →
  edges_allocated g → edges_allocated (addOperator g op).2.
Proof.
  intros Hsmall Halloc a b. rewrite getSuccessors_addOperator. simpl.
  rewrite (size_t_incr_small _ Hsmall).
  case_decide; [by intros ?%elem_of_nil|].
  intros Hb%Halloc. lia.
Qed.

Lemma transposed_connectOperators (g : ExecutionGraph) (s t : N) :
  transposed g → transposed (connectOperators g s t).
Proof.
  intros Htr a b.
  rewrite getSuccessors_connectOperators, getPredecessors_connectOperators.
  destruct (decide (s = a)) as [Ha|Ha], (decide (t = b)) as [Hb|Hb];
    rewrite ?occurrences_push_back, Htr.
  - by rewrite !decide_True.
  - rewrite decide_False by done. lia.
  - rewrite decide_False by done. lia.
  - done.
Qed.

Lemma edges_allocated_connectOperators (g : ExecutionGraph) (s t : N) :
  (s < next_operator_id_ g)%N → (t < next_operator_id_ g)%N →
  edges_allocated g → edges_allocated (connectOperators g s t).
Proof.
  intros Hs Ht Halloc a b. rewrite getSuccessors_connectOperators. simpl.
  case_decide; [|apply Halloc]. subst.
  intros [Hb|Hb%list_elem_of_singleton]%elem_of_app; [by apply Halloc|by subst].
Qed.

Lemma transposed_removeOperator (g : ExecutionGraph) (id : N) :
  transposed g → transposed (removeOperator g id).
Proof.
  intros Htr a b.
  rewrite getSuccessors_removeOperator, getPredecessors_removeOperator.
  destruct (decide (id = a)) as [Ha|Ha], (decide (id = b)) as [Hb|Hb];
    rewrite ?occurrences_nil, ?occurrences_erase_remove, ?Htr.
  - done.
  - by rewrite decide_True.
  - by rewrite decide_True.
  - rewrite !decide_False by done. done.
Qed.

Lemma edges_allocated_removeOperator (g : ExecutionGraph) (id : N) :
  edges_allocated g → edges_allocated (removeOperator g id).
Proof.
  intros Halloc a b. rewrite getSuccessors_removeOperator. simpl.
  case_decide; [by intros ?%elem_of_nil|].
  unfold erase_remove. intros [_ Hb]%list_elem_of_filter. by apply Halloc.
Qed.

Lemma run_call_keeps_transposed (g : ExecutionGraph) (c : call) :
  call_allocated g c → transposed g ∧ edges_allocated g →
  transposed (run_call g c) ∧ edges_allocated (run_call g c).
Proof.
  intros Hc [Htr Halloc]. destruct c as [op|s t|id]; simpl in *.
  - split; [by apply transposed_addOperator|by apply edges_allocated_addOperator].
  - destruct Hc as [Hs Ht].
    split; [by apply transposed_connectOperators
           |by apply edges_allocated_connectOperators].
  - split; [by apply transposed_removeOperator|by apply edges_allocated_removeOperator].
Qed.

Lemma run_calls_keep_transposed (cs : list call) :
  ∀ g, calls_allocated g cs → transposed g ∧ edges_allocated g →
    transposed (run_calls g cs) ∧ edges_allocated (run_calls g cs).
Proof.
  induction cs as [|c cs IH]; intros g Hcs Hinv; simpl in *; [done|].
  destruct Hcs as [Hc Hcs]. apply IH; [done|]. by apply run_call_keeps_transposed.
Qed.

End adjacency.

(** C6, as amended. After any sequence of [addOperator], [connectOperators]
    and [removeOperator] calls on a new graph in which every
    [connectOperators] call names identifiers already handed out (and the
    64-bit counter has not wrapped), the reverse adjacency is the exact
    transpose of the forward adjacency: b occurs k times in the forward list
    of a exactly when a occurs k times in the reverse list of b. *)
Theorem transposed_after_calls (cs : list call) :
  calls_allocated empty_graph cs →
  ∀ a b,
    occurrences b (getSuccessors (run_calls empty_graph cs) a)
    = occurrences a (getPredecessors (run_calls empty_graph cs) b).
Proof.
  intros Hcs.
  apply (run_calls_keep_transposed cs empty_graph Hcs). split.
  - by intros a b.
  - intros a b Hb. unfold getSuccessors in Hb. simpl in Hb.
    rewrite lookup_empty in Hb. by apply elem_of_nil in Hb.
Qed.

Lemma transposed_after_calls_witness :
  calls_allocated empty_graph
    [AddOperator (Some 0%nat); AddOperator (Some 1%nat); ConnectOperators 0 1;
     AddOperator (Some 2%nat); ConnectOperators 1 2]
  ∧ ∀ a b, occurrences b (getSuccessors pipeline a)
           = occurrences a (getPredecessors pipeline b).
Proof.
  assert (calls_allocated empty_graph
            [AddOperator (Some 0%nat); AddOperator (Some 1%nat); ConnectOperators 0 1;
             AddOperator (Some 2%nat); ConnectOperators 1 2]) as H.
  { vm_compute. repeat split. }
  split; [exact H|].
  exact (transposed_after_calls _ H).
Defined.

(** C6, as stated, fails when an edge names an identifier before
    [addOperator] hands it out: [addOperator] then resets both vectors of
    that identifier, and the reverse list of 1 still names 0. *)
Lemma transposed_broken_by_early_edge :
  getSuccessors (run_calls empty_graph early_edge) 0 = []
  ∧ getPredecessors (run_calls empty_graph early_edge) 1 = [0]
  ∧ occurrences 1 (getSuccessors (run_calls empty_graph early_edge) 0)
    ≠ occurrences 0 (getPredecessors (run_calls empty_graph early_edge) 1).
Proof.
  split; [by vm_compute|]. split; [by vm_compute|]. by vm_compute.
Qed.

End GraphFacts.

(** ** The stream engine *)

Module EngineFacts.

Import Graph Engine.

Lemma key_order_iterates_keys : iterates_keys key_order.
Proof. intros m. reflexivity. Qed.

Lemma getGraphState_set_state (e : StreamEngine) (id id' : N) (s : GraphState) :
  getGraphState (set_state id s e) id' =
  if decide (id = id') then s else getGraphState e id'.
Proof.
  unfold getGraphState. simpl. rewrite lookup_insert. by case_decide.
Qed.

Lemma set_state_same (e : StreamEngine) (id : N) (s : GraphState) :
  graph_states_ e !! id = Some s → set_state id s e = e.
Proof.
  intros Hs. destruct e as [mode next graphs states]. unfold set_state. simpl in *.
  f_equal. by apply insert_id.
Qed.

(** C8, as amended. For every registered graph, [stopGraph] leaves the state
    at Stopped: on a graph that is already Stopped the call changes nothing,
    in the state that [getGraphState] returns or anywhere else in the engine;
    a Completed graph, like any other, becomes Stopped. *)
Theorem stopGraph_state (e : StreamEngine) (graph_id : N) :
  is_Some (submitted_graphs_ e !! graph_id) →
  getGraphState (stopGraph graph_id e) graph_id = STOPPED
  ∧ (getGraphState e graph_id = STOPPED → stopGraph graph_id e = e).
Proof.
  intros [graph Hgraph]. unfold stopGraph. rewrite Hgraph. split.
  - rewrite getGraphState_set_state. by rewrite decide_True.
  - unfold getGraphState. intros Hs. apply set_state_same.
    destruct (graph_states_ e !! graph_id) as [s|]; [by subst|done].
Qed.

Lemma stopGraph_state_witness :
  is_Some (submitted_graphs_ stopped_engine !! 0)
  ∧ getGraphState (stopGraph 0 stopped_engine) 0 = STOPPED
  ∧ (getGraphState stopped_engine 0 = STOPPED → stopGraph 0 stopped_engine = stopped_engine).
Proof.
  assert (is_Some (submitted_graphs_ stopped_engine !! 0)) as H
    by (vm_compute; eexists; reflexivity).
  split; [exact H|].
  exact (stopGraph_state stopped_engine 0 H).
Defined.

(** C8, as stated, fails on a Completed graph: the graph is registered, its
    state is Completed, and after [stopGraph] the state is Stopped. *)
Lemma stopGraph_changes_completed :
  is_Some (submitted_graphs_ completed_engine !! 0)
  ∧ getGraphState completed_engine 0 = COMPLETED
  ∧ getGraphState (stopGraph 0 completed_engine) 0 = STOPPED
  ∧ getGraphState (stopGraph 0 completed_engine) 0 ≠ getGraphState completed_engine 0.
Proof.
  split; [vm_compute; eexists; reflexivity|].
  split; [by vm_compute|]. split; [by vm_compute|]. by vm_compute.
Qed.

Section engine_with_iteration.

Variable iteration : gmap N OperatorPtr → list N.

Hypothesis iteration_keys : iterates_keys iteration.

Lemma validate_returns (g : ExecutionGraph) :
  ∃ b, validate iteration g = Return b.
Proof.
  destruct (GraphFacts.traversal_outcome iteration iteration_keys g)
    as (c & st & _ & Hdet & _).
  exists (negb c). unfold validate, isValid. by rewrite Hdet.
Qed.

Lemma empty_graph_traversal (g : ExecutionGraph) :
  operators_ g = ∅ →
  validate iteration g = Return true
  ∧ getTopologicalOrder iteration g = Return [].
Proof.
  intros Hempty.
  apply (GraphFacts.iteration_nil iteration iteration_keys) in Hempty.
  unfold validate, isValid, detectCycles, getTopologicalOrder.
  by rewrite Hempty.
Qed.

Lemma ids_allocated_set_state (e : StreamEngine) (id : N) (s : GraphState) :
  ids_allocated e → is_Some (submitted_graphs_ e !! id) →
  ids_allocated (set_state id s e).
Proof.
  intros [Hgraphs Hstates] Hid. split; simpl; [done|].
  intros id'. rewrite lookup_insert. case_decide; [subst; auto|apply Hstates].
Qed.

Lemma ids_allocated_stopGraph (e : StreamEngine) (id : N) :
  ids_allocated e → ids_allocated (stopGraph id e).
Proof.
  intros Hinv. unfold stopGraph.
  destruct (submitted_graphs_ e !! id) eqn:E; [|done].
  apply ids_allocated_set_state; [done|by rewrite E].
Qed.

Lemma stopGraph_next (e : StreamEngine) (id : N) :
  next_graph_id_ (stopGraph id e) = next_graph_id_ e.
Proof. unfold stopGraph. by destruct (submitted_graphs_ e !! id). Qed.

(** What a call of [submitGraph] does, case by case. *)
Lemma submitGraph_cases (h : store) (graph : GraphPtr) (e : StreamEngine) :
  match graph with
  | None => submitGraph iteration h graph e = (Throw (runtime_error InvalidGraphNull), e)
  | Some p =>
      ∃ valid, validate iteration (h p) = Return valid ∧
        submitGraph iteration h graph e =
        if valid then
          (Return (next_graph_id_ e),
           {| execution_mode_ := execution_mode_ e;
              next_graph_id_ := size_t_incr (next_graph_id_ e);
              submitted_graphs_ := <[next_graph_id_ e := graph]> (submitted_graphs_ e);
              graph_states_ := <[next_graph_id_ e := SUBMITTED]> (graph_states_ e) |})
        else (Throw (runtime_error InvalidGraphValidation), e)
  end.
Proof.
  destruct graph as [p|]; [|done].
  destruct (validate_returns (h p)) as [valid Hvalid].
  exists valid. split; [done|]. unfold submitGraph. rewrite Hvalid. by destruct valid.
Qed.

(** Every call keeps the identifiers in use below the counter, which it
    raises by at most one. *)
Lemma run_call_allocated (e : StreamEngine) (c : call) :
  ids_allocated e → next_graph_id_ e + 1 < SIZE_MAX_plus_1 →
  ids_allocated (run_call iteration e c)
  ∧ next_graph_id_ e ≤ next_graph_id_ (run_call iteration e c)
  ∧ next_graph_id_ (run_call iteration e c) ≤ next_graph_id_ e + 1.
Proof.
  intros Hinv Hsmall. destruct c as [h graph|h id|id|id|id]; simpl.
  - pose proof (submitGraph_cases h graph e) as Hcases.
    destruct graph as [p|]; [|rewrite Hcases; simpl; split; [done|lia]].
    destruct Hcases as (valid & _ & ->).
    destruct valid; simpl; [|split; [done|lia]].
    rewrite (GraphFacts.size_t_incr_small _ Hsmall).
    destruct Hinv as [Hgraphs Hstates]. split; [|lia].
    split; simpl; intros id'; rewrite lookup_insert; case_decide; subst;
      try lia; intros Hid'.
    + apply Hgraphs in Hid'. lia.
    + apply Hstates in Hid'. lia.
  - unfold executeGraph.
    destruct (submitted_graphs_ e !! id) as [[p|]|] eqn:E; simpl; try (split; [done|lia]).
    assert (ids_allocated (set_state id RUNNING e)) as Hrun
      by (apply ids_allocated_set_state; [done|by rewrite E]).
    destruct (getTopologicalOrder iteration (h p)) as [[|? ?]| |]; simpl;
      try (split; [done|lia]).
    split; [|lia]. apply ids_allocated_set_state; [done|]. simpl. by rewrite E.
  - unfold executeGraphAsync.
    destruct (submitted_graphs_ e !! id) eqn:E; simpl; [|split; [done|lia]].
    split; [|lia].
    apply ids_allocated_set_state; [|simpl; by rewrite E].
    apply ids_allocated_set_state; [done|by rewrite E].
  - rewrite stopGraph_next. split; [by apply ids_allocated_stopGraph|lia].
  - unfold removeGraph. simpl. rewrite stopGraph_next. split; [|lia].
    destruct (ids_allocated_stopGraph e id Hinv) as [Hgraphs Hstates].
    rewrite stopGraph_next in Hgraphs, Hstates.
    split; simpl; intros id'; rewrite lookup_delete; case_decide;
      try (by intros [? ?]); auto.
Qed.

Lemma run_calls_allocated (cs : list call) :
  ∀ e, ids_allocated e →
    next_graph_id_ e + N.of_nat (length cs) < SIZE_MAX_plus_1 →
    ids_allocated (run_calls iteration e cs)
    ∧ next_graph_id_ e ≤ next_graph_id_ (run_calls iteration e cs)
    ∧ next_graph_id_ (run_calls iteration e cs)
      ≤ next_graph_id_ e + N.of_nat (length cs).
Proof.
  induction cs as [|c cs IH]; intros e Hinv Hsmall; simpl in *.
  - split; [done|lia].
  - destruct (run_call_allocated e c Hinv) as (Hinv1 & Hle & Hge); [lia|].
    destruct (IH (run_call iteration e c) Hinv1) as (Hinv2 & Hle2 & Hge2); [lia|].
    split; [done|lia].
Qed.

Lemma ids_allocated_new_engine (mode : ExecutionMode) :
  ids_allocated (new_engine mode).
Proof.
  split; simpl; intros id; rewrite lookup_empty; by intros [? ?].
Qed.

End engine_with_iteration.

(** C7. On an engine with any history of calls (short of wrapping the
    64-bit counter), [submitGraph] throws exactly when the graph pointer is
    null or [validate()] is false, and then leaves the engine as it was.
    Otherwise it returns a fresh identifier, larger than every identifier in
    use, records the graph under it with state Submitted, and every later
    successful [submitGraph] returns a strictly larger identifier. *)
Theorem submitGraph_spec
    (iteration : gmap N OperatorPtr → list N) (mode : ExecutionMode)
    (history : list call) (h : store) (graph : GraphPtr) :
  iterates_keys iteration →
  N.of_nat (length history) + 1 < SIZE_MAX_plus_1 →
  let e := run_calls iteration (new_engine mode) history in
  let e' := (submitGraph iteration h graph e).2 in
  match graph with
  | None =>
      submitGraph iteration h graph e = (Throw (runtime_error InvalidGraphNull), e)
  | Some p =>
      ∃ valid, validate iteration (h p) = Return valid ∧
        if valid then
          ∃ id, submitGraph iteration h graph e = (Return id, e')
            ∧ id = next_graph_id_ e
            ∧ submitted_graphs_ e !! id = None
            ∧ graph_states_ e !! id = None
            ∧ (∀ id', is_Some (submitted_graphs_ e !! id') → id' < id)
            ∧ submitted_graphs_ e' = <[id := graph]> (submitted_graphs_ e)
            ∧ graph_states_ e' = <[id := SUBMITTED]> (graph_states_ e)
            ∧ getGraphState e' id = SUBMITTED
            ∧ ∀ later h2 graph2 id2,
                N.of_nat (length history) + 1 + N.of_nat (length later) + 1
                  < SIZE_MAX_plus_1 →
                (submitGraph iteration h2 graph2 (run_calls iteration e' later)).1
                  = Return id2 →
                id < id2
        else
          submitGraph iteration h graph e
          = (Throw (runtime_error InvalidGraphValidation), e)
  end.
Proof.
  intros Hiter Hsmall e e'.
  destruct (run_calls_allocated iteration Hiter history (new_engine mode)
              (ids_allocated_new_engine mode)) as ([Hgraphs Hstates] & _ & Hnext);
    [simpl; lia|].
  fold e in Hgraphs, Hstates, Hnext. simpl in Hnext.
  pose proof (submitGraph_cases iteration Hiter h graph e) as Hcases.
  destruct graph as [p|]; [|done].
  destruct Hcases as (valid & Hvalid & Hsubmit).
  exists valid. split; [done|]. destruct valid; [|done].
  exists (next_graph_id_ e).
  assert (next_graph_id_ e + 1 < SIZE_MAX_plus_1) as Hsmall' by lia.
  subst e'. rewrite Hsubmit. simpl.
  rewrite (GraphFacts.size_t_incr_small _ Hsmall').
  split; [done|]. split; [done|].
  split.
  { destruct (submitted_graphs_ e !! next_graph_id_ e) eqn:E; [|done].
    assert (next_graph_id_ e < next_graph_id_ e) by (apply Hgraphs; by rewrite E). lia. }
  split.
  { destruct (graph_states_ e !! next_graph_id_ e) eqn:E; [|done].
    assert (next_graph_id_ e < next_graph_id_ e) by (apply Hstates; by rewrite E). lia. }
  split; [done|]. split; [done|]. split; [done|].
  split; [unfold getGraphState; simpl; by rewrite lookup_insert_eq|].
  intros later h2 graph2 id2 Hsmall2 Hsubmit2.
  match type of Hsubmit2 with
  | (submitGraph _ _ _ (run_calls _ ?e1 _)).1 = _ => set (e1' := e1) in *
  end.
  assert (ids_allocated e1') as Hinv1.
  { split; simpl; intros id'; rewrite lookup_insert; case_decide; subst;
      try lia; intros Hid'.
    - apply Hgraphs in Hid'. lia.
    - apply Hstates in Hid'. lia. }
  destruct (run_calls_allocated iteration Hiter later e1' Hinv1) as (_ & Hle & _);
    [simpl; lia|].
  simpl in Hle.
  pose proof (submitGraph_cases iteration Hiter h2 graph2
                (run_calls iteration e1' later)) as Hcases2.
  destruct graph2 as [p2|]; [|by rewrite Hcases2 in Hsubmit2].
  destruct Hcases2 as (valid2 & _ & Heq2). rewrite Heq2 in Hsubmit2.
  destruct valid2; simpl in Hsubmit2; [|done].
  simplify_eq. lia.
Qed.

Lemma submitGraph_spec_witness :
  iterates_keys key_order
  ∧ N.of_nat (length [SubmitGraph pipeline_store (Some 0%nat); StopGraph 0]) + 1
    < SIZE_MAX_plus_1
  ∧ ∃ valid, validate key_order (pipeline_store 1%nat) = Return valid ∧
      if valid then
        ∃ id, submitGraph key_order pipeline_store (Some 1%nat) stopped_engine
              = (Return id,
                 (submitGraph key_order pipeline_store (Some 1%nat) stopped_engine).2)
          ∧ id = next_graph_id_ stopped_engine
      else
        submitGraph key_order pipeline_store (Some 1%nat) stopped_engine
        = (Throw (runtime_error InvalidGraphValidation), stopped_engine).
Proof.
  assert (N.of_nat (length [SubmitGraph pipeline_store (Some 0%nat); StopGraph 0]) + 1
          < SIZE_MAX_plus_1) as H2 by (vm_compute; reflexivity).
  split; [exact key_order_iterates_keys|]. split; [exact H2|].
  destruct (submitGraph_spec key_order SINGLE_THREADED
              [SubmitGraph pipeline_store (Some 0%nat); StopGraph 0]
              pipeline_store (Some 1%nat) key_order_iterates_keys H2)
    as (valid & Hvalid & Hrest).
  exists valid. split; [exact Hvalid|].
  destruct valid; [|exact Hrest].
  destruct Hrest as (id & Hsubmit & Hid & _).
  exists id. split; [exact Hsubmit|exact Hid].
Defined.

(** C2: what the code does on a graph with zero operators. [validate()] is
    true and [submitGraph] accepts the graph, but [executeGraph] takes the
    empty topological order for the cycle sentinel: it throws "Graph
    contains cycles or is invalid" and leaves the state at Running. *)
Theorem executeGraph_empty_graph
    (iteration : gmap N OperatorPtr → list N) (h : store) (p : nat)
    (graph_id : N) (e : StreamEngine) :
  iterates_keys iteration →
  operators_ (h p) = ∅ →
  submitted_graphs_ e !! graph_id = Some (Some p) →
  validate iteration (h p) = Return true
  ∧ executeGraph iteration h graph_id e
    = (Throw (runtime_error GraphCyclesOrInvalid), set_state graph_id RUNNING e)
  ∧ getGraphState (executeGraph iteration h graph_id e).2 graph_id = RUNNING.
Proof.
  intros Hiter Hempty Hgraph.
  destruct (empty_graph_traversal iteration Hiter (h p) Hempty) as [Hvalid Horder].
  split; [done|].
  assert (executeGraph iteration h graph_id e
          = (Throw (runtime_error GraphCyclesOrInvalid), set_state graph_id RUNNING e))
    as Hrun.
  { unfold executeGraph. by rewrite Hgraph, Horder. }
  split; [done|]. rewrite Hrun. simpl.
  rewrite getGraphState_set_state. by rewrite decide_True.
Qed.

Lemma executeGraph_empty_graph_witness :
  iterates_keys key_order
  ∧ operators_ (empty_store 0%nat) = ∅
  ∧ submitted_graphs_ engine_with_empty_graph !! 0 = Some (Some 0%nat)
  ∧ getGraphState engine_with_empty_graph 0 = SUBMITTED
  ∧ validate key_order (empty_store 0%nat) = Return true
  ∧ executeGraph key_order empty_store 0 engine_with_empty_graph
    = (Throw (runtime_error GraphCyclesOrInvalid),
       set_state 0 RUNNING engine_with_empty_graph)
  ∧ getGraphState (executeGraph key_order empty_store 0 engine_with_empty_graph).2 0
    = RUNNING.
Proof.
  assert (operators_ (empty_store 0%nat) = ∅) as H2 by reflexivity.
  assert (submitted_graphs_ engine_with_empty_graph !! 0 = Some (Some 0%nat)) as H3
    by (vm_compute; reflexivity).
  split; [exact key_order_iterates_keys|]. split; [exact H2|]. split; [exact H3|].
  split; [vm_compute; reflexivity|].
  exact (executeGraph_empty_graph key_order empty_store 0%nat 0
           engine_with_empty_graph key_order_iterates_keys H2 H3).
Defined.

End EngineFacts.

(** ** Functions *)

Module FunctionFacts.

Import Function.

Section function_facts.

Context {Message World : Type}.

Local Open Scope nat_scope.

Lemma foldl_addMessage (messages result : FunctionResponse Message) :
  foldl addMessage result messages = result ++ messages.
Proof.
  revert result. induction messages as [|m rest IH]; intros result; simpl.
  - by rewrite app_nil_r.
  - rewrite IH. unfold addMessage. by rewrite <- app_assoc.
Qed.

(** C10. For every function of a class that does not declare the two-input
    overload (the base class, Source, Map, Filter and Sink), and for all
    inputs, [execute(left, right)] throws the runtime error "Dual-input
    execute not implemented for function: <name>". The single-input base
    implementation instead returns every message of its input, unchanged
    and in order, and leaves the input empty. *)
Theorem dual_input_execute_throws
    (f : Function Message World) (left right response : FunctionResponse Message)
    (this : FunctionBase) (w : World) :
  execute2 f left right
    = Throw (runtime_error (DualInputNotImplemented (getName f)))
  ∧ Function_execute response = (response, [])
  ∧ execute (AFunction this) response w = (Return (response, []), w).
Proof.
  split; [by destruct f|].
  assert (Function_execute response = (response, [])) as Hbase.
  { unfold Function_execute. by rewrite foldl_addMessage. }
  split; [done|]. simpl. by rewrite Hbase.
Qed.

Lemma MapFunction_loop_unset (messages result : FunctionResponse Message) (w : World) :
  MapFunction_loop None messages result w = (Return result, w).
Proof.
  revert result. induction messages as [|m rest IH]; intros result; simpl; [done|].
  apply IH.
Qed.

(** The loop with its accumulator against the accumulator-free reading. *)
Lemma MapFunction_loop_entries (f : MapFunc Message World)
    (messages result : FunctionResponse Message) (w : World) :
  MapFunction_loop (Some f) messages result w =
  match map_entries f messages w with
  | (Return out, w') => (Return (result ++ out), w')
  | (Throw e, w') => (Throw e, w')
  | (OutOfFuel, w') => (OutOfFuel, w')
  end.
Proof.
  revert result w.
  induction messages as [|[m|] rest IH]; intros result w; simpl.
  - by rewrite app_nil_r.
  - destruct (f m w) as [[message'| |] w']; [|done..].
    rewrite IH. destruct (map_entries f rest w') as [[out| |] w'']; [|done..].
    unfold addMessage. by rewrite <- app_assoc.
  - apply IH.
Qed.

Lemma map_entries_length (f : MapFunc Message World)
    (messages out : list (option Message)) (w w' : World) :
  map_entries f messages w = (Return out, w') →
  length out = length (present messages).
Proof.
  revert out w.
  induction messages as [|[m|] rest IH]; intros out w Hrun; simpl in *.
  - by simplify_eq.
  - destruct (f m w) as [[message'| |] w1]; [|done..].
    destruct (map_entries f rest w1) as [[out1| |] w2] eqn:E; [|done..].
    simplify_eq. simpl. f_equal. by eapply IH.
  - by eapply IH.
Qed.

(** Dropping the nil entries of the output gives what the specification
    describes. *)
Lemma map_spec_entries (f : MapFunc Message World)
    (messages : list (option Message)) (w : World) :
  map_spec f messages w =
  match map_entries f messages w with
  | (Return out, w') => (Return (Some <$> present out), w')
  | other => other
  end.
Proof.
  revert w.
  induction messages as [|[m|] rest IH]; intros w; simpl; [done| |].
  - destruct (f m w) as [[message'| |] w']; [|done..].
    rewrite IH. destruct (map_entries f rest w') as [[out| |] w'']; [|done..].
    by destruct message'.
  - rewrite IH. by destruct (map_entries f rest w) as [[out| |] w''].
Qed.

(** C9, as amended. With a callback set, [MapFunction::execute] returns, in
    input order, one entry for every non-nil input message: the callback's
    result for it, which stays in the output as a nil entry when the
    callback reset the pointer; the non-nil entries are the output the
    specification describes. Nil inputs are skipped, the input response is
    left empty, and a throwing callback makes [execute] throw. With no
    callback set the output is empty. *)
Theorem MapFunction_execute_entries
    (this : MapFunction Message World) (response : FunctionResponse Message)
    (w : World) :
  match map_func_ this with
  | None => MapFunction_execute this response w = (Return ([], []), w)
  | Some f =>
      match map_entries f response w with
      | (Return out, w') =>
          MapFunction_execute this response w = (Return (out, []), w')
          ∧ size out = length (present response)
          ∧ map_spec f response w = (Return (Some <$> present out), w')
      | (Throw e, w') => MapFunction_execute this response w = (Throw e, w')
      | (OutOfFuel, w') => MapFunction_execute this response w = (OutOfFuel, w')
      end
  end.
Proof.
  unfold MapFunction_execute.
  destruct (map_func_ this) as [f|]; [|by rewrite MapFunction_loop_unset].
  rewrite MapFunction_loop_entries, map_spec_entries.
  destruct (map_entries f response w) as [[out| |] w'] eqn:E; [|done..].
  split; [done|]. split; [|done]. by eapply map_entries_length.
Qed.

End function_facts.

(** C9, as stated, fails in two ways. A callback that resets the pointer
    leaves a nil entry in the output, so the position is not removed: one
    entry comes back where the specification has none. And with no callback
    set, nothing comes back for a message whose position the specification
    keeps. *)
Lemma MapFunction_execute_not_spec :
  MapFunction_execute resetting_map [Some 7%nat] tt = (Return ([None], []), tt)
  ∧ map_spec reset_pointer [Some 7%nat] tt = (Return [], tt)
  ∧ size (Message := nat) [None] ≠ size (Message := nat) []
  ∧ MapFunction_execute unset_map [Some 7%nat] tt = (Return ([], []), tt).
Proof. by repeat split. Qed.

End FunctionFacts.

(** ** Operators *)

Module OperatorFacts.

Import Function Operator.

Section operator_facts.

Context {Message World : Type}.

Local Open Scope nat_scope.

(** The loop emits the non-nil outputs, in order, on slot 0, and reports
    whether there was one. *)
Lemma emit_outputs_emitted (output_messages : list (option Message)) :
  ∀ (has_output : bool) (op : Operator Message),
    emitted_ (emit_outputs output_messages has_output op).2
      = emitted_ op ++ ((λ m, (0%Z, m)) <$> present output_messages)
    ∧ (emit_outputs output_messages has_output op).1
      = has_output || bool_decide (present output_messages ≠ []).
Proof.
  induction output_messages as [|[m|] rest IH]; intros has_output op; simpl.
  - rewrite app_nil_r. by destruct has_output.
  - destruct (IH true (incrementOutputCount (emit 0 m op))) as [-> ->]. simpl.
    rewrite <- app_assoc. split; [done|]. by destruct has_output.
  - apply IH.
Qed.

Lemma emit_outputs_iff (output_messages : list (option Message))
    (op : Operator Message) :
  emitted_during op (emit_outputs output_messages false op).2
    ((λ m, (0%Z, m)) <$> present output_messages)
  ∧ ((emit_outputs output_messages false op).1 = true
     ↔ (λ m, (0%Z, m)) <$> present output_messages ≠ []).
Proof.
  destruct (emit_outputs_emitted output_messages false op) as [Hemitted ->].
  split; [exact Hemitted|]. simpl.
  destruct (present output_messages) as [|m l]; simpl; split; done.
Qed.

Lemma emitted_during_nil (op op' : Operator Message) :
  emitted_ op' = emitted_ op → emitted_during op op' [].
Proof. intros Heq. unfold emitted_during. by rewrite app_nil_r. Qed.

(** C1, as amended. For every operator variant (Map, Filter, Sink), if the
    function slot is empty when [process] is invoked, [process] throws the
    runtime error "<Variant>Operator: No <Variant>Function set", whatever
    the input: the error propagates to the caller, no Boolean is returned,
    and counters, emitted messages and the world are left as they were. *)
Theorem process_without_function_throws
    (o : composed_operator Message World) (input_record : Response Message)
    (slot : Z) (w : World) :
  function_is_null o = true →
  process o input_record slot w
    = (Throw (runtime_error (no_function_error o)), base_part o, w).
Proof.
  intros Hnull.
  destruct o as [this|this|this]; simpl in *; apply bool_decide_eq_true in Hnull.
  - unfold MapOperator_process. by rewrite Hnull.
  - unfold FilterOperator_process. by rewrite Hnull.
  - unfold SinkOperator_process. by rewrite Hnull.
Qed.


End operator_facts.

Lemma process_without_function_throws_witness :
  function_is_null map_without_function = true
  ∧ process map_without_function record_7 0 tt
    = (Throw (runtime_error NoMapFunctionSet), new_operator, tt).
Proof.
  assert (function_is_null map_without_function = true) as H by reflexivity.
  split; [exact H|].
  exact (process_without_function_throws map_without_function record_7 0 tt H).
Defined.

(** C1, as stated, fails on a Map operator built without a function: the
    call does not return false, it throws. *)
Lemma process_without_function_not_false :
  function_is_null map_without_function = true
  ∧ process map_without_function record_7 0 tt
    = (Throw (runtime_error NoMapFunctionSet), new_operator, tt)
  ∧ (process map_without_function record_7 0 tt).1.1 ≠ Return false.
Proof. by repeat split. Qed.



End OperatorFacts.

(** ** Cycle detection *)

Module CycleFacts.

Import Graph GraphFacts.

Section cycles_of_a_graph.

Variable g : ExecutionGraph.

Lemma rec_stack_enter (id k : N) (st : dfs_state) :
  flag (rec_stack (enter id st)) k = true → k = id ∨ flag (rec_stack st) k = true.
Proof.
  simpl. rewrite flag_insert. destruct (decide (id = k)); auto.
Qed.

(** When the loop over the successors of [id] reports a cycle, there is
    one, and [id] reaches it: the nodes on the recursion stack all reach
    [id]. *)
Lemma visit_successors_cycle (rec : N → dfs_state → outcome (bool * dfs_state))
    (id : N) :
  (∀ s st st', dfs_inv g (λ _, True) st → flag (visited st) s = false →
     rec s st = Return (false, st') →
     dfs_post g (λ _, True) st st' ∧ s ∈ topo_order st') →
  (∀ s st st', dfs_inv g (λ _, True) st → flag (visited st) s = false →
     (∀ k, flag (rec_stack st) k = true → rtc (edge g) k s) →
     rec s st = Return (true, st') →
     ∃ a, rtc (edge g) s a ∧ tc (edge g) a a) →
  ∀ successors st st',
    dfs_inv g (λ _, True) st →
    (∀ s, s ∈ successors → edge g id s) →
    (∀ k, flag (rec_stack st) k = true → rtc (edge g) k id) →
    visit_successors rec successors st = Return (true, st') →
    ∃ a, rtc (edge g) id a ∧ tc (edge g) a a.
Proof.
  intros Hfalse Htrue successors.
  induction successors as [|s rest IH]; intros st st' Hinv Hedges Hstack Hrun;
    simpl in Hrun; [done|].
  assert (edge g id s) as Hs by (apply Hedges; by left).
  assert (∀ s', s' ∈ rest → edge g id s') as Hrest by (intros; apply Hedges; by right).
  destruct (flag (visited st) s) eqn:Hv; simpl in Hrun.
  - destruct (flag (rec_stack st) s) eqn:Hr.
    + exists id. split; [done|].
      eapply tc_rtc_r; [by apply tc_once|by apply Hstack].
    + by eapply IH.
  - destruct (rec s st) as [[c st1]| |] eqn:Hcall; simpl in Hrun; try done.
    destruct c.
    + destruct (Htrue s st st1 Hinv Hv) as (a & Hreach & Hcycle); [|done|].
      { intros k Hk. eapply rtc_r; [by apply Hstack|done]. }
      exists a. split; [|done]. by eapply rtc_l.
    + destruct (Hfalse s st st1 Hinv Hv Hcall) as [[Hinv1 _ Hstack1] _].
      eapply (IH st1 st'); [done|done| |done].
      intros k. rewrite Hstack1. apply Hstack.
Qed.

(** A call that reports a cycle has found one that its node reaches. *)
Lemma topologicalSortUtil_cycle (fuel : nat) :
  ∀ id st st', dfs_inv g (λ _, True) st → flag (visited st) id = false →
    (∀ k, flag (rec_stack st) k = true → rtc (edge g) k id) →
    topologicalSortUtil fuel g id st = Return (true, st') →
    ∃ a, rtc (edge g) id a ∧ tc (edge g) a a.
Proof.
  induction fuel as [|fuel IH]; intros id st st' Hinv Hid Hstack Hrun; [done|].
  rewrite topologicalSortUtil_step in Hrun.
  destruct (visit_successors _ _ (enter id st)) as [[c st2]| |] eqn:Hloop;
    simpl in Hrun; try done.
  destruct c; [|done].
  eapply (visit_successors_cycle _ id); [| |apply dfs_inv_enter| | |exact Hloop];
    try done.
  - intros s st0 st0' Hinv0 Hs Hcall.
    by apply (topologicalSortUtil_inv g (λ _, True) (λ _ _ _ _, I) fuel).
  - intros k [->|Hk]%rec_stack_enter; [done|by apply Hstack].
Qed.

Lemma sort_roots_cycle (fuel : nat) :
  ∀ roots st st', dfs_inv g (λ _, True) st →
    (∀ k, flag (rec_stack st) k = false) →
    sort_roots (topologicalSortUtil fuel g) roots st = Return (true, st') →
    ∃ r a, r ∈ roots ∧ rtc (edge g) r a ∧ tc (edge g) a a.
Proof.
  intros roots.
  induction roots as [|r rest IH]; intros st st' Hinv Hempty Hrun; simpl in Hrun;
    [done|].
  destruct (flag (visited st) r) eqn:Hr; simpl in Hrun.
  - destruct (IH _ _ Hinv Hempty Hrun) as (r' & a & Hin & Hreach).
    exists r', a. split; [by right|done].
  - destruct (topologicalSortUtil fuel g r st) as [[c st1]| |] eqn:Hcall;
      simpl in Hrun; try done.
    destruct c.
    + destruct (topologicalSortUtil_cycle fuel r st st1 Hinv Hr) as (a & Hreach);
        [|done|].
      { intros k Hk. by rewrite Hempty in Hk. }
      exists r, a. split; [by left|done].
    + destruct (topologicalSortUtil_inv g (λ _, True) (λ _ _ _ _, I) fuel r st st1)
        as [[Hinv1 _ Hstack1] _]; [done..|].
      destruct (IH st1 st' Hinv1) as (r' & a & Hin & Hreach); [|done|].
      { intros k. by rewrite Hstack1. }
      exists r', a. split; [by right|done].
Qed.

(** In a state that satisfies the invariant, the output vector is closed
    under successors and each successor sits at a smaller index. *)
Lemma postorder_edge (P : N → Prop) (st : dfs_state) (x y : N) (i : nat) :
  dfs_inv g P st → topo_order st !! i = Some x → edge g x y →
  ∃ j, topo_order st !! j = Some y ∧ (j < i)%nat.
Proof.
  intros Hinv Hi Hedge.
  pose proof (take_drop_middle _ _ _ Hi) as Hsplit. symmetry in Hsplit.
  pose proof (inv_post _ _ _ Hinv _ _ _ Hsplit y Hedge) as Hy.
  apply list_elem_of_lookup in Hy as [j Hj].
  exists j. pose proof (lookup_lt_Some _ _ _ Hj) as Hlt.
  rewrite length_take in Hlt. split; [|lia].
  rewrite lookup_take_lt in Hj; [done|lia].
Qed.

Lemma postorder_path (P : N → Prop) (st : dfs_state) (x y : N) :
  dfs_inv g P st → tc (edge g) x y →
  ∀ i, topo_order st !! i = Some x →
  ∃ j, topo_order st !! j = Some y ∧ (j < i)%nat.
Proof.
  intros Hinv Hpath. induction Hpath as [x y Hedge|x z y Hedge Hpath IH]; intros i Hi.
  - by eapply postorder_edge.
  - destruct (postorder_edge P st x z i Hinv Hi Hedge) as (k & Hk & Hlt).
    destruct (IH k Hk) as (j & Hj & Hlt'). exists j. split; [done|lia].
Qed.

Lemma postorder_reach (P : N → Prop) (st : dfs_state) (x y : N) :
  dfs_inv g P st → rtc (edge g) x y → x ∈ topo_order st → y ∈ topo_order st.
Proof.
  intros Hinv Hpath Hx. apply rtc_tc in Hpath as [->|Hpath]; [done|].
  apply list_elem_of_lookup in Hx as [i Hi].
  destruct (postorder_path P st x y Hinv Hpath i Hi) as (j & Hj & _).
  apply list_elem_of_lookup. by exists j.
Qed.

Lemma postorder_acyclic (P : N → Prop) (st : dfs_state) (x : N) :
  dfs_inv g P st → x ∈ topo_order st → ¬ tc (edge g) x x.
Proof.
  intros Hinv Hx Hcycle. apply list_elem_of_lookup in Hx as [i Hi].
  destruct (postorder_path P st x x Hinv Hcycle i Hi) as (j & Hj & Hlt).
  pose proof (NoDup_lookup _ _ _ _ (inv_nodup _ _ _ Hinv) Hi Hj). lia.
Qed.

End cycles_of_a_graph.

(** The traversal behind [validate()] decides whether a registered operator
    reaches a cycle. *)
Lemma validate_decides_cycles
    (iteration : gmap N OperatorPtr → list N) (g : ExecutionGraph) :
  iterates_keys iteration →
  (validate iteration g = Return false ↔ reaches_cycle g)
  ∧ (validate iteration g = Return true ↔ ¬ reaches_cycle g).
Proof.
  intros Hiter.
  destruct (traversal_outcome iteration Hiter g) as (c & st & Hrun & Hdet & _).
  assert (validate iteration g = Return (negb c)) as Hvalid
    by (unfold validate, isValid; by rewrite Hdet).
  assert (c = true ↔ reaches_cycle g) as Hiff.
  { destruct c.
    - split; [intros _|done].
      destruct (sort_roots_cycle g (dfs_fuel g) _ _ st
                  (dfs_inv_initial g _ (iteration (operators_ g)))
                  (λ k, flag_init_flags _ k) Hrun) as (r & a & Hr & Hreach & Hcycle).
      exists r, a. split; [by apply (elem_of_iteration iteration Hiter)|done].
    - split; [done|]. intros (r & a & Hr & Hreach & Hcycle). exfalso.
      destruct (sort_roots_inv g (λ _, True) (λ _ _ _ _, I) (dfs_fuel g)
                  (iteration (operators_ g)) _ st
                  (dfs_inv_initial g _ (iteration (operators_ g))))
        as [[Hinv _ _] Hall]; [done|intros k; apply flag_init_flags|done|].
      apply (elem_of_iteration iteration Hiter), Hall in Hr.
      eapply (postorder_acyclic g _ st a Hinv); [|done].
      by eapply postorder_reach. }
  rewrite Hvalid, <- Hiff.
  destruct c; simpl; (split; split); try done; intros H; congruence.
Qed.

(** X1. [validate()] returns false exactly when some registered operator
    reaches a cycle of the forward adjacency (and true otherwise): the
    cycle detection neither misses a reachable cycle nor reports one that
    is not there. *)
Theorem validate_false_iff_cycle
    (iteration : gmap N OperatorPtr → list N) (g : ExecutionGraph) :
  iterates_keys iteration →
  (validate iteration g = Return false ↔ reaches_cycle g)
  ∧ (validate iteration g = Return true ↔ ¬ reaches_cycle g).
Proof. apply validate_decides_cycles. Qed.

Lemma validate_false_iff_cycle_witness :
  iterates_keys key_order
  ∧ (validate key_order two_cycle = Return false ↔ reaches_cycle two_cycle)
  ∧ (validate key_order two_cycle = Return true ↔ ¬ reaches_cycle two_cycle).
Proof.
  assert (iterates_keys key_order) as H by (intros m; reflexivity).
  split; [exact H|].
  exact (validate_false_iff_cycle key_order two_cycle H).
Defined.

(** *** Which calls can invalidate a graph *)

Lemma tc_subrel {A : Type} (R1 R2 : relation A) (x y : A) :
  (∀ a b, R1 a b → R2 a b) → tc R1 x y → tc R2 x y.
Proof.
  intros Hsub Hpath. induction Hpath as [x y Hxy|x z y Hxz _ IH].
  - by apply tc_once, Hsub.
  - eapply tc_l; [by apply Hsub|done].
Qed.

(** A graph with fewer edges, whose additional roots have no outgoing edge,
    reaches no new cycle. *)
Lemma reaches_cycle_subgraph (g g' : ExecutionGraph) :
  (∀ a b, edge g' a b → edge g a b) →
  (∀ r, is_Some (operators_ g' !! r) →
     is_Some (operators_ g !! r) ∨ getSuccessors g' r = []) →
  reaches_cycle g' → reaches_cycle g.
Proof.
  intros Hedges Hroots (r & a & Hr & Hreach & Hcycle).
  destruct (Hroots r Hr) as [Hreg|Hleaf].
  - exists r, a. split; [done|].
    split; [by eapply rtc_subrel|by eapply tc_subrel].
  - exfalso.
    assert (∀ b, ¬ edge g' r b) as Hnone.
    { intros b Hb. unfold edge in Hb. rewrite Hleaf in Hb. by apply elem_of_nil in Hb. }
    apply rtc_tc in Hreach as [->|Hpath].
    + inversion Hcycle as [? ? Hab|? ? ? Hab]; subst; by apply Hnone in Hab.
    + inversion Hpath as [? ? Hab|? ? ? Hab]; subst; by apply Hnone in Hab.
Qed.

Lemma edge_addOperator (g : ExecutionGraph) (op : OperatorPtr) (a b : N) :
  edge (addOperator g op).2 a b → edge g a b.
Proof.
  unfold edge. rewrite getSuccessors_addOperator.
  case_decide; [by intros ?%elem_of_nil|done].
Qed.

Lemma edge_removeOperator (g : ExecutionGraph) (id a b : N) :
  edge (removeOperator g id) a b ↔ edge g a b ∧ a ≠ id ∧ b ≠ id.
Proof.
  unfold edge. rewrite getSuccessors_removeOperator.
  destruct (decide (id = a)) as [Ha|Ha].
  - split; [by intros ?%elem_of_nil|]. intros (_ & Hne & _). congruence.
  - unfold erase_remove. rewrite list_elem_of_filter. naive_solver.
Qed.

Lemma edge_connectOperators (g : ExecutionGraph) (s t a b : N) :
  edge (connectOperators g s t) a b ↔ edge g a b ∨ (a = s ∧ b = t).
Proof.
  unfold edge. rewrite getSuccessors_connectOperators.
  destruct (decide (s = a)) as [Ha|Ha].
  - rewrite elem_of_app, list_elem_of_singleton. naive_solver.
  - naive_solver.
Qed.

(** X2. [addOperator] and [removeOperator] never invalidate a graph: if
    [validate()] is true before the call, it is true after it. *)
Theorem validate_kept_by_add_and_remove
    (iteration : gmap N OperatorPtr → list N) (g : ExecutionGraph)
    (op : OperatorPtr) (id : N) :
  iterates_keys iteration →
  validate iteration g = Return true →
  validate iteration (addOperator g op).2 = Return true
  ∧ validate iteration (removeOperator g id) = Return true.
Proof.
  intros Hiter Hvalid.
  apply (validate_decides_cycles iteration g Hiter) in Hvalid.
  split; apply (validate_decides_cycles iteration _ Hiter); intros Hcycle;
    apply Hvalid; revert Hcycle; apply reaches_cycle_subgraph.
  - apply edge_addOperator.
  - intros r. rewrite getSuccessors_addOperator. simpl. rewrite lookup_insert.
    destruct (decide (next_operator_id_ g = r)); [by right|by left].
  - intros a b Hab. by apply edge_removeOperator in Hab as [? _].
  - intros r. simpl. rewrite lookup_delete. case_decide; [by intros [? ?]|by left].
Qed.

Lemma validate_kept_by_add_and_remove_witness :
  iterates_keys key_order
  ∧ validate key_order pipeline = Return true
  ∧ validate key_order (addOperator pipeline (Some 3%nat)).2 = Return true
  ∧ validate key_order (removeOperator pipeline 1) = Return true.
Proof.
  assert (iterates_keys key_order) as H1 by (intros m; reflexivity).
  assert (validate key_order pipeline = Return true) as H2 by (vm_compute; reflexivity).
  split; [exact H1|]. split; [exact H2|].
  exact (validate_kept_by_add_and_remove key_order pipeline (Some 3%nat) 1 H1 H2).
Defined.

(** X3. An edge that closes a loop is detected: when [source] is a
    registered operator that [target] already reaches (or is [target]
    itself), [validate()] is false after
    [connectOperators(source, target)]. *)
Theorem validate_false_after_closing_edge
    (iteration : gmap N OperatorPtr → list N) (g : ExecutionGraph)
    (source target : N) :
  iterates_keys iteration →
  is_Some (operators_ g !! source) →
  rtc (edge g) target source →
  validate iteration (connectOperators g source target) = Return false.
Proof.
  intros Hiter Hreg Hreach.
  apply (validate_decides_cycles iteration _ Hiter).
  exists source, source. split; [done|]. split; [done|].
  eapply tc_rtc_r.
  - apply tc_once, edge_connectOperators. by right.
  - eapply rtc_subrel; [|done]. intros a b Hab. apply edge_connectOperators. by left.
Qed.

Lemma validate_false_after_closing_edge_witness :
  iterates_keys key_order
  ∧ is_Some (operators_ pipeline !! 2)
  ∧ rtc (edge pipeline) 0 2
  ∧ validate key_order (connectOperators pipeline 2 0) = Return false.
Proof.
  assert (iterates_keys key_order) as H1 by (intros m; reflexivity).
  assert (is_Some (operators_ pipeline !! 2)) as H2
    by (vm_compute; eexists; reflexivity).
  assert (rtc (edge pipeline) 0 2) as H3.
  { apply (rtc_l _ _ 1); [unfold edge; vm_compute; left|].
    apply rtc_once. unfold edge. vm_compute. left. }
  split; [exact H1|]. split; [exact H2|]. split; [exact H3|].
  exact (validate_false_after_closing_edge key_order pipeline 2 0 H1 H2 H3).
Defined.

End CycleFacts.

(** ** Editing a graph *)

Module GraphEditFacts.

Import Graph GraphFacts.

(** X4. After [removeOperator(id)] the identifier is no longer registered,
    heads no list and occurs in no successor or predecessor list; every
    other operator stays registered and keeps its lists without the
    occurrences of [id]. Removing the same identifier again changes
    nothing. *)
Theorem removeOperator_scrubs (g : ExecutionGraph) (id : N) :
  operators_ (removeOperator g id) !! id = None
  ∧ getSuccessors (removeOperator g id) id = []
  ∧ getPredecessors (removeOperator g id) id = []
  ∧ (∀ a, (id ∉ getSuccessors (removeOperator g id) a)
          ∧ (id ∉ getPredecessors (removeOperator g id) a))
  ∧ (∀ a, a ≠ id →
       operators_ (removeOperator g id) !! a = operators_ g !! a
       ∧ getSuccessors (removeOperator g id) a
         = filter (λ x, x ≠ id) (getSuccessors g a)
       ∧ getPredecessors (removeOperator g id) a
         = filter (λ x, x ≠ id) (getPredecessors g a))
  ∧ removeOperator (removeOperator g id) id = removeOperator g id.
Proof.
  assert (∀ v, erase_remove id (erase_remove id v) = erase_remove id v) as Hidem.
  { intros v. unfold erase_remove. induction v as [|x v IH]; [done|].
    rewrite filter_cons. destruct (decide (x ≠ id)); [|done].
    rewrite filter_cons. destruct (decide (x ≠ id)); [|done]. by rewrite IH. }
  assert (∀ m : gmap N (list N),
            erase_remove id <$> delete id (erase_remove id <$> delete id m)
            = erase_remove id <$> delete id m) as Hmaps.
  { intros m. apply map_eq. intros k.
    rewrite !lookup_fmap, !lookup_delete. destruct (decide (id = k)); [done|].
    rewrite lookup_fmap, lookup_delete. rewrite decide_False by done.
    destruct (m !! k); simpl; [by rewrite Hidem|done]. }
  split; [simpl; apply lookup_delete_eq|].
  split; [rewrite getSuccessors_removeOperator; by rewrite decide_True|].
  split; [rewrite getPredecessors_removeOperator; by rewrite decide_True|].
  split; [|split].
  - intros a. rewrite getSuccessors_removeOperator, getPredecessors_removeOperator.
    destruct (decide (id = a)); [split; by intros ?%elem_of_nil|].
    unfold erase_remove. split; intros [? _]%list_elem_of_filter; done.
  - intros a Ha. rewrite getSuccessors_removeOperator, getPredecessors_removeOperator.
    rewrite !decide_False by done. split; [|done].
    simpl. by rewrite lookup_delete_ne.
  - unfold removeOperator. simpl. f_equal; [apply delete_delete_eq|apply Hmaps..].
Qed.

Section built_graphs.

(** What every graph built through the three calls satisfies, whatever the
    identifiers the calls name. *)
Lemma adjacency_keys_run_call (g : ExecutionGraph) (c : call) :
  adjacency_keys g → adjacency_keys (run_call g c).
Proof.
  intros Hkeys id. destruct c as [op|s t|id']; simpl.
  - rewrite !lookup_insert. destruct (decide (next_operator_id_ g = id)); [done|].
    apply Hkeys.
  - unfold push_back_at. intros Hid. destruct (Hkeys id Hid) as [Ha Hr].
    rewrite !lookup_insert. split; case_decide; done.
  - rewrite !lookup_fmap, !lookup_delete.
    destruct (decide (id' = id)); [by intros [? ?]|].
    intros Hid. destruct (Hkeys id Hid) as [[? ->] [? ->]]. done.
Qed.

Lemma adjacency_keys_run_calls (cs : list call) :
  ∀ g, adjacency_keys g → adjacency_keys (run_calls g cs).
Proof.
  induction cs as [|c cs IH]; intros g Hkeys; simpl; [done|].
  by apply IH, adjacency_keys_run_call.
Qed.

Lemma adjacency_keys_empty_graph : adjacency_keys empty_graph.
Proof. intros id. simpl. rewrite lookup_empty. by intros [? ?]. Qed.

Lemma collect_empty_filter (m : gmap N (list N)) (ids : list N) :
  (∀ id, id ∈ ids → is_Some (m !! id)) →
  ∀ acc, collect_empty m ids acc
         = Some (acc ++ filter (λ id, m !! id = Some []) ids).
Proof.
  induction ids as [|id ids IH]; intros Hkeys acc; simpl.
  - by rewrite app_nil_r.
  - assert (∀ id', id' ∈ ids → is_Some (m !! id')) as Hrest
      by (intros; apply Hkeys; by right).
    destruct (Hkeys id) as [v Hv]; [by left|]. rewrite Hv, filter_cons.
    destruct v as [|x v].
    + rewrite IH by done. rewrite decide_True by done. by rewrite <- app_assoc.
    + rewrite IH by done. rewrite decide_False; [done|]. by rewrite Hv.
Qed.

End built_graphs.

(** With every registered key present in both adjacency maps, the two
    functions return, and return what their names say. *)
Lemma sources_and_sinks_spec
    (iteration : gmap N OperatorPtr → list N) (g : ExecutionGraph) :
  iterates_keys iteration → adjacency_keys g →
  ∃ sources sinks,
    getSourceOperators iteration g = Some sources
    ∧ getSinkOperators iteration g = Some sinks
    ∧ (∀ id, id ∈ sources ↔
         is_Some (operators_ g !! id) ∧ getPredecessors g id = [])
    ∧ (∀ id, id ∈ sinks ↔
         is_Some (operators_ g !! id) ∧ getSuccessors g id = []).
Proof.
  intros Hiter Hkeys.
  unfold getSourceOperators, getSinkOperators.
  rewrite !collect_empty_filter; simpl.
  - eexists _, _. split; [done|]. split; [done|].
    split; intros id; rewrite list_elem_of_filter, (elem_of_iteration iteration Hiter);
      [unfold getPredecessors|unfold getSuccessors]; split.
    + intros [-> ?]. done.
    + intros [Hid Hempty]. split; [|done].
      destruct (Hkeys id Hid) as [_ [v Hv]]. rewrite Hv in Hempty |- *. by subst.
    + intros [-> ?]. done.
    + intros [Hid Hempty]. split; [|done].
      destruct (Hkeys id Hid) as [[v Hv] _]. rewrite Hv in Hempty |- *. by subst.
  - intros id Hid%(elem_of_iteration iteration Hiter). by apply Hkeys.
  - intros id Hid%(elem_of_iteration iteration Hiter). by apply Hkeys.
Qed.

(** X5. On a graph built by any sequence of [addOperator],
    [connectOperators] and [removeOperator] calls, [getSourceOperators] and
    [getSinkOperators] never throw [std::out_of_range]: they return exactly
    the registered operators whose predecessor list, respectively successor
    list, is empty. *)
Theorem sources_and_sinks_of_built_graph
    (iteration : gmap N OperatorPtr → list N) (cs : list call) :
  iterates_keys iteration →
  let g := run_calls empty_graph cs in
  ∃ sources sinks,
    getSourceOperators iteration g = Some sources
    ∧ getSinkOperators iteration g = Some sinks
    ∧ (∀ id, id ∈ sources ↔
         is_Some (operators_ g !! id) ∧ getPredecessors g id = [])
    ∧ (∀ id, id ∈ sinks ↔
         is_Some (operators_ g !! id) ∧ getSuccessors g id = []).
Proof.
  intros Hiter g. apply sources_and_sinks_spec; [done|].
  apply adjacency_keys_run_calls, adjacency_keys_empty_graph.
Qed.

Lemma sources_and_sinks_of_built_graph_witness :
  iterates_keys key_order
  ∧ getSourceOperators key_order pipeline = Some [0]
  ∧ getSinkOperators key_order pipeline = Some [2]
  ∧ ∃ sources sinks,
      getSourceOperators key_order pipeline = Some sources
      ∧ getSinkOperators key_order pipeline = Some sinks
      ∧ (∀ id, id ∈ sources ↔
           is_Some (operators_ pipeline !! id) ∧ getPredecessors pipeline id = [])
      ∧ (∀ id, id ∈ sinks ↔
           is_Some (operators_ pipeline !! id) ∧ getSuccessors pipeline id = []).
Proof.
  assert (iterates_keys key_order) as H by (intros m; reflexivity).
  split; [exact H|]. split; [by vm_compute|]. split; [by vm_compute|].
  exact (sources_and_sinks_of_built_graph key_order
           [AddOperator (Some 0%nat); AddOperator (Some 1%nat); ConnectOperators 0 1;
            AddOperator (Some 2%nat); ConnectOperators 1 2] H).
Defined.

(** Registered identifiers were handed out. *)
Lemma operators_allocated_run_calls (cs : list call) :
  ∀ g, calls_allocated g cs →
    (∀ id, is_Some (operators_ g !! id) → id < next_operator_id_ g) →
    ∀ id, is_Some (operators_ (run_calls g cs) !! id) →
      id < next_operator_id_ (run_calls g cs).
Proof.
  induction cs as [|c cs IH]; intros g Hcs Hinv; simpl in *; [done|].
  destruct Hcs as [Hc Hcs]. apply IH; [done|].
  intros id. destruct c as [op|s t|id']; simpl in *.
  - rewrite (size_t_incr_small _ Hc), lookup_insert.
    case_decide; [lia|]. intros Hid%Hinv. lia.
  - apply Hinv.
  - rewrite lookup_delete. case_decide; [by intros [? ?]|apply Hinv].
Qed.

Lemma empty_list_no_elements (v : list N) : (∀ x, x ∉ v) → v = [].
Proof.
  destruct v as [|x v]; [done|]. intros H. exfalso. apply (H x). by left.
Qed.

(** X6. On a graph built by calls that name only identifiers already
    handed out, [addOperator] returns an identifier that is not in use: no
    operator is registered under it and no edge mentions it. The new
    operator is registered under it, the operator count grows by one, and
    every other operator and every adjacency list stays as it was. *)
Theorem addOperator_fresh (cs : list call) (op : OperatorPtr) :
  calls_allocated empty_graph cs →
  let g := run_calls empty_graph cs in
  let id := (addOperator g op).1 in
  let g' := (addOperator g op).2 in
  operators_ g !! id = None
  ∧ (∀ a, (id ∉ getSuccessors g a) ∧ (id ∉ getPredecessors g a))
  ∧ operators_ g' !! id = Some op
  ∧ getOperatorCount g' = S (getOperatorCount g)
  ∧ (∀ a, a ≠ id → operators_ g' !! a = operators_ g !! a)
  ∧ (∀ a, getSuccessors g' a = getSuccessors g a
          ∧ getPredecessors g' a = getPredecessors g a).
Proof.
  intros Hcs g id g'.
  destruct (run_calls_keep_transposed cs empty_graph Hcs) as [Htr Halloc].
  { split; [by intros a b|].
    intros a b Hb. unfold getSuccessors in Hb. simpl in Hb.
    rewrite lookup_empty in Hb. by apply elem_of_nil in Hb. }
  pose proof (operators_allocated_run_calls cs empty_graph Hcs) as Hops.
  fold g in Htr, Halloc, Hops.
  assert (operators_ g !! id = None) as Hfresh.
  { destruct (operators_ g !! id) eqn:E; [|done].
    assert (id < next_operator_id_ g) as Hlt.
    { apply Hops; [|by rewrite E]. intros k. simpl. rewrite lookup_empty. by intros [? ?]. }
    subst id. simpl in Hlt. lia. }
  assert (getSuccessors g id = []) as Hsucc.
  { apply empty_list_no_elements. intros b Hb%Halloc. subst id. simpl in Hb. lia. }
  assert (getPredecessors g id = []) as Hpred.
  { apply empty_list_no_elements. intros a Ha.
    apply occurrences_elem_of in Ha. apply Ha. rewrite <- Htr.
    apply fresh_id_unused; auto. }
  split; [done|].
  split.
  { intros a. split.
    - intros Hin%Halloc. subst id. simpl in Hin. lia.
    - intros Hin. apply occurrences_elem_of in Hin. rewrite <- Htr in Hin.
      apply occurrences_elem_of in Hin. rewrite Hsucc in Hin.
      by apply elem_of_nil in Hin. }
  split; [subst g' id; simpl; apply lookup_insert_eq|].
  split.
  { subst g'. unfold getOperatorCount, Graph.size. simpl.
    by apply map_size_insert_None. }
  split.
  - intros a Ha. subst g' id. simpl. by apply lookup_insert_ne.
  - intros a. subst g'. rewrite getSuccessors_addOperator, getPredecessors_addOperator.
    destruct (decide (next_operator_id_ g = a)) as [<-|]; [|done].
    subst id. simpl in Hsucc, Hpred. by rewrite Hsucc, Hpred.
Qed.

Lemma addOperator_fresh_witness :
  calls_allocated empty_graph
    [AddOperator (Some 0%nat); AddOperator (Some 1%nat); ConnectOperators 0 1;
     AddOperator (Some 2%nat); ConnectOperators 1 2]
  ∧ (addOperator pipeline (Some 3%nat)).1 = 3
  ∧ operators_ pipeline !! 3 = None
  ∧ getOperatorCount (addOperator pipeline (Some 3%nat)).2
    = S (getOperatorCount pipeline).
Proof.
  assert (calls_allocated empty_graph
            [AddOperator (Some 0%nat); AddOperator (Some 1%nat); ConnectOperators 0 1;
             AddOperator (Some 2%nat); ConnectOperators 1 2]) as H.
  { vm_compute. repeat split. }
  split; [exact H|]. split; [by vm_compute|].
  destruct (addOperator_fresh _ (Some 3%nat) H) as (H1 & _ & _ & H3 & _).
  split; [exact H1|exact H3].
Defined.

(** X7. A graph built by calls that name only identifiers already handed
    out, whose edges all join registered operators, that has at least one
    operator and on which [validate()] is true, has a source and a sink:
    [getSourceOperators] and [getSinkOperators] both return a non-empty
    vector. *)
Theorem valid_graph_has_source_and_sink
    (iteration : gmap N OperatorPtr → list N) (cs : list call) :
  iterates_keys iteration →
  calls_allocated empty_graph cs →
  let g := run_calls empty_graph cs in
  edges_registered g →
  operators_ g ≠ ∅ →
  validate iteration g = Return true →
  ∃ sources sinks source sink,
    getSourceOperators iteration g = Some sources
    ∧ getSinkOperators iteration g = Some sinks
    ∧ source ∈ sources ∧ sink ∈ sinks.
Proof.
  intros Hiter Hcs g Hreg Hnonempty Hvalid.
  destruct (sources_and_sinks_spec iteration g Hiter)
    as (sources & sinks & Hsources & Hsinks & Hsrc & Hsnk).
  { apply adjacency_keys_run_calls, adjacency_keys_empty_graph. }
  destruct (run_calls_keep_transposed cs empty_graph Hcs) as [Htr _].
  { split; [by intros a b|].
    intros a b Hb. unfold getSuccessors in Hb. simpl in Hb.
    rewrite lookup_empty in Hb. by apply elem_of_nil in Hb. }
  fold g in Htr.
  destruct (traversal_outcome iteration Hiter g) as (c & st & Hrun & Hdet & _).
  unfold validate, isValid in Hvalid. rewrite Hdet in Hvalid. simpl in Hvalid.
  destruct c; [done|]. clear Hvalid.
  destruct (sort_roots_inv g (λ k, is_Some (operators_ g !! k))
              (λ a b _ Hb, proj2 (edges_registered_successor g a b Hreg Hb))
              (dfs_fuel g) (iteration (operators_ g)) _ st
              (dfs_inv_initial g _ (iteration (operators_ g))))
    as [[Hinv _ _] Hall]; [|intros k; apply flag_init_flags|done|].
  { intros r Hr. by apply (elem_of_iteration iteration Hiter). }
  assert (∀ k, k ∈ topo_order st → is_Some (operators_ g !! k)) as Hlisted.
  { intros k Hk. apply (inv_within _ _ _ Hinv).
    by apply (inv_done _ _ _ Hinv) in Hk as [? _]. }
  apply map_choose in Hnonempty as (r & op & Hr).
  assert (r ∈ topo_order st) as Hrin.
  { apply Hall, (elem_of_iteration iteration Hiter). by rewrite Hr. }
  assert (topo_order st ≠ []) as Hne.
  { intros Hnil. rewrite Hnil in Hrin. by apply elem_of_nil in Hrin. }
  destruct (exists_last Hne) as (l' & z & Hlast).
  assert (∃ x l, topo_order st = x :: l) as (x & l & Hhead).
  { destruct (topo_order st) as [|x l]; [done|by eauto]. }
  exists sources, sinks, z, x. split; [done|]. split; [done|]. split.
  - apply Hsrc.
    split; [apply Hlisted; rewrite Hlast; apply elem_of_app; right; by left|].
    apply empty_list_no_elements. intros p Hp.
    assert (edge g p z) as Hedge.
    { apply occurrences_elem_of. rewrite Htr. by apply occurrences_elem_of. }
    destruct (edges_registered_successor g p z Hreg Hedge) as [Hpreg _].
    apply (elem_of_iteration iteration Hiter), Hall in Hpreg.
    apply list_elem_of_lookup in Hpreg as [i Hi].
    destruct (CycleFacts.postorder_edge g _ st p z i Hinv Hi Hedge) as (j & Hj & Hlt).
    assert (topo_order st !! length l' = Some z) as Hzl.
    { rewrite Hlast. by apply list_lookup_middle. }
    pose proof (NoDup_lookup _ _ _ _ (inv_nodup _ _ _ Hinv) Hj Hzl) as ->.
    apply lookup_lt_Some in Hi. rewrite Hlast, length_app in Hi.
    simpl in Hi. lia.
  - apply Hsnk. split; [apply Hlisted; rewrite Hhead; by left|].
    apply empty_list_no_elements. intros b Hb.
    assert (b ∈ []) as Hnil; [|by apply elem_of_nil in Hnil].
    by apply (inv_post _ _ _ Hinv [] x l).
Qed.

Lemma valid_graph_has_source_and_sink_witness :
  iterates_keys key_order
  ∧ calls_allocated empty_graph
      [AddOperator (Some 0%nat); AddOperator (Some 1%nat); ConnectOperators 0 1;
       AddOperator (Some 2%nat); ConnectOperators 1 2]
  ∧ edges_registered pipeline
  ∧ operators_ pipeline ≠ ∅
  ∧ validate key_order pipeline = Return true
  ∧ ∃ sources sinks source sink,
      getSourceOperators key_order pipeline = Some sources
      ∧ getSinkOperators key_order pipeline = Some sinks
      ∧ source ∈ sources ∧ sink ∈ sinks.
Proof.
  assert (iterates_keys key_order) as H1 by (intros m; reflexivity).
  assert (calls_allocated empty_graph
            [AddOperator (Some 0%nat); AddOperator (Some 1%nat); ConnectOperators 0 1;
             AddOperator (Some 2%nat); ConnectOperators 1 2]) as H2
    by (vm_compute; repeat split).
  assert (edges_registered pipeline) as H3
    by (unfold edges_registered; apply (bool_decide_unpack _); vm_compute; exact I).
  assert (operators_ pipeline ≠ ∅) as H4
    by (apply (bool_decide_unpack _); vm_compute; exact I).
  assert (validate key_order pipeline = Return true) as H5 by (vm_compute; reflexivity).
  split; [exact H1|]. split; [exact H2|]. split; [exact H3|].
  split; [exact H4|]. split; [exact H5|].
  exact (valid_graph_has_source_and_sink key_order _ H1 H2 H3 H4 H5).
Defined.

End GraphEditFacts.

(** ** The life cycle of submitted graphs *)

Module LifecycleFacts.

Import Graph Engine GraphFacts EngineFacts.

Section lifecycle.

Variable iteration : gmap N OperatorPtr → list N.

Lemma consistent_set_state (e : StreamEngine) (id : N) (s : GraphState) :
  consistent e → is_Some (submitted_graphs_ e !! id) →
  s ≠ UNKNOWN → s ≠ ERROR →
  consistent (set_state id s e).
Proof.
  intros (Hkeys & Hnull & Hstates) Hid Hs1 Hs2. split; [|split]; simpl; [|done|].
  - intros id'. rewrite lookup_insert. case_decide; [subst; naive_solver|apply Hkeys].
  - intros id' s'. rewrite lookup_insert. case_decide; [naive_solver|apply Hstates].
Qed.

Lemma consistent_stopGraph (e : StreamEngine) (id : N) :
  consistent e → consistent (stopGraph id e).
Proof.
  intros Hc. unfold stopGraph.
  destruct (submitted_graphs_ e !! id) eqn:E; [|done].
  apply consistent_set_state; [done|by rewrite E|done..].
Qed.

Lemma consistent_run_call (e : StreamEngine) (c : call) :
  consistent e → consistent (run_call iteration e c).
Proof.
  intros Hc. destruct c as [h graph|h id|id|id|id]; simpl.
  - unfold submitGraph. destruct graph as [p|]; [|done].
    destruct (validate iteration (h p)) as [[|]| |]; simpl; try done.
    destruct Hc as (Hkeys & Hnull & Hstates). split; [|split]; simpl.
    + intros id'. rewrite !lookup_insert. case_decide; [naive_solver|apply Hkeys].
    + intros id'. rewrite lookup_insert. case_decide; [naive_solver|apply Hnull].
    + intros id' s. rewrite lookup_insert. case_decide; [naive_solver|apply Hstates].
  - unfold executeGraph.
    destruct (submitted_graphs_ e !! id) as [[p|]|] eqn:E; simpl; try done.
    assert (consistent (set_state id RUNNING e)) as Hrun
      by (apply consistent_set_state; [done|by rewrite E|done..]).
    destruct (getTopologicalOrder iteration (h p)) as [[|? ?]| |]; simpl; try done.
    apply consistent_set_state; [done|simpl; by rewrite E|done..].
  - unfold executeGraphAsync.
    destruct (submitted_graphs_ e !! id) eqn:E; simpl; [|done].
    apply consistent_set_state; [|simpl; by rewrite E|done..].
    apply consistent_set_state; [done|by rewrite E|done..].
  - by apply consistent_stopGraph.
  - destruct (consistent_stopGraph e id Hc) as (Hkeys & Hnull & Hstates).
    assert (submitted_graphs_ (stopGraph id e) = submitted_graphs_ e) as Hsame.
    { unfold stopGraph. by destruct (submitted_graphs_ e !! id). }
    unfold removeGraph. split; [|split]; simpl.
    + intros id'. rewrite !lookup_delete. case_decide; [naive_solver|apply Hkeys].
    + intros id'. rewrite lookup_delete. case_decide; [done|apply Hnull].
    + intros id' s. rewrite lookup_delete. case_decide; [done|apply Hstates].
Qed.

Lemma consistent_run_calls (cs : list call) :
  ∀ e, consistent e → consistent (run_calls iteration e cs).
Proof.
  induction cs as [|c cs IH]; intros e Hc; simpl; [done|].
  by apply IH, consistent_run_call.
Qed.

Lemma consistent_new_engine (mode : ExecutionMode) : consistent (new_engine mode).
Proof.
  split; [|split]; simpl; intros id; rewrite ?lookup_empty; done.
Qed.

End lifecycle.

(** X8. On an engine with any history of calls, [getGraphState] returns
    Unknown exactly for the identifiers that are not registered, it never
    returns Error (no call ever records that state), and no registered
    graph pointer is null. *)
Theorem graph_states_of_any_history
    (iteration : gmap N OperatorPtr → list N) (mode : ExecutionMode)
    (history : list call) (graph_id : N) :
  let e := run_calls iteration (new_engine mode) history in
  (getGraphState e graph_id = UNKNOWN ↔ submitted_graphs_ e !! graph_id = None)
  ∧ getGraphState e graph_id ≠ ERROR
  ∧ submitted_graphs_ e !! graph_id ≠ Some None.
Proof.
  intros e.
  destruct (consistent_run_calls iteration history _ (consistent_new_engine mode))
    as (Hkeys & Hnull & Hstates).
  fold e in Hkeys, Hnull, Hstates. unfold getGraphState.
  specialize (Hkeys graph_id). specialize (Hstates graph_id).
  destruct (graph_states_ e !! graph_id) as [s|] eqn:Es.
  - destruct (Hstates s eq_refl) as [Hs1 Hs2].
    split; [|done]. split; [done|].
    intros Hnone. rewrite Hnone in Hkeys. destruct Hkeys as [_ Hkeys].
    by destruct Hkeys as [? ?]; [eexists|].
  - split; [|done]. split; [|done]. intros _.
    destruct (submitted_graphs_ e !! graph_id) eqn:E; [|done].
    destruct Hkeys as [Hkeys _]. by destruct Hkeys as [? ?]; [eexists|].
Qed.

(** The topological order is non-empty exactly for a graph that validates
    and has an operator. *)
Lemma order_nonempty_iff
    (iteration : gmap N OperatorPtr → list N) (g : ExecutionGraph) :
  iterates_keys iteration →
  ∃ order, getTopologicalOrder iteration g = Return order
    ∧ (order ≠ [] ↔ validate iteration g = Return true ∧ operators_ g ≠ ∅).
Proof.
  intros Hiter.
  destruct (traversal_outcome iteration Hiter g) as (c & st & Hrun & Hdet & Hord).
  exists (if c then [] else reverse (topo_order st)). split; [done|].
  unfold validate, isValid. rewrite Hdet. simpl. destruct c; simpl.
  - split; [done|]. by intros [? _].
  - split.
    + intros Hne. split; [done|]. intros Hempty.
      apply (iteration_nil iteration Hiter) in Hempty. rewrite Hempty in Hrun.
      simpl in Hrun. by simplify_eq.
    + intros [_ Hne] Hnil. apply map_choose in Hne as (r & op & Hr).
      destruct (sort_roots_inv g (λ _, True) (λ _ _ _ _, I) (dfs_fuel g)
                  (iteration (operators_ g)) _ st
                  (dfs_inv_initial g _ (iteration (operators_ g))))
        as [_ Hall]; [done|intros k; apply flag_init_flags|done|].
      assert (r ∈ topo_order st) as Hin.
      { apply Hall, (elem_of_iteration iteration Hiter). by rewrite Hr. }
      apply (f_equal reverse) in Hnil. rewrite reverse_involutive in Hnil.
      rewrite Hnil in Hin. by apply elem_of_nil in Hin.
Qed.

(** X9. On an engine with any history of calls, [executeGraph(id)] throws
    "Graph ID ... not found" for an identifier that is not registered and
    leaves the engine as it was. For a registered graph it returns exactly
    when the graph, as it is at that moment, validates and has at least one
    operator, and the state is then Completed; otherwise it throws "Graph
    contains cycles or is invalid" and the state stays Running. It never
    finds a null graph pointer. *)
Theorem executeGraph_outcome
    (iteration : gmap N OperatorPtr → list N) (mode : ExecutionMode)
    (history : list call) (h : store) (graph_id : N) :
  iterates_keys iteration →
  let e := run_calls iteration (new_engine mode) history in
  match submitted_graphs_ e !! graph_id with
  | None =>
      executeGraph iteration h graph_id e
      = (Throw (runtime_error (GraphIdNotFound graph_id)), e)
  | Some graph =>
      ∃ p, graph = Some p ∧
        ((validate iteration (h p) = Return true ∧ operators_ (h p) ≠ ∅
          ∧ executeGraph iteration h graph_id e
            = (Return tt, set_state graph_id COMPLETED (set_state graph_id RUNNING e))
          ∧ getGraphState (executeGraph iteration h graph_id e).2 graph_id = COMPLETED)
         ∨ ((validate iteration (h p) = Return false ∨ operators_ (h p) = ∅)
            ∧ executeGraph iteration h graph_id e
              = (Throw (runtime_error GraphCyclesOrInvalid),
                 set_state graph_id RUNNING e)
            ∧ getGraphState (executeGraph iteration h graph_id e).2 graph_id
              = RUNNING))
  end.
Proof.
  intros Hiter e.
  destruct (consistent_run_calls iteration history _ (consistent_new_engine mode))
    as (_ & Hnull & _). fold e in Hnull.
  unfold executeGraph.
  destruct (submitted_graphs_ e !! graph_id) as [[p|]|] eqn:E; [|by apply Hnull in E|done].
  exists p. split; [done|].
  destruct (order_nonempty_iff iteration (h p) Hiter) as (order & -> & Hiff).
  destruct (validate_returns iteration Hiter (h p)) as [b Hb].
  destruct order as [|x order].
  - right. split.
    + destruct b; [|by left]. right.
      destruct (decide (operators_ (h p) = ∅)) as [|Hne]; [done|].
      exfalso. by apply (proj2 Hiff).
    + split; [done|]. simpl. rewrite getGraphState_set_state. by rewrite decide_True.
  - left. destruct (proj1 Hiff) as [Hv Hne]; [done|].
    split; [done|]. split; [done|]. split; [done|].
    simpl. rewrite getGraphState_set_state. by rewrite decide_True.
Qed.

Lemma executeGraph_outcome_witness :
  iterates_keys key_order
  ∧ executeGraph key_order cyclic_store 0
      (run_calls key_order (new_engine SINGLE_THREADED)
         [SubmitGraph pipeline_store (Some 0%nat)])
    = (Throw (runtime_error GraphCyclesOrInvalid),
       set_state 0 RUNNING
         (run_calls key_order (new_engine SINGLE_THREADED)
            [SubmitGraph pipeline_store (Some 0%nat)]))
  ∧ match submitted_graphs_
            (run_calls key_order (new_engine SINGLE_THREADED)
               [SubmitGraph pipeline_store (Some 0%nat)]) !! 7 with
    | None =>
        executeGraph key_order pipeline_store 7
          (run_calls key_order (new_engine SINGLE_THREADED)
             [SubmitGraph pipeline_store (Some 0%nat)])
        = (Throw (runtime_error (GraphIdNotFound 7)),
           run_calls key_order (new_engine SINGLE_THREADED)
             [SubmitGraph pipeline_store (Some 0%nat)])
    | Some _ => True
    end.
Proof.
  split; [exact key_order_iterates_keys|]. split; [by vm_compute|].
  pose proof (executeGraph_outcome key_order SINGLE_THREADED
                [SubmitGraph pipeline_store (Some 0%nat)] pipeline_store 7
                key_order_iterates_keys) as H.
  simpl in H.
  destruct (submitted_graphs_ _ !! 7); [exact I|exact H].
Defined.

(** X10. On an engine with any history of calls (short of wrapping the
    64-bit counter), after [removeGraph(id)] the identifier is unknown:
    [getGraphState] returns Unknown, [executeGraph] throws "Graph ID ... not
    found" and [stopGraph] does nothing. Every other graph keeps its pointer
    and its state, and if the identifier was registered, no [submitGraph]
    made later, after any further calls, hands it out again. *)
Theorem removeGraph_forgets
    (iteration : gmap N OperatorPtr → list N) (mode : ExecutionMode)
    (history : list call) (h : store) (graph_id : N) :
  iterates_keys iteration →
  N.of_nat (length history) + 1 < SIZE_MAX_plus_1 →
  let e := run_calls iteration (new_engine mode) history in
  let e' := removeGraph graph_id e in
  getGraphState e' graph_id = UNKNOWN
  ∧ executeGraph iteration h graph_id e'
    = (Throw (runtime_error (GraphIdNotFound graph_id)), e')
  ∧ stopGraph graph_id e' = e'
  ∧ (∀ id, id ≠ graph_id →
       getGraphState e' id = getGraphState e id
       ∧ submitted_graphs_ e' !! id = submitted_graphs_ e !! id)
  ∧ (is_Some (submitted_graphs_ e !! graph_id) →
     ∀ later h2 graph2 id2,
       N.of_nat (length history) + N.of_nat (length later) + 1 < SIZE_MAX_plus_1 →
       (submitGraph iteration h2 graph2 (run_calls iteration e' later)).1
         = Return id2 →
       graph_id < id2).
Proof.
  intros Hiter Hsmall e e'.
  assert (submitted_graphs_ e' = delete graph_id (submitted_graphs_ e)) as Hgraphs.
  { subst e'. unfold removeGraph, stopGraph. simpl.
    by destruct (submitted_graphs_ e !! graph_id). }
  assert (∀ id, id ≠ graph_id →
            graph_states_ e' !! id = graph_states_ e !! id) as Hstates.
  { intros id Hid. subst e'. unfold removeGraph, stopGraph. simpl.
    rewrite lookup_delete_ne by done.
    destruct (submitted_graphs_ e !! graph_id); [|done].
    simpl. by rewrite lookup_insert_ne. }
  split.
  { subst e'. unfold getGraphState, removeGraph. simpl. by rewrite lookup_delete_eq. }
  split.
  { unfold executeGraph. by rewrite Hgraphs, lookup_delete_eq. }
  split.
  { unfold stopGraph. by rewrite Hgraphs, lookup_delete_eq. }
  split.
  { intros id Hid. unfold getGraphState. rewrite Hstates by done.
    split; [done|]. rewrite Hgraphs. by apply lookup_delete_ne. }
  intros Hreg later h2 graph2 id2 Hlater Hsubmit.
  destruct (run_calls_allocated iteration Hiter history (new_engine mode)
              (ids_allocated_new_engine mode)) as ([Hids _] & _ & Hbound);
    [simpl; lia|].
  fold e in Hids, Hbound. simpl in Hbound. apply Hids in Hreg.
  destruct (run_calls_allocated iteration Hiter (RemoveGraph graph_id :: later) e)
    as (_ & Hle & _).
  { destruct (run_calls_allocated iteration Hiter history (new_engine mode)
                (ids_allocated_new_engine mode)) as (Hinv & _); [simpl; lia|done]. }
  { simpl. lia. }
  change (run_calls iteration e (RemoveGraph graph_id :: later))
    with (run_calls iteration e' later) in Hle.
  set (e2 := run_calls iteration e' later) in *.
  pose proof (submitGraph_cases iteration Hiter h2 graph2 e2) as Hcases.
  destruct graph2 as [p|]; [|by rewrite Hcases in Hsubmit].
  destruct Hcases as (valid & _ & Heq). rewrite Heq in Hsubmit.
  destruct valid; simpl in Hsubmit; [|done].
  simplify_eq. lia.
Qed.

Lemma removeGraph_forgets_witness :
  iterates_keys key_order
  ∧ N.of_nat (length [SubmitGraph pipeline_store (Some 0%nat); StopGraph 0]) + 1
    < SIZE_MAX_plus_1
  ∧ getGraphState (removeGraph 0 stopped_engine) 0 = UNKNOWN
  ∧ executeGraph key_order pipeline_store 0 (removeGraph 0 stopped_engine)
    = (Throw (runtime_error (GraphIdNotFound 0)), removeGraph 0 stopped_engine)
  ∧ is_Some (submitted_graphs_ stopped_engine !! 0)
  ∧ (submitGraph key_order pipeline_store (Some 0%nat)
       (run_calls key_order (removeGraph 0 stopped_engine)
          [SubmitGraph pipeline_store (Some 0%nat); ExecuteGraph pipeline_store 1])).1
    = Return 2
  ∧ 0 < 2.
Proof.
  assert (N.of_nat (length [SubmitGraph pipeline_store (Some 0%nat); StopGraph 0]) + 1
          < SIZE_MAX_plus_1) as H2 by (vm_compute; reflexivity).
  assert (is_Some (submitted_graphs_ stopped_engine !! 0)) as Hreg
    by (vm_compute; eauto).
  assert ((submitGraph key_order pipeline_store (Some 0%nat)
             (run_calls key_order (removeGraph 0 stopped_engine)
                [SubmitGraph pipeline_store (Some 0%nat);
                 ExecuteGraph pipeline_store 1])).1 = Return 2) as Hsubmit
    by (vm_compute; reflexivity).
  split; [exact key_order_iterates_keys|]. split; [exact H2|].
  destruct (removeGraph_forgets key_order SINGLE_THREADED
              [SubmitGraph pipeline_store (Some 0%nat); StopGraph 0]
              pipeline_store 0 key_order_iterates_keys H2) as (H3 & H4 & _ & _ & H5).
  split; [exact H3|]. split; [exact H4|]. split; [exact Hreg|].
  split; [exact Hsubmit|].
  refine (H5 Hreg [SubmitGraph pipeline_store (Some 0%nat);
                   ExecuteGraph pipeline_store 1]
            pipeline_store (Some 0%nat) 2 _ Hsubmit).
  vm_compute; reflexivity.
Defined.

End LifecycleFacts.

(** ** Filter and sink functions *)

Module FilterSinkFacts.

Import Function.

Section filter_sink_facts.

Context {Message World : Type}.

Local Open Scope nat_scope.

(** What the filter loop adds to its accumulator is a subsequence of its
    input without nil entries. *)
Lemma FilterFunction_loop_sublist (filter_func_ : option (FilterFunc Message World))
    (messages : list (option Message)) :
  ∀ result w out w',
    FilterFunction_loop filter_func_ messages result w = (Return out, w') →
    ∃ kept, out = result ++ kept ∧ sublist kept messages ∧ Forall is_Some kept.
Proof.
  induction messages as [|[m|] rest IH]; intros result w out w' Hrun; simpl in Hrun.
  - simplify_eq. exists []. by rewrite app_nil_r.
  - destruct filter_func_ as [f|].
    + destruct (f m w) as [[[|]| |] w1]; try done.
      * destruct (IH _ _ _ _ Hrun) as (kept & -> & Hsub & Hall).
        exists (Some m :: kept). unfold addMessage. rewrite <- app_assoc.
        split; [done|]. split; [by apply sublist_skip|]. by constructor.
      * destruct (IH _ _ _ _ Hrun) as (kept & -> & Hsub & Hall).
        exists kept. split; [done|]. split; [by apply sublist_cons|done].
    + destruct (IH _ _ _ _ Hrun) as (kept & -> & Hsub & Hall).
      exists (Some m :: kept). unfold addMessage. rewrite <- app_assoc.
      split; [done|]. split; [by apply sublist_skip|]. by constructor.
  - destruct (IH _ _ _ _ Hrun) as (kept & -> & Hsub & Hall).
    exists kept. split; [done|]. split; [by apply sublist_cons|done].
Qed.

Lemma FilterFunction_loop_unset (messages : list (option Message)) :
  ∀ result (w : World),
    FilterFunction_loop None messages result w
    = (Return (result ++ (Some <$> present messages)), w).
Proof.
  induction messages as [|[m|] rest IH]; intros result w; simpl.
  - by rewrite app_nil_r.
  - rewrite IH. unfold addMessage. by rewrite <- app_assoc.
  - apply IH.
Qed.

Lemma FilterFunction_loop_pure (f : FilterFunc Message World) (p : Message → bool)
    (messages : list (option Message)) :
  (∀ m w, f m w = (Return (p m), w)) →
  ∀ result w,
    FilterFunction_loop (Some f) messages result w
    = (Return (result ++ (Some <$> filter (λ m, p m = true) (present messages))), w).
Proof.
  intros Hpure.
  induction messages as [|[m|] rest IH]; intros result w; simpl.
  - by rewrite app_nil_r.
  - rewrite Hpure. unfold present. simpl. rewrite filter_cons.
    destruct (p m) eqn:Hp; simpl.
    + rewrite IH. unfold addMessage. by rewrite <- app_assoc.
    + apply IH.
  - apply IH.
Qed.

(** X11. Whenever [FilterFunction::execute] returns, its output is a
    subsequence of the input (same messages, same order, nothing added or
    changed) without nil entries, and the input response is left empty.
    With no predicate set, every non-nil input message is forwarded; with a
    predicate that has no side effect, exactly the non-nil messages it
    accepts are. *)
Theorem FilterFunction_execute_subsequence
    (this : FilterFunction Message World) (response : FunctionResponse Message)
    (w : World) :
  (∀ out rest w',
     FilterFunction_execute this response w = (Return (out, rest), w') →
     sublist out response ∧ Forall is_Some out ∧ rest = [])
  ∧ (filter_func_ this = None →
     FilterFunction_execute this response w
     = (Return (Some <$> present response, []), w))
  ∧ (∀ f p, filter_func_ this = Some f → (∀ m w0, f m w0 = (Return (p m), w0)) →
     FilterFunction_execute this response w
     = (Return (Some <$> filter (λ m, p m = true) (present response), []), w)).
Proof.
  unfold FilterFunction_execute. split; [|split].
  - intros out rest w' Hrun.
    destruct (FilterFunction_loop _ _ _ _) as [[result| |] w1] eqn:Hloop; [|done..].
    simplify_eq.
    destruct (FilterFunction_loop_sublist _ _ _ _ _ _ Hloop) as (kept & -> & ? & ?).
    done.
  - intros ->. by rewrite FilterFunction_loop_unset.
  - intros f p -> Hpure. by rewrite (FilterFunction_loop_pure f p).
Qed.

(** The sink loop with a callback that always returns: one call for each
    non-nil message, in order. *)
Lemma SinkFunction_loop_calls (f : SinkFunc Message World)
    (messages : list (option Message)) :
  (∀ m w, (f m w).1 = Return tt) →
  ∀ w, SinkFunction_loop (Some f) messages w
       = (Return tt, foldl (λ w0 m, (f m w0).2) w (present messages)).
Proof.
  intros Hreturns.
  induction messages as [|[m|] rest IH]; intros w; simpl; [done| |apply IH].
  specialize (Hreturns m w). destruct (f m w) as [r w1]. simpl in *. subst r.
  apply IH.
Qed.

Lemma SinkFunction_loop_unset (messages : list (option Message)) (w : World) :
  SinkFunction_loop None messages w = (Return tt, w).
Proof.
  induction messages as [|[m|] rest IH]; simpl; done.
Qed.

(** X12. [SinkFunction::execute] consumes its input: whenever it returns,
    the result is empty and the input response is left empty. With a
    callback that always returns, the callback has been called once for
    each non-nil message, in input order; with no callback set, nothing
    else happens. *)
Theorem SinkFunction_execute_consumes
    (this : SinkFunction Message World) (response : FunctionResponse Message)
    (w : World) :
  (∀ out rest w',
     SinkFunction_execute this response w = (Return (out, rest), w') →
     out = [] ∧ rest = [])
  ∧ (sink_func_ this = None →
     SinkFunction_execute this response w = (Return ([], []), w))
  ∧ (∀ f, sink_func_ this = Some f → (∀ m w0, (f m w0).1 = Return tt) →
     SinkFunction_execute this response w
     = (Return ([], []), foldl (λ w0 m, (f m w0).2) w (present response))).
Proof.
  unfold SinkFunction_execute. split; [|split].
  - intros out rest w' Hrun.
    destruct (SinkFunction_loop _ _ _) as [[[]| |] w1]; by simplify_eq.
  - intros ->. by rewrite SinkFunction_loop_unset.
  - intros f -> Hreturns. by rewrite (SinkFunction_loop_calls f).
Qed.

End filter_sink_facts.

End FilterSinkFacts.

(** ** Counters and emissions of the operators *)

Module ProcessFacts.

Import Function Operator.

Section process_facts.

Context {Message World : Type}.

Lemma emit_outputs_counters (output_messages : list (option Message)) :
  ∀ (has_output : bool) (op : Operator Message),
    output_count_ (emit_outputs output_messages has_output op).2
      = output_count_ op + N.of_nat (length (present output_messages))
    ∧ processed_count_ (emit_outputs output_messages has_output op).2
      = processed_count_ op.
Proof.
  induction output_messages as [|[m|] rest IH]; intros has_output op; simpl.
  - split; [lia|done].
  - destruct (IH true (incrementOutputCount (emit 0 m op))) as [-> ->]. simpl.
    split; [lia|done].
  - apply IH.
Qed.

Lemma emit_outputs_result (output_messages : list (option Message))
    (has_output : bool) (op : Operator Message) :
  emit_outputs output_messages has_output op
  = (has_output || bool_decide (present output_messages ≠ []),
     {| processed_count_ := processed_count_ op;
        output_count_ := output_count_ op + N.of_nat (length (present output_messages));
        emitted_ := emitted_ op ++ ((λ m, (0%Z, m)) <$> present output_messages) |}).
Proof.
  destruct (OperatorFacts.emit_outputs_emitted output_messages has_output op)
    as [Hemitted Hbool].
  destruct (emit_outputs_counters output_messages has_output op) as [Hout Hproc].
  destruct (emit_outputs output_messages has_output op) as [b [pc oc em]].
  simpl in *. by subst.
Qed.


(** A filter function maps a single message to itself or to nothing. *)
Lemma FilterFunction_execute_single (fn : FilterFunction Message World)
    (m : Message) (w w' : World) (out rest : FunctionResponse Message) :
  FilterFunction_execute fn [Some m] w = (Return (out, rest), w') →
  out = [Some m] ∨ out = [].
Proof.
  unfold FilterFunction_execute. simpl.
  destruct (filter_func_ fn) as [f|]; simpl.
  - destruct (f m w) as [[[|]| |] w1]; simpl; intros ?; simplify_eq; auto.
  - intros ?; simplify_eq. auto.
Qed.

(** X14. A [FilterOperator] with a function set either forwards the input
    message itself, unchanged, on slot 0 or emits nothing: when [process]
    returns on a record that holds a message, the result tells which, the
    processed counter went up by one and the output counter by the number of
    messages emitted. With a predicate that has no side effect the result is
    the predicate's answer. *)
Theorem FilterOperator_forwards_input
    (this : FilterOperator Message World) (fn : FilterFunction Message World)
    (input_record : Response Message) (m : Message) (slot : Z) (w : World) :
  filter_function_ this = Some fn →
  hasMessage input_record = true →
  getMessage input_record = Some m →
  (∀ b op' w',
     FilterOperator_process this input_record slot w = (Return b, op', w') →
     emitted_ op' = emitted_ (filter_operator this) ++ (if b then [(0%Z, m)] else [])
     ∧ processed_count_ op' = processed_count_ (filter_operator this) + 1
     ∧ output_count_ op'
       = output_count_ (filter_operator this) + (if b then 1 else 0))
  ∧ (∀ f p, filter_func_ fn = Some f → (∀ m0 w0, f m0 w0 = (Return (p m0), w0)) →
     (FilterOperator_process this input_record slot w).1.1 = Return (p m)).
Proof.
  intros Hfn Hhas Hget. unfold FilterOperator_process. rewrite Hfn, Hhas, Hget. simpl.
  split.
  - intros b op' w' Hrun.
    destruct (FilterFunction_execute fn _ w) as [[[out rest]| |] w1] eqn:Hexec;
      [|done..].
    apply FilterFunction_execute_single in Hexec.
    rewrite emit_outputs_result in Hrun. simplify_eq.
    destruct Hexec as [->| ->]; simpl; (split; [by rewrite ?app_nil_r|]); split; lia.
  - intros f p Hf Hpure. unfold FilterFunction_execute. rewrite Hf. simpl.
    rewrite Hpure. by destruct (p m).
Qed.

(** X15. What a [MapOperator] with a function set does with a record that
    holds a message: if the callback leaves a message, that message is
    emitted on slot 0, both counters go up by one and the result is true; if
    the callback resets the pointer, or no callback is set, nothing is
    emitted, only the processed counter goes up and the result is false; if
    the callback throws, the exception leaves [process] and no counter
    changes. *)
Theorem MapOperator_process_message
    (this : MapOperator Message World) (fn : MapFunction Message World)
    (input_record : Response Message) (m : Message) (slot : Z) (w : World) :
  map_function_ this = Some fn →
  hasMessage input_record = true →
  getMessage input_record = Some m →
  MapOperator_process this input_record slot w =
  match map_func_ fn with
  | None => (Return false, incrementProcessedCount (map_operator this), w)
  | Some f =>
      match f m w with
      | (Return (Some m'), w') =>
          (Return true,
           incrementProcessedCount
             (incrementOutputCount (emit 0 m' (map_operator this))), w')
      | (Return None, w') =>
          (Return false, incrementProcessedCount (map_operator this), w')
      | (Throw e, w') => (Throw e, map_operator this, w')
      | (OutOfFuel, w') => (OutOfFuel, map_operator this, w')
      end
  end.
Proof.
  intros Hfn Hhas Hget. unfold MapOperator_process, MapFunction_execute.
  rewrite Hfn, Hhas, Hget. simpl.
  destruct (map_func_ fn) as [f|]; simpl; [|done].
  by destruct (f m w) as [[[m'|]| |] w'].
Qed.

(** X16. For the Map, Filter and Sink operators and every call of
    [process], whatever its outcome: the output counter goes up by exactly
    the number of messages the call emitted, the processed counter goes up
    by at most one, and the messages emitted earlier stay in the queue in
    front of the new ones. *)
Theorem output_count_counts_emissions
    (o : composed_operator Message World) (input_record : Response Message)
    (slot : Z) (w : World) :
  let op' := (process o input_record slot w).1.2 in
  (∃ new, emitted_ op' = emitted_ (base_part o) ++ new
          ∧ output_count_ op'
            = output_count_ (base_part o) + N.of_nat (length new))
  ∧ processed_count_ (base_part o) ≤ processed_count_ op'
  ∧ processed_count_ op' ≤ processed_count_ (base_part o) + 1.
Proof.
  assert (∀ op : Operator Message,
            (∃ new, emitted_ op = emitted_ op ++ new
                    ∧ output_count_ op = output_count_ op + N.of_nat (length new))
            ∧ processed_count_ op ≤ processed_count_ op
            ∧ processed_count_ op ≤ processed_count_ op + 1) as Hsame.
  { intros op. split; [|lia]. exists []. rewrite app_nil_r. simpl. split; [done|lia]. }
  destruct o as [this|this|this]; simpl.
  - unfold MapOperator_process.
    destruct (map_function_ this) as [fn|]; [|apply Hsame].
    destruct (hasMessage input_record); simpl; [|apply Hsame].
    destruct (getMessage input_record) as [m|]; [|apply Hsame].
    destruct (MapFunction_execute fn _ w) as [[[out rest]| |] w1]; [|apply Hsame..].
    rewrite emit_outputs_result. simpl. split; [|lia].
    eexists. split; [done|]. by rewrite length_fmap.
  - unfold FilterOperator_process.
    destruct (filter_function_ this) as [fn|]; [|apply Hsame].
    destruct (hasMessage input_record); simpl; [|apply Hsame].
    destruct (getMessage input_record) as [m|]; [|apply Hsame].
    destruct (FilterFunction_execute fn _ w) as [[[out rest]| |] w1].
    + rewrite emit_outputs_result. simpl. split; [|lia].
      eexists. split; [done|]. by rewrite length_fmap.
    + simpl. split; [|lia]. exists []. rewrite app_nil_r. simpl. split; [done|lia].
    + simpl. split; [|lia]. exists []. rewrite app_nil_r. simpl. split; [done|lia].
  - unfold SinkOperator_process.
    destruct (sink_function_ this) as [fn|]; [|apply Hsame].
    destruct (hasMessage input_record); simpl; [|apply Hsame].
    destruct (getMessage input_record) as [m|]; [|apply Hsame].
    destruct (match sink_override fn with
              | Some overrider => overrider
              | None => SinkFunction_execute fn
              end _ w) as [[r| |] w1]; [|apply Hsame..].
    simpl. split; [|lia]. exists []. rewrite app_nil_r. simpl. split; [done|lia].
Qed.

End process_facts.

Lemma FilterOperator_forwards_input_witness :
  filter_function_ accepting_filter = Some accept_all
  ∧ hasMessage record_7 = true
  ∧ getMessage record_7 = Some 7%nat
  ∧ (FilterOperator_process accepting_filter record_7 0 tt).1.1 = Return true.
Proof.
  assert (filter_function_ accepting_filter = Some accept_all) as H1 by reflexivity.
  assert (hasMessage record_7 = true) as H2 by reflexivity.
  assert (getMessage record_7 = Some 7%nat) as H3 by reflexivity.
  split; [exact H1|]. split; [exact H2|]. split; [exact H3|].
  destruct (FilterOperator_forwards_input accepting_filter accept_all record_7
              7%nat 0 tt H1 H2 H3) as [_ H].
  exact (H (λ _ w, (Return true, w)) (λ _, true) eq_refl (λ _ _, eq_refl)).
Defined.

Lemma MapOperator_process_message_witness :
  map_function_ doubling_map_operator = Some doubling_map
  ∧ hasMessage record_7 = true
  ∧ getMessage record_7 = Some 7%nat
  ∧ MapOperator_process doubling_map_operator record_7 0 tt
    = (Return true,
       incrementProcessedCount (incrementOutputCount (emit 0 14%nat new_operator)),
       tt).
Proof.
  assert (map_function_ doubling_map_operator = Some doubling_map) as H1 by reflexivity.
  assert (hasMessage record_7 = true) as H2 by reflexivity.
  assert (getMessage record_7 = Some 7%nat) as H3 by reflexivity.
  split; [exact H1|]. split; [exact H2|]. split; [exact H3|].
  exact (MapOperator_process_message doubling_map_operator doubling_map record_7
           7%nat 0 tt H1 H2 H3).
Defined.

End ProcessFacts.

(** ** The fluent builder *)

Module DataStreamFacts.

Import Graph Engine GraphFacts.

Lemma store_set_eq (h : store) (p : nat) (g : ExecutionGraph) :
  DataStream.store_set h p g p = g.
Proof. unfold DataStream.store_set. by rewrite decide_True. Qed.

Lemma store_set_ne (h : store) (p q : nat) (g : ExecutionGraph) :
  q ≠ p → DataStream.store_set h p g q = h q.
Proof. intros Hq. unfold DataStream.store_set. by rewrite decide_False. Qed.

Lemma chained_new (p : nat) (h : store) :
  h p = empty_graph → DataStream.chained 0 (DataStream.new_stream p) (h p).
Proof.
  intros ->. split; simpl.
  - done.
  - intros id. rewrite lookup_empty. split; [by intros [? ?]|lia].
  - intros a b Hab. unfold edge, getSuccessors in Hab. simpl in Hab.
    rewrite lookup_empty in Hab. by apply elem_of_nil in Hab.
  - by left.
Qed.

(** Registering one more operator and wiring it to the last one keeps the
    graph chained. *)
Lemma chained_append (count : nat) (ds : DataStream.DataStream) (g : ExecutionGraph)
    (op : nat) :
  DataStream.chained count ds g →
  N.of_nat count + 1 < SIZE_MAX_plus_1 →
  let g1 := (addOperator g (Some op)).2 in
  let g2 := if decide (DataStream.last_operator_id_ ds ≠ DataStream.no_operator)
            then connectOperators g1 (DataStream.last_operator_id_ ds) (N.of_nat count)
            else g1 in
  (addOperator g (Some op)).1 = N.of_nat count
  ∧ DataStream.chained (S count) (DataStream.set_last (N.of_nat count) ds) g1
  ∧ DataStream.chained (S count) (DataStream.set_last (N.of_nat count) ds) g2
  ∧ DataStream.chained (S count) ds g2
  ∧ base.size (operators_ g2) = S (base.size (operators_ g))
  ∧ base.size (operators_ g1) = S (base.size (operators_ g)).
Proof.
  intros [Hnext Hreg Hedges Hlast] Hsmall g1 g2.
  assert (next_operator_id_ g1 = N.of_nat (S count)) as Hnext1.
  { subst g1. simpl. rewrite Hnext, size_t_incr_small by done. lia. }
  assert (∀ id, is_Some (operators_ g1 !! id) ↔ id < N.of_nat (S count)) as Hreg1.
  { intros id. subst g1. simpl. rewrite Hnext, lookup_insert.
    destruct (decide (N.of_nat count = id)) as [<-|Hne].
    - split; [lia|by eauto].
    - rewrite Hreg. lia. }
  assert (∀ a b, edge g1 a b → a < b ∧ b < N.of_nat (S count)) as Hedges1.
  { intros a b Hab%CycleFacts.edge_addOperator%Hedges. lia. }
  assert (base.size (operators_ g1) = S (base.size (operators_ g))) as Hsize.
  { subst g1. simpl. apply map_size_insert_None. rewrite Hnext.
    destruct (operators_ g !! N.of_nat count) eqn:E; [|done].
    assert (N.of_nat count < N.of_nat count) by (apply Hreg; by rewrite E). lia. }
  assert (DataStream.chained (S count) (DataStream.set_last (N.of_nat count) ds) g2
          ∧ DataStream.chained (S count) ds g2
          ∧ base.size (operators_ g2) = S (base.size (operators_ g))) as Hg2.
  { subst g2. destruct (decide (DataStream.last_operator_id_ ds ≠ DataStream.no_operator))
      as [Hset|Hunset].
    - destruct Hlast as [?|Hlast]; [done|].
      assert (∀ a b, edge (connectOperators g1 (DataStream.last_operator_id_ ds)
                             (N.of_nat count)) a b →
                     a < b ∧ b < N.of_nat (S count)) as Hedges2.
      { intros a b [Hab|[-> ->]]%CycleFacts.edge_connectOperators;
          [by apply Hedges1|lia]. }
      split; [|split]; [split; simpl; try done; right; lia
                       |split; simpl; try done; right; lia|done].
    - split; [|split]; [split; simpl; try done; right; lia| |done].
      split; simpl; try done. left.
      by destruct (decide (DataStream.last_operator_id_ ds = DataStream.no_operator));
        [|exfalso; auto]. }
  split; [simpl; done|]. split; [|by destruct Hg2 as (? & ? & ?)].
  split; simpl; try done. right. lia.
Qed.

(** The store after the new operator is registered and wired. *)
Lemma connectToLastOperator_store (ds : DataStream.DataStream) (h : store)
    (g1 : ExecutionGraph) (id : N) :
  let h' := DataStream.connectToLastOperator ds id
              (DataStream.store_set h (DataStream.graph_ ds) g1) in
  h' (DataStream.graph_ ds)
  = (if decide (DataStream.last_operator_id_ ds ≠ DataStream.no_operator)
     then connectOperators g1 (DataStream.last_operator_id_ ds) id
     else g1)
  ∧ ∀ q, q ≠ DataStream.graph_ ds → h' q = h q.
Proof.
  unfold DataStream.connectToLastOperator. simpl.
  destruct (decide (DataStream.last_operator_id_ ds ≠ DataStream.no_operator)).
  - rewrite !store_set_eq. split; [done|]. intros q Hq. by rewrite !store_set_ne.
  - rewrite store_set_eq. split; [done|]. intros q Hq. by rewrite store_set_ne.
Qed.

Lemma run_stage_chained (count : nat) (ds : DataStream.DataStream) (h : store)
    (c : DataStream.stage) :
  DataStream.chained count ds (h (DataStream.graph_ ds)) →
  N.of_nat count + 1 < SIZE_MAX_plus_1 →
  let s' := DataStream.run_stage (ds, h) c in
  DataStream.chained (S count) s'.1 (s'.2 (DataStream.graph_ ds))
  ∧ DataStream.graph_ s'.1 = DataStream.graph_ ds
  ∧ DataStream.graph_id_ s'.1 = DataStream.graph_id_ ds
  ∧ DataStream.is_finalized_ s'.1 = DataStream.is_finalized_ ds
  ∧ (∀ q, q ≠ DataStream.graph_ ds → s'.2 q = h q)
  ∧ base.size (operators_ (s'.2 (DataStream.graph_ ds)))
    = S (base.size (operators_ (h (DataStream.graph_ ds)))).
Proof.
  intros Hchained Hsmall.
  assert (∀ op,
    let s' := DataStream.append_operator op ds h in
    DataStream.chained (S count) s'.1 (s'.2 (DataStream.graph_ ds))
    ∧ DataStream.graph_ s'.1 = DataStream.graph_ ds
    ∧ DataStream.graph_id_ s'.1 = DataStream.graph_id_ ds
    ∧ DataStream.is_finalized_ s'.1 = DataStream.is_finalized_ ds
    ∧ (∀ q, q ≠ DataStream.graph_ ds → s'.2 q = h q)
    ∧ base.size (operators_ (s'.2 (DataStream.graph_ ds)))
      = S (base.size (operators_ (h (DataStream.graph_ ds))))) as Happend.
  { intros op.
    destruct (chained_append count ds _ op Hchained Hsmall)
      as (Hid & _ & Hg2 & _ & Hsize & _).
    simpl in Hid. rewrite <- Hid in Hg2, Hsize.
    destruct (connectToLastOperator_store ds h
                (addOperator (h (DataStream.graph_ ds)) (Some op)).2
                (next_operator_id_ (h (DataStream.graph_ ds))))
      as [Hat Hother].
    assert (DataStream.append_operator op ds h
            = (DataStream.set_last (next_operator_id_ (h (DataStream.graph_ ds))) ds,
               DataStream.connectToLastOperator ds
                 (next_operator_id_ (h (DataStream.graph_ ds)))
                 (DataStream.store_set h (DataStream.graph_ ds)
                    (addOperator (h (DataStream.graph_ ds)) (Some op)).2)))
      as -> by reflexivity.
    cbn [fst snd]. rewrite Hat.
    split; [exact Hg2|]. split; [done|]. split; [done|].
    split; [done|]. split; [exact Hother|exact Hsize]. }
  destruct c as [op|op|op]; [|apply Happend..].
  destruct (chained_append count ds _ op Hchained Hsmall)
    as (Hid & Hg1 & _ & _ & _ & Hsize).
  simpl in Hid. rewrite <- Hid in Hg1.
  assert (DataStream.run_stage (ds, h) (DataStream.FromSource op)
          = (DataStream.set_last (next_operator_id_ (h (DataStream.graph_ ds))) ds,
             DataStream.store_set h (DataStream.graph_ ds)
               (addOperator (h (DataStream.graph_ ds)) (Some op)).2))
    as -> by reflexivity.
  cbn [fst snd]. rewrite store_set_eq.
  split; [exact Hg1|]. split; [done|]. split; [done|].
  split; [done|]. split; [intros q Hq; by apply store_set_ne|exact Hsize].
Qed.

Lemma run_stages_chained (cs : list DataStream.stage) :
  ∀ count ds (h : store),
    DataStream.chained count ds (h (DataStream.graph_ ds)) →
    N.of_nat (count + length cs) + 1 ≤ SIZE_MAX_plus_1 →
    let s' := DataStream.run_stages (ds, h) cs in
    DataStream.chained (count + length cs) s'.1 (s'.2 (DataStream.graph_ ds))
    ∧ DataStream.graph_ s'.1 = DataStream.graph_ ds
    ∧ DataStream.graph_id_ s'.1 = DataStream.graph_id_ ds
    ∧ DataStream.is_finalized_ s'.1 = DataStream.is_finalized_ ds
    ∧ (∀ q, q ≠ DataStream.graph_ ds → s'.2 q = h q)
    ∧ base.size (operators_ (s'.2 (DataStream.graph_ ds)))
      = (base.size (operators_ (h (DataStream.graph_ ds))) + length cs)%nat.
Proof.
  induction cs as [|c cs IH]; intros count ds h Hchained Hsmall.
  - simpl. rewrite !Nat.add_0_r. done.
  - change (DataStream.run_stages (ds, h) (c :: cs))
      with (DataStream.run_stages (DataStream.run_stage (ds, h) c) cs).
    change (length (c :: cs)) with (S (length cs)) in *.
    destruct (run_stage_chained count ds h c Hchained) as (H1 & H2 & H3 & H4 & H5 & H6);
      [lia|].
    set (s1 := DataStream.run_stage (ds, h) c) in *. clearbody s1.
    destruct s1 as [ds1 h1]. cbn [fst snd] in *.
    rewrite <- H2 in H1.
    destruct (IH (S count) ds1 h1 H1) as (K1 & K2 & K3 & K4 & K5 & K6).
    { replace (S count + length cs)%nat with (count + S (length cs))%nat by lia. done. }
    cbn zeta in *. rewrite H2 in K1, K5, K6.
    replace (count + S (length cs))%nat with (S count + length cs)%nat by lia.
    split; [exact K1|]. split; [congruence|]. split; [congruence|].
    split; [congruence|]. split.
    + intros q Hq. rewrite K5 by done. by apply H5.
    + rewrite K6, H6. lia.
Qed.

(** In a chained graph every path goes up, so there is no cycle. *)
Lemma chained_validates (iteration : gmap N OperatorPtr → list N)
    (count : nat) (ds : DataStream.DataStream) (g : ExecutionGraph) :
  iterates_keys iteration → DataStream.chained count ds g →
  validate iteration g = Return true.
Proof.
  intros Hiter Hchained.
  apply (CycleFacts.validate_decides_cycles iteration g Hiter).
  intros (r & a & _ & _ & Hcycle).
  assert (∀ x y, tc (edge g) x y → x < y) as Hup.
  { intros x y Hpath. induction Hpath as [x y Hxy|x z y Hxz _ IH].
    - by apply (DataStream.chained_edges _ _ _ Hchained) in Hxy as [? _].
    - apply (DataStream.chained_edges _ _ _ Hchained) in Hxz as [? _]. lia. }
  apply Hup in Hcycle. lia.
Qed.

(** X17. Whatever chain of [from_source], [map] and [filter] calls is made
    on a new stream over a new graph, the [sink] call that ends it does not
    throw: the graph validates. It holds one operator for each call, every
    edge goes from an operator to one registered later, the stream is
    finalized, and no other graph of the store is touched. *)
Theorem builder_chain_validates
    (iteration : gmap N OperatorPtr → list N) (stages : list DataStream.stage)
    (sink_op : nat) (h : store) (p : nat) :
  iterates_keys iteration →
  h p = empty_graph →
  N.of_nat (length stages) + 2 ≤ SIZE_MAX_plus_1 →
  let s := DataStream.run_stages (DataStream.new_stream p, h) stages in
  let r := DataStream.sink iteration sink_op s.1 s.2 in
  ∃ ds', r.1 = DataStream.Done ds'
    ∧ DataStream.is_finalized_ ds' = true
    ∧ DataStream.graph_ ds' = p
    ∧ DataStream.graph_id_ ds' = None
    ∧ validate iteration (r.2 p) = Return true
    ∧ DataStream.getOperatorCount ds' r.2 = S (length stages)
    ∧ (∀ a b, edge (r.2 p) a b →
         a < b ∧ is_Some (operators_ (r.2 p) !! a) ∧ is_Some (operators_ (r.2 p) !! b))
    ∧ (∀ q, q ≠ p → r.2 q = h q).
Proof.
  intros Hiter Hnew Hsmall s r.
  destruct (run_stages_chained stages 0 (DataStream.new_stream p) h)
    as (Hchained & Hgraph & Hid & Hfinal & Hother & Hsize);
    [by apply chained_new|simpl; lia|].
  fold s in Hchained, Hgraph, Hid, Hfinal, Hother, Hsize.
  change (DataStream.graph_ (DataStream.new_stream p)) with p in *.
  change (DataStream.graph_id_ (DataStream.new_stream p)) with (@None N) in *.
  change (DataStream.is_finalized_ (DataStream.new_stream p)) with false in *.
  change (0 + length stages)%nat with (length stages) in *.
  rewrite Hnew in Hsize. simpl in Hsize. rewrite map_size_empty in Hsize.
  subst r. clearbody s. destruct s as [ds h1]. cbn [fst snd] in *.
  rewrite <- Hgraph in Hchained.
  destruct (chained_append (length stages) ds _ sink_op Hchained)
    as (Hsink_id & _ & _ & Hg2 & Hsize2 & _); [lia|].
  simpl in Hsink_id. rewrite <- Hsink_id in Hg2, Hsize2.
  destruct (connectToLastOperator_store ds h1
              (addOperator (h1 (DataStream.graph_ ds)) (Some sink_op)).2
              (next_operator_id_ (h1 (DataStream.graph_ ds)))) as [Hh2 Hh2other].
  set (h2 := DataStream.connectToLastOperator ds _ _) in *.
  assert (DataStream.sink iteration sink_op ds h1
          = (DataStream.finalizeGraph iteration ds h2, h2)) as -> by reflexivity.
  cbn [fst snd]. rewrite <- Hh2 in Hg2, Hsize2.
  pose proof (chained_validates iteration _ _ _ Hiter Hg2) as Hvalid.
  exists (DataStream.set_finalized ds).
  unfold DataStream.finalizeGraph. rewrite Hfinal, Hvalid.
  rewrite Hgraph in *.
  split; [done|]. split; [done|]. split; [done|]. split; [done|].
  split; [done|]. split.
  { unfold DataStream.getOperatorCount, Graph.getOperatorCount, Graph.size. simpl.
    rewrite Hgraph, Hsize2, Hsize. done. }
  split.
  - intros a b Hab.
    destruct (DataStream.chained_edges _ _ _ Hg2 a b Hab) as [Hlt Hb].
    split; [done|].
    split; apply (DataStream.chained_registered _ _ _ Hg2); lia.
  - intros q Hq. rewrite Hh2other by done. by apply Hother.
Qed.

Lemma builder_chain_validates_witness :
  iterates_keys key_order
  ∧ DataStream.fresh_store 0%nat = empty_graph
  ∧ N.of_nat (length DataStream.three_stages) + 2 ≤ SIZE_MAX_plus_1
  ∧ ∃ ds',
      (DataStream.sink key_order 3%nat
         (DataStream.run_stages (DataStream.new_stream 0, DataStream.fresh_store)
            DataStream.three_stages).1
         (DataStream.run_stages (DataStream.new_stream 0, DataStream.fresh_store)
            DataStream.three_stages).2).1 = DataStream.Done ds'
      ∧ DataStream.is_finalized_ ds' = true.
Proof.
  assert (iterates_keys key_order) as H1 by (intros m; reflexivity).
  assert (DataStream.fresh_store 0%nat = empty_graph) as H2 by reflexivity.
  assert (N.of_nat (length DataStream.three_stages) + 2 ≤ SIZE_MAX_plus_1) as H3
    by (vm_compute; discriminate).
  split; [exact H1|]. split; [exact H2|]. split; [exact H3|].
  destruct (builder_chain_validates key_order DataStream.three_stages 3%nat
              DataStream.fresh_store 0%nat H1 H2 H3) as (ds' & Hdone & Hfinal & _).
  exists ds'. split; [exact Hdone|exact Hfinal].
Defined.

Lemma executeGraph_valid (iteration : gmap N OperatorPtr → list N)
    (h : store) (e : StreamEngine) (id : N) (p : nat) :
  iterates_keys iteration →
  submitted_graphs_ e !! id = Some (Some p) →
  validate iteration (h p) = Return true → operators_ (h p) ≠ ∅ →
  executeGraph iteration h id e
  = (Return tt, set_state id COMPLETED (set_state id RUNNING e)).
Proof.
  intros Hiter Hid Hvalid Hne. unfold executeGraph. rewrite Hid.
  destruct (LifecycleFacts.order_nonempty_iff iteration (h p) Hiter)
    as (order & -> & Hiff).
  destruct order as [|x order]; [|done].
  exfalso. by apply (proj2 Hiff).
Qed.

(** X18. [execute] on a stream that was not submitted yet, whose graph
    validates and has at least one operator, does not throw: it finalizes
    the stream, submits the graph under the engine's next identifier, keeps
    that identifier, and leaves the graph Completed. A second [execute] does
    not submit again: it runs the same identifier and hands out no new
    one. *)
Theorem execute_submits_once
    (iteration : gmap N OperatorPtr → list N) (ds : DataStream.DataStream)
    (h : store) (e : StreamEngine) :
  iterates_keys iteration →
  validate iteration (h (DataStream.graph_ ds)) = Return true →
  operators_ (h (DataStream.graph_ ds)) ≠ ∅ →
  DataStream.graph_id_ ds = None →
  let r := DataStream.execute iteration ds h e in
  let r2 := DataStream.execute iteration r.1.2 h r.2 in
  r.1.1 = DataStream.Done tt
  ∧ DataStream.graph_id_ r.1.2 = Some (next_graph_id_ e)
  ∧ DataStream.is_finalized_ r.1.2 = true
  ∧ submitted_graphs_ r.2 !! next_graph_id_ e = Some (Some (DataStream.graph_ ds))
  ∧ getGraphState r.2 (next_graph_id_ e) = COMPLETED
  ∧ r2.1.1 = DataStream.Done tt
  ∧ r2.1.2 = r.1.2
  ∧ next_graph_id_ r2.2 = next_graph_id_ r.2
  ∧ submitted_graphs_ r2.2 = submitted_graphs_ r.2
  ∧ getGraphState r2.2 (next_graph_id_ e) = COMPLETED.
Proof.
  intros Hiter Hvalid Hne Hid r r2.
  set (ds1 := DataStream.set_finalized ds).
  assert (DataStream.finalizeGraph iteration ds h
          = DataStream.Done (if DataStream.is_finalized_ ds then ds else ds1)) as Hfin.
  { unfold DataStream.finalizeGraph. rewrite Hvalid.
    by destruct (DataStream.is_finalized_ ds). }
  set (dsf := if DataStream.is_finalized_ ds then ds else ds1) in *.
  assert (DataStream.graph_ dsf = DataStream.graph_ ds
          ∧ DataStream.graph_id_ dsf = None
          ∧ DataStream.is_finalized_ dsf = true) as (Hg & Hi & Hf).
  { subst dsf ds1. by destruct (DataStream.is_finalized_ ds) eqn:E. }
  set (id := next_graph_id_ e) in *.
  set (e1 := {| execution_mode_ := execution_mode_ e;
                next_graph_id_ := size_t_incr id;
                submitted_graphs_ := <[id := Some (DataStream.graph_ ds)]> (submitted_graphs_ e);
                graph_states_ := <[id := SUBMITTED]> (graph_states_ e) |}).
  assert (submitGraph iteration h (Some (DataStream.graph_ ds)) e = (Return id, e1))
    as Hsubmit.
  { unfold submitGraph. by rewrite Hvalid. }
  assert (submitted_graphs_ e1 !! id = Some (Some (DataStream.graph_ ds))) as Hreg
    by (simpl; apply lookup_insert_eq).
  set (e2 := set_state id COMPLETED (set_state id RUNNING e1)).
  set (ds2 := DataStream.set_graph_id id dsf).
  assert (r = (DataStream.Done tt, ds2, e2)) as Hr.
  { subst r. unfold DataStream.execute. rewrite Hfin, Hi, Hg, Hsubmit.
    by rewrite (executeGraph_valid iteration h e1 id _ Hiter Hreg Hvalid Hne). }
  assert (r2 = (DataStream.Done tt, ds2, set_state id COMPLETED (set_state id RUNNING e2)))
    as Hr2.
  { subst r2. rewrite Hr. cbn [fst snd]. unfold DataStream.execute.
    assert (DataStream.finalizeGraph iteration ds2 h = DataStream.Done ds2) as ->.
    { unfold DataStream.finalizeGraph. simpl. by rewrite Hf. }
    assert (submitted_graphs_ e2 !! id = Some (Some (DataStream.graph_ ds))) as Hreg2
      by (simpl; apply lookup_insert_eq).
    simpl.
    by rewrite (executeGraph_valid iteration h e2 id _ Hiter Hreg2 Hvalid Hne). }
  rewrite Hr2, Hr. cbn [fst snd].
  split; [done|]. split; [done|]. split; [done|]. split; [done|].
  split; [unfold getGraphState; simpl; by rewrite lookup_insert_eq|].
  split; [done|]. split; [done|]. split; [done|]. split; [done|].
  unfold getGraphState. simpl. by rewrite lookup_insert_eq.
Qed.

Lemma execute_submits_once_witness :
  iterates_keys key_order
  ∧ validate key_order (pipeline_store (DataStream.graph_ (DataStream.new_stream 0)))
    = Return true
  ∧ operators_ (pipeline_store (DataStream.graph_ (DataStream.new_stream 0))) ≠ ∅
  ∧ DataStream.graph_id_ (DataStream.new_stream 0) = None
  ∧ (DataStream.execute key_order (DataStream.new_stream 0) pipeline_store
       (new_engine SINGLE_THREADED)).1.1 = DataStream.Done tt.
Proof.
  assert (iterates_keys key_order) as H1 by (intros m; reflexivity).
  assert (validate key_order
            (pipeline_store (DataStream.graph_ (DataStream.new_stream 0)))
          = Return true) as H2 by (vm_compute; reflexivity).
  assert (operators_ (pipeline_store (DataStream.graph_ (DataStream.new_stream 0))) ≠ ∅)
    as H3 by (vm_compute; discriminate).
  assert (DataStream.graph_id_ (DataStream.new_stream 0) = None) as H4 by reflexivity.
  split; [exact H1|]. split; [exact H2|]. split; [exact H3|]. split; [exact H4|].
  exact (proj1 (execute_submits_once key_order (DataStream.new_stream 0)
                  pipeline_store (new_engine SINGLE_THREADED) H1 H2 H3 H4)).
Defined.

(** X19. [executeAsync] on a stream that was not submitted yet and whose
    graph validates does not throw, whether or not the graph has operators:
    it submits the graph under the engine's next identifier and leaves it
    Completed, not Running. [stop] on the resulting stream leaves the graph
    Stopped; [stop] on the stream before it was submitted changes nothing in
    the engine. *)
Theorem executeAsync_then_stop
    (iteration : gmap N OperatorPtr → list N) (ds : DataStream.DataStream)
    (h : store) (e : StreamEngine) :
  validate iteration (h (DataStream.graph_ ds)) = Return true →
  DataStream.graph_id_ ds = None →
  let r := DataStream.executeAsync iteration ds h e in
  r.1.1 = DataStream.Done tt
  ∧ DataStream.graph_id_ r.1.2 = Some (next_graph_id_ e)
  ∧ DataStream.is_finalized_ r.1.2 = true
  ∧ getGraphState r.2 (next_graph_id_ e) = COMPLETED
  ∧ isGraphRunning r.2 (next_graph_id_ e) = false
  ∧ getGraphState (DataStream.stop r.1.2 r.2) (next_graph_id_ e) = STOPPED
  ∧ DataStream.stop ds e = e.
Proof.
  intros Hvalid Hid r.
  set (ds1 := DataStream.set_finalized ds).
  assert (DataStream.finalizeGraph iteration ds h
          = DataStream.Done (if DataStream.is_finalized_ ds then ds else ds1)) as Hfin.
  { unfold DataStream.finalizeGraph. rewrite Hvalid.
    by destruct (DataStream.is_finalized_ ds). }
  set (dsf := if DataStream.is_finalized_ ds then ds else ds1) in *.
  assert (DataStream.graph_ dsf = DataStream.graph_ ds
          ∧ DataStream.graph_id_ dsf = None
          ∧ DataStream.is_finalized_ dsf = true) as (Hg & Hi & Hf).
  { subst dsf ds1. by destruct (DataStream.is_finalized_ ds) eqn:E. }
  set (id := next_graph_id_ e) in *.
  set (e1 := {| execution_mode_ := execution_mode_ e;
                next_graph_id_ := size_t_incr id;
                submitted_graphs_ := <[id := Some (DataStream.graph_ ds)]> (submitted_graphs_ e);
                graph_states_ := <[id := SUBMITTED]> (graph_states_ e) |}).
  assert (submitGraph iteration h (Some (DataStream.graph_ ds)) e = (Return id, e1))
    as Hsubmit.
  { unfold submitGraph. by rewrite Hvalid. }
  assert (submitted_graphs_ e1 !! id = Some (Some (DataStream.graph_ ds))) as Hreg
    by (simpl; apply lookup_insert_eq).
  set (e2 := set_state id COMPLETED (set_state id RUNNING e1)).
  assert (r = (DataStream.Done tt, DataStream.set_graph_id id dsf, e2)) as ->.
  { subst r. unfold DataStream.executeAsync. rewrite Hfin, Hi, Hg, Hsubmit.
    unfold executeGraphAsync. by rewrite Hreg. }
  cbn [fst snd].
  assert (getGraphState e2 id = COMPLETED) as Hstate
    by (unfold getGraphState; simpl; by rewrite lookup_insert_eq).
  split; [done|]. split; [done|]. split; [done|]. split; [done|].
  split; [unfold isGraphRunning; by rewrite Hstate|].
  split.
  - unfold DataStream.stop, stopGraph. simpl. rewrite lookup_insert_eq.
    unfold getGraphState. simpl. by rewrite lookup_insert_eq.
  - unfold DataStream.stop. by rewrite Hid.
Qed.

Lemma executeAsync_then_stop_witness :
  validate key_order (empty_store (DataStream.graph_ (DataStream.new_stream 0)))
    = Return true
  ∧ DataStream.graph_id_ (DataStream.new_stream 0) = None
  ∧ (DataStream.executeAsync key_order (DataStream.new_stream 0) empty_store
       (new_engine SINGLE_THREADED)).1.1 = DataStream.Done tt.
Proof.
  assert (validate key_order
            (empty_store (DataStream.graph_ (DataStream.new_stream 0)))
          = Return true) as H1 by (vm_compute; reflexivity).
  assert (DataStream.graph_id_ (DataStream.new_stream 0) = None) as H2 by reflexivity.
  split; [exact H1|]. split; [exact H2|].
  exact (proj1 (executeAsync_then_stop key_order (DataStream.new_stream 0)
                  empty_store (new_engine SINGLE_THREADED) H1 H2)).
Defined.

End DataStreamFacts.
